(** * Projective Set: the game and lobby engine, embedded and verified

    A shallow embedding of the shared game logic (set validation, deck
    service, game state transitions) and of the two server managers
    (GameManager, LobbyManager), followed by the properties of the
    specification that concern them.

    JavaScript numbers that the program only uses as integers are [Z];
    array lengths and indices are [nat]; strings are [string]; arrays are
    lists; [Map<string, _>] is [gmap string _].  The two sources of
    non-determinism, [Math.random] and the minting of card ids, are read
    from an explicit oracle. *)

From Stdlib Require Import ZArith Lia.
From stdpp Require Import base numbers list strings gmap pretty.

Local Open Scope Z_scope.

(** ** JavaScript 32-bit integer operators *)

Module JS.

(** ToInt32: wrap into [-2^31, 2^31). *)
Definition toInt32 (x : Z) : Z := (x + 2 ^ 31) mod 2 ^ 32 - 2 ^ 31.

(** ToUint32: wrap into [0, 2^32). *)
Definition toUint32 (x : Z) : Z := x mod 2 ^ 32.

(** [a ^ b] *)
Definition xor (a b : Z) : Z := toInt32 (Z.lxor (toInt32 a) (toInt32 b)).

(** [a & b] *)
Definition and (a b : Z) : Z := toInt32 (Z.land (toInt32 a) (toInt32 b)).

(** [a << n]: the shift count is taken modulo 32. *)
Definition shl (a n : Z) : Z := toInt32 (Z.shiftl (toInt32 a) (n mod 32)).

(** [a >>> n]: unsigned shift, count modulo 32. *)
Definition ushr (a n : Z) : Z := Z.shiftr (toUint32 a) (n mod 32).

End JS.

(** ** Cards *)

Abbreviation Card := Z (only parsing).
Abbreviation CardId := string (only parsing).

Module CardInstance.
Record t := mk { id : CardId; value : Card }.

Global Instance eq_dec : EqDecision t.
Proof. solve_decision. Defined.
End CardInstance.

Definition DECK_SIZE : nat := 63.
Definition BITS_PER_CARD : nat := 6.
Definition ACTIVE_CARD_COUNT : nat := 7.

(** ** Set validation *)

Module Validation.

Definition MIN_SET_SIZE : nat := 3.

(** [isValidSet]: at least three cards whose XOR-reduction is 0. *)
Definition isValidSet (cards : list Card) : bool :=
  if (length cards <? MIN_SET_SIZE)%nat then false
  else
    let xorResult := foldl (fun acc card => JS.xor acc card) 0 cards in
    xorResult =? 0.

(** [countBits]: [while (n) { count += n & 1; n >>>= 1; }].  After the
    first unsigned shift the operand is below 2^31 and halves at every
    step, so 33 iterations always reach 0. *)
Fixpoint countBits_loop (fuel : nat) (n count : Z) : Z :=
  match fuel with
  | O => count
  | S fuel' =>
      if n =? 0 then count
      else countBits_loop fuel' (JS.ushr n 1) (count + JS.and n 1)
  end.

Definition countBits (n : Z) : Z := countBits_loop 33 n 0.

(** The inner loop of [hasValidSet]:
    [for (i = 0; i < n; i++) if (mask & (1 << i)) xorResult ^= cards[i]],
    started at index [i] on the cards from that index on. *)
Fixpoint xorSubset (cards : list Card) (i : Z) (mask xorResult : Z) : Z :=
  match cards with
  | [] => xorResult
  | card :: rest =>
      xorSubset rest (i + 1) mask
        (if JS.and mask (JS.shl 1 i) =? 0 then xorResult
         else JS.xor xorResult card)
  end.

(** The mask loop of [hasValidSet], [for (mask = 7; mask < (1 << n); mask++)],
    with the loop test kept and a fuel that bounds the iterations. *)
Fixpoint hasValidSet_loop (fuel : nat) (cards : list Card) (mask : Z) : bool :=
  match fuel with
  | O => false
  | S fuel' =>
      if mask <? JS.shl 1 (Z.of_nat (length cards)) then
        if countBits mask <? Z.of_nat MIN_SET_SIZE then
          hasValidSet_loop fuel' cards (mask + 1)
        else if xorSubset cards 0 mask 0 =? 0 then true
        else hasValidSet_loop fuel' cards (mask + 1)
      else false
  end.

Definition hasValidSet (cards : list Card) : bool :=
  let n := length cards in
  if (n <? MIN_SET_SIZE)%nat then false
  else
    hasValidSet_loop (Z.to_nat (JS.shl 1 (Z.of_nat n) - 7)) cards 7.

End Validation.

(** ** The oracle: minted ids, random draws, the clock *)

(** [idOf k] is the id produced by the [k]-th call of [generateCardId];
    [rndOf k] decides the [k]-th call of [Math.random]. *)
Class Oracle := { idOf : nat -> CardId; rndOf : nat -> nat }.

Module World.
(** How many ids were minted and random numbers drawn so far, and the
    value [Date.now()] returns. *)
Record t := mk { minted : nat; drawn : nat; now : Z }.
End World.

Definition M (A : Type) : Type := World.t -> A * World.t.

Definition ret {A} (a : A) : M A := fun w => (a, w).

Definition bind {A B} (m : M A) (k : A -> M B) : M B :=
  fun w => let (a, w') := m w in k a w'.

Declare Scope m_scope.
Delimit Scope m_scope with M.
Notation "x <- m ;; k" := (bind m (fun x => k))
  (at level 100, m at next level, right associativity) : m_scope.
Local Open Scope m_scope.

Fixpoint mapM {A B} (f : A -> M B) (l : list A) : M (list B) :=
  match l with
  | [] => ret []
  | a :: l' => b <- f a ;; bs <- mapM f l' ;; ret (b :: bs)
  end.

(** ** Deck service *)

Module Deck.
Section WithOracle.
Context `{!Oracle}.

(** [generateCardId]: the next id of the oracle. *)
Definition generateCardId : M CardId :=
  fun w => (idOf (World.minted w),
            World.mk (S (World.minted w)) (World.drawn w) (World.now w)).

(** [Math.floor(Math.random() * n)]: some index below [n]. *)
Definition randomBelow (n : nat) : M nat :=
  fun w => ((rndOf (World.drawn w) mod n)%nat,
            World.mk (World.minted w) (S (World.drawn w)) (World.now w)).

(** [createDeck]: [for (value = 1; value <= DECK_SIZE; value++) deck.push(..)]. *)
Fixpoint createDeck_loop (n : nat) (value : Z) (deck : list CardInstance.t)
  : M (list CardInstance.t) :=
  match n with
  | O => ret deck
  | S n' =>
      i <- generateCardId ;;
      createDeck_loop n' (value + 1) (deck ++ [CardInstance.mk i value])
  end.

Definition createDeck : M (list CardInstance.t) :=
  createDeck_loop DECK_SIZE 1 [].

(** [[array[i], array[j]] = [array[j], array[i]]]; the shuffle only calls
    it with both indices in range. *)
Definition swap {T} (i j : nat) (array : list T) : list T :=
  match array !! i, array !! j with
  | Some x, Some y => <[j := x]> (<[i := y]> array)
  | _, _ => array
  end.

(** [shuffle]: [for (i = array.length - 1; i > 0; i--)]. *)
Fixpoint shuffle_loop {T} (i : nat) (array : list T) : M (list T) :=
  match i with
  | O => ret array
  | S i' =>
      j <- randomBelow (i + 1)%nat ;;
      shuffle_loop i' (swap i j array)
  end.

Definition shuffle {T} (array : list T) : M (list T) :=
  shuffle_loop (length array - 1)%nat array.

Definition createShuffledDeck : M (list CardInstance.t) :=
  deck <- createDeck ;; shuffle deck.

(** [dealCards]: pops from the end of the deck; returns the dealt cards
    and the deck that is left (the source mutates the deck in place). *)
Fixpoint dealCards_loop (n : nat) (deck dealt : list CardInstance.t)
  : list CardInstance.t * list CardInstance.t :=
  match n with
  | O => (dealt, deck)
  | S n' =>
      match last deck with
      | None => (dealt, deck)
      | Some card =>
          dealCards_loop n' (take (length deck - 1)%nat deck) (dealt ++ [card])
      end
  end.

Definition dealCards (deck : list CardInstance.t) (count : Z)
  : list CardInstance.t * list CardInstance.t :=
  dealCards_loop (Z.to_nat count) deck [].

(** [returnCardsToDeck]: returns the new content of the deck. *)
Definition returnCardsToDeck (deck cards : list CardInstance.t)
  : M (list CardInstance.t) :=
  cardsWithNewIds <-
    mapM (fun card =>
            i <- generateCardId ;;
            ret (CardInstance.mk i (CardInstance.value card))) cards ;;
  shuffle (deck ++ cardsWithNewIds).

End WithOracle.
End Deck.

(** ** Game state types *)

Abbreviation PlayerId := string (only parsing).

Module Player.
Record t := mk {
  id : PlayerId;
  name : string;
  playerNumber : Z;
  color : string;
  claimedCards : list CardInstance.t;
  selectedCardIds : list CardId;
  score : Z;
  isConnected : bool;
  isReady : bool;
}.

Global Instance eq_dec : EqDecision t.
Proof. solve_decision. Defined.
End Player.

Inductive SetFoundBehavior := immediate | click.
Inductive ScoringMode := cards | sets.
Inductive GamePhase := waiting | playing | ended.
Inductive GameEndReason := deck_empty | timer_expired | player_quit.

Global Instance SetFoundBehavior_eq_dec : EqDecision SetFoundBehavior.
Proof. solve_decision. Defined.
Global Instance ScoringMode_eq_dec : EqDecision ScoringMode.
Proof. solve_decision. Defined.
Global Instance GamePhase_eq_dec : EqDecision GamePhase.
Proof. solve_decision. Defined.
Global Instance GameEndReason_eq_dec : EqDecision GameEndReason.
Proof. solve_decision. Defined.

Module TimerConfig.
Record t := mk { durationMs : Z }.
End TimerConfig.

(** [SinglePlayerSettings | MultiplayerSettings]: the single-player record
    has no [scoringMode] field, which reads as [None]. *)
Module Settings.
Record t := mk {
  colorsEnabled : bool;
  binaryMode : bool;
  turnTimer : option TimerConfig.t;
  gameTimer : option TimerConfig.t;
  setFoundBehavior : SetFoundBehavior;
  infiniteDeck : bool;
  scoringMode : option ScoringMode;
}.
End Settings.

Definition DEFAULT_SINGLE_PLAYER_SETTINGS : Settings.t :=
  Settings.mk true false None None immediate false None.

Definition DEFAULT_MULTIPLAYER_SETTINGS : Settings.t :=
  Settings.mk true false None None immediate false (Some cards).

Module GameState.
Record t := mk {
  phase : GamePhase;
  deck : list CardInstance.t;
  activeCards : list CardInstance.t;
  players : list Player.t;
  settings : Settings.t;
  turnTimeRemainingMs : option Z;
  gameTimeRemainingMs : option Z;
  endReason : option GameEndReason;
  startedAt : option Z;
}.
End GameState.

(** ** Game state engine *)

Module Game.
Import GameState.
Section WithOracle.
Context `{!Oracle}.

Definition dateNow : M Z := fun w => (World.now w, w).

(** [settings.turnTimer?.durationMs ?? null] *)
Definition timerDuration (timer : option TimerConfig.t) : option Z :=
  TimerConfig.durationMs <$> timer.

Definition createSinglePlayerGame (playerId : PlayerId) (playerName : string)
    (settings : Settings.t) : M GameState.t :=
  deck <- Deck.createShuffledDeck ;;
  let '(activeCards, deck) := Deck.dealCards deck (Z.of_nat ACTIVE_CARD_COUNT) in
  let player :=
    Player.mk playerId playerName 1 "#3B82F6" [] [] 0 true true in
  startedAt <- dateNow ;;
  ret (GameState.mk playing deck activeCards [player] settings
         (timerDuration (Settings.turnTimer settings))
         (timerDuration (Settings.gameTimer settings))
         None (Some startedAt)).

Definition createMultiplayerGame (players : list Player.t)
    (settings : Settings.t) : M GameState.t :=
  deck <- Deck.createShuffledDeck ;;
  let '(activeCards, deck) := Deck.dealCards deck (Z.of_nat ACTIVE_CARD_COUNT) in
  let gamePlayers :=
    imap (fun index p =>
            Player.mk (Player.id p) (Player.name p) (Z.of_nat index + 1)
              (Player.color p) [] [] 0
              (Player.isConnected p) (Player.isReady p)) players in
  startedAt <- dateNow ;;
  ret (GameState.mk playing deck activeCards gamePlayers settings
         (timerDuration (Settings.turnTimer settings))
         (timerDuration (Settings.gameTimer settings))
         None (Some startedAt)).

(** [{...player, selectedCardIds}] *)
Definition withSelection (p : Player.t) (sel : list CardId) : Player.t :=
  Player.mk (Player.id p) (Player.name p) (Player.playerNumber p)
    (Player.color p) (Player.claimedCards p) sel (Player.score p)
    (Player.isConnected p) (Player.isReady p).

(** [{...state, players}] *)
Definition withPlayers (s : GameState.t) (ps : list Player.t) : GameState.t :=
  GameState.mk (phase s) (deck s) (activeCards s) ps (settings s)
    (turnTimeRemainingMs s) (gameTimeRemainingMs s) (endReason s) (startedAt s).

(** [findIndex] followed by [state.players[playerIndex]]: [list_find]
    returns the first index that satisfies the test and the element there. *)
Definition findPlayer (ps : list Player.t) (playerId : PlayerId)
  : option (nat * Player.t) :=
  list_find (fun p => Player.id p = playerId) ps.

(** [state.activeCards.find(c => c.id === id)] *)
Definition findCard (cs : list CardInstance.t) (i : CardId)
  : option CardInstance.t :=
  snd <$> list_find (fun c => CardInstance.id c = i) cs.

Definition toggleCardSelection (state : GameState.t) (playerId : PlayerId)
    (cardId : CardId) : GameState.t :=
  match findPlayer (players state) playerId with
  | None => state
  | Some (playerIndex, player) =>
      let cardExists :=
        bool_decide (Exists (fun c => CardInstance.id c = cardId)
                       (activeCards state)) in
      if negb cardExists then state
      else
        let isSelected :=
          bool_decide (cardId ∈ Player.selectedCardIds player) in
        let newSelection :=
          if isSelected
          then filter (fun i => i ≠ cardId) (Player.selectedCardIds player)
          else Player.selectedCardIds player ++ [cardId] in
        let newPlayers :=
          <[playerIndex := withSelection player newSelection]> (players state) in
        withPlayers state newPlayers
  end.

Definition getSelectedCardValues (state : GameState.t) (playerId : PlayerId)
  : list Card :=
  match findPlayer (players state) playerId with
  | None => []
  | Some (_, player) =>
      CardInstance.value <$>
        omap (findCard (activeCards state)) (Player.selectedCardIds player)
  end.

Definition isPlayerSelectionValid (state : GameState.t) (playerId : PlayerId)
  : bool :=
  Validation.isValidSet (getSelectedCardValues state playerId).

Definition claimSet (state : GameState.t) (playerId : PlayerId)
    (cardIds : list CardId) : M (GameState.t * Z) :=
  match findPlayer (players state) playerId with
  | None => ret (state, 0)
  | Some (playerIndex, _) =>
      let claimedCards := omap (findCard (activeCards state)) cardIds in
      if negb (length claimedCards =? length cardIds)%nat then ret (state, 0)
      else if negb (Validation.isValidSet (CardInstance.value <$> claimedCards))
      then ret (state, 0)
      else
        let scoringMode := default cards (Settings.scoringMode (settings state)) in
        let pointsAwarded :=
          if decide (scoringMode = cards)
          then Z.of_nat (length claimedCards) else 1 in
        let newActiveCards :=
          filter (fun c => CardInstance.id c ∉ cardIds) (activeCards state) in
        newDeck <-
          (if Settings.infiniteDeck (settings state)
           then Deck.returnCardsToDeck (deck state) claimedCards
           else ret (deck state)) ;;
        let cardsNeeded :=
          Z.of_nat ACTIVE_CARD_COUNT - Z.of_nat (length newActiveCards) in
        let '(newCards, newDeck) := Deck.dealCards newDeck cardsNeeded in
        let newActiveCards := newActiveCards ++ newCards in
        let newPlayers :=
          imap (fun i p =>
                  if decide (i = playerIndex)
                  then Player.mk (Player.id p) (Player.name p)
                         (Player.playerNumber p) (Player.color p)
                         (Player.claimedCards p ++ claimedCards) []
                         (Player.score p + pointsAwarded)
                         (Player.isConnected p) (Player.isReady p)
                  else withSelection p
                         (filter (fun i => i ∉ cardIds)
                            (Player.selectedCardIds p)))
            (players state) in
        let turnTimeRemainingMs :=
          timerDuration (Settings.turnTimer (settings state)) in
        ret (GameState.mk (phase state) newDeck newActiveCards newPlayers
               (settings state) turnTimeRemainingMs
               (gameTimeRemainingMs state) (endReason state)
               (startedAt state),
             pointsAwarded)
  end.

Definition clearSelection (state : GameState.t) (playerId : PlayerId)
  : GameState.t :=
  match findPlayer (players state) playerId with
  | None => state
  | Some (playerIndex, player) =>
      withPlayers state
        (<[playerIndex := withSelection player []]> (players state))
  end.

(** [timer !== null && timer <= 0] *)
Definition expired (timer : option Z) : bool :=
  match timer with
  | Some t => t <=? 0
  | None => false
  end.

Definition checkGameEnd (state : GameState.t) : option GameEndReason :=
  if expired (gameTimeRemainingMs state) then Some timer_expired
  else if expired (turnTimeRemainingMs state) then Some timer_expired
  else if (length (deck state) =? 0)%nat
          && negb (Settings.infiniteDeck (settings state))
  then
    let activeValues := CardInstance.value <$> activeCards state in
    if negb (Validation.hasValidSet activeValues) then Some deck_empty
    else None
  else None.

Definition endGame (state : GameState.t) (reason : GameEndReason)
  : GameState.t :=
  GameState.mk ended (deck state) (activeCards state) (players state)
    (settings state) (turnTimeRemainingMs state) (gameTimeRemainingMs state)
    (Some reason) (startedAt state).

Definition updateTimers (state : GameState.t) (elapsedMs : Z) : GameState.t :=
  let turnTimeRemainingMs :=
    (fun t => Z.max 0 (t - elapsedMs)) <$> turnTimeRemainingMs state in
  let gameTimeRemainingMs :=
    (fun t => Z.max 0 (t - elapsedMs)) <$> gameTimeRemainingMs state in
  GameState.mk (phase state) (deck state) (activeCards state) (players state)
    (settings state) turnTimeRemainingMs gameTimeRemainingMs
    (endReason state) (startedAt state).

End WithOracle.
End Game.

(** ** Results of the manager operations *)

Inductive ErrorCode :=
  | LOBBY_NOT_FOUND | LOBBY_FULL | LOBBY_GAME_IN_PROGRESS | NOT_HOST
  | SETTINGS_LOCKED | PLAYERS_NOT_READY
  | GAME_NOT_STARTED | INVALID_CARD | CARD_ALREADY_CLAIMED | NOT_A_VALID_SET
  | NO_PENDING_SET
  | INVALID_REQUEST | UNAUTHORIZED.

(** [Result<T> = T | { error; message }] *)
Inductive Result (T : Type) :=
  | Ok (payload : T)
  | Err (error : ErrorCode) (message : string).
Arguments Ok {T} payload.
Arguments Err {T} error message.

Definition isError {T} (r : Result T) : bool :=
  match r with Ok _ => false | Err _ _ => true end.

Module Config.
Record t := mk {
  tickRateMs : Z;
  maxPlayersPerLobby : Z;
  lobbyCodeLength : Z;
}.
(** The values used when the environment sets none. *)
Definition defaults : t := mk 100 8 6.
End Config.

(** ** Game manager *)

Module PendingSet.
Record t := mk { playerId : PlayerId; cardIds : list CardId; timestamp : Z }.
End PendingSet.

Module GameInstance.
(** [loopInterval] is the handle of the interval timer, if one runs. *)
Record t := mk {
  state : GameState.t;
  pendingSet : option PendingSet.t;
  loopInterval : option nat;
}.
End GameInstance.

Module ClaimOk.
Record t := mk {
  claimedCardIds : list CardId;
  pointsAwarded : Z;
  newCards : list CardInstance.t;
  gameEnded : bool;
}.
End ClaimOk.

Module ToggleOk.
Record t := mk { selectedCardIds : list CardId; validSetFormed : bool }.
End ToggleOk.

Module GameManager.
Import GameInstance.
Section WithOracle.
Context `{!Oracle}.

(** [this.games]: lobby code -> game instance.  Each method takes the map
    and returns it as the method leaves it. *)
Definition createGame (games : gmap string GameInstance.t)
    (lobbyCode : string) (initialState : GameState.t)
  : gmap string GameInstance.t :=
  <[lobbyCode := GameInstance.mk initialState None None]> games.

Definition getGameState (games : gmap string GameInstance.t)
    (lobbyCode : string) : option GameState.t :=
  state <$> games !! lobbyCode.

Definition toggleCard (games : gmap string GameInstance.t)
    (lobbyCode : string) (playerId : PlayerId) (cardId : CardId)
  : Result ToggleOk.t * gmap string GameInstance.t :=
  match games !! lobbyCode with
  | None => (Err GAME_NOT_STARTED "Game not found", games)
  | Some game =>
      if negb (bool_decide (GameState.phase (state game) = playing))
      then (Err GAME_NOT_STARTED "Game is not active", games)
      else
        let state' := Game.toggleCardSelection (state game) playerId cardId in
        let games' :=
          <[lobbyCode :=
              GameInstance.mk state' (pendingSet game) (loopInterval game)]>
            games in
        match Game.findPlayer (GameState.players state') playerId with
        | None => (Err INVALID_REQUEST "Player not found", games')
        | Some (_, player) =>
            (Ok (ToggleOk.mk (Player.selectedCardIds player)
                   (Game.isPlayerSelectionValid state' playerId)),
             games')
        end
  end.

Definition setPendingSet (games : gmap string GameInstance.t)
    (lobbyCode : string) (playerId : PlayerId) (cardIds : list CardId)
  : M (gmap string GameInstance.t) :=
  match games !! lobbyCode with
  | None => ret games
  | Some game =>
      match pendingSet game with
      | Some _ => ret games
      | None =>
          timestamp <- Game.dateNow ;;
          ret (<[lobbyCode :=
                   GameInstance.mk (state game)
                     (Some (PendingSet.mk playerId cardIds timestamp))
                     (loopInterval game)]> games)
      end
  end.

Definition stopGameLoop (games : gmap string GameInstance.t)
    (lobbyCode : string) : gmap string GameInstance.t :=
  match games !! lobbyCode with
  | Some game =>
      match loopInterval game with
      | Some _ =>
          <[lobbyCode := GameInstance.mk (state game) (pendingSet game) None]>
            games
      | None => games
      end
  | None => games
  end.

Definition claimSet (games : gmap string GameInstance.t)
    (lobbyCode : string) (playerId : PlayerId) (cardIds : list CardId)
  : M (Result ClaimOk.t * gmap string GameInstance.t) :=
  match games !! lobbyCode with
  | None => ret (Err GAME_NOT_STARTED "Game not found", games)
  | Some game =>
      let activeCardsBefore :=
        CardInstance.id <$> GameState.activeCards (state game) in
      claimResult <- Game.claimSet (state game) playerId cardIds ;;
      let '(state', pointsAwarded) := claimResult in
      if pointsAwarded =? 0
      then ret (Err NOT_A_VALID_SET "Not a valid set", games)
      else
        let newCards :=
          filter (fun c => CardInstance.id c ∉ activeCardsBefore)
            (GameState.activeCards state') in
        match Game.checkGameEnd state' with
        | Some endReason =>
            let games' :=
              <[lobbyCode :=
                  GameInstance.mk (Game.endGame state' endReason)
                    (pendingSet game) (loopInterval game)]> games in
            ret (Ok (ClaimOk.mk cardIds pointsAwarded newCards true),
                 stopGameLoop games' lobbyCode)
        | None =>
            ret (Ok (ClaimOk.mk cardIds pointsAwarded newCards false),
                 <[lobbyCode :=
                     GameInstance.mk state' (pendingSet game)
                       (loopInterval game)]> games)
        end
  end.

(** [game.pendingSet = null] on the instance the map holds now. *)
Definition clearPending (games : gmap string GameInstance.t)
    (lobbyCode : string) : gmap string GameInstance.t :=
  match games !! lobbyCode with
  | Some game =>
      <[lobbyCode := GameInstance.mk (state game) None (loopInterval game)]>
        games
  | None => games
  end.

Definition confirmSet (games : gmap string GameInstance.t)
    (lobbyCode : string) (playerId : PlayerId)
  : M (Result ClaimOk.t * gmap string GameInstance.t) :=
  match games !! lobbyCode with
  | None => ret (Err GAME_NOT_STARTED "Game not found", games)
  | Some game =>
      match pendingSet game with
      | None => ret (Err NO_PENDING_SET "No pending set to confirm", games)
      | Some pending =>
          if negb (bool_decide (PendingSet.playerId pending = playerId))
          then ret (Err NO_PENDING_SET "No pending set to confirm", games)
          else
            let cardIds := PendingSet.cardIds pending in
            r <- claimSet games lobbyCode playerId cardIds ;;
            let '(result, games') := r in
            match result with
            | Err _ _ => ret (result, games')
            | Ok _ => ret (result, clearPending games' lobbyCode)
            end
      end
  end.

Definition clearSelection (games : gmap string GameInstance.t)
    (lobbyCode : string) (playerId : PlayerId)
  : Result unit * gmap string GameInstance.t :=
  match games !! lobbyCode with
  | None => (Err GAME_NOT_STARTED "Game not found", games)
  | Some game =>
      let state' := Game.clearSelection (state game) playerId in
      let pending' :=
        match pendingSet game with
        | Some pending =>
            if bool_decide (PendingSet.playerId pending = playerId)
            then None else Some pending
        | None => None
        end in
      (Ok tt,
       <[lobbyCode := GameInstance.mk state' pending' (loopInterval game)]>
         games)
  end.

End WithOracle.
End GameManager.

(** ** Lobby manager *)

Module ChatMessage.
Record t := mk {
  id : string;
  playerId : PlayerId;
  playerName : string;
  content : string;
  timestamp : Z;
}.
End ChatMessage.

Module LobbyState.
Record t := mk {
  code : string;
  hostId : PlayerId;
  players : list Player.t;
  settings : Settings.t;
  settingsUnlocked : bool;
  chatMessages : list ChatMessage.t;
}.
End LobbyState.

Module LobbyManager.
Import LobbyState.

Definition PLAYER_COLORS : list string :=
  ["#3B82F6"; "#EF4444"; "#10B981"; "#F59E0B";
   "#8B5CF6"; "#EC4899"; "#06B6D4"; "#F97316"]%string.

(** [PLAYER_COLORS[i % PLAYER_COLORS.length]] *)
Definition colorAt (i : nat) : string :=
  default ""%string (PLAYER_COLORS !! (i mod length PLAYER_COLORS)%nat).

(** [this.lobbies]: lobby code -> lobby state. *)
Definition joinLobby (config : Config.t) (lobbies : gmap string LobbyState.t)
    (code : string) (playerId : PlayerId) (playerName : string)
  : Result (LobbyState.t * Player.t) * gmap string LobbyState.t :=
  match lobbies !! code with
  | None => (Err LOBBY_NOT_FOUND "Lobby not found", lobbies)
  | Some lobby =>
      if Z.of_nat (length (players lobby)) >=? Config.maxPlayersPerLobby config
      then (Err LOBBY_FULL "Lobby is full", lobbies)
      else
        match list_find (fun p => Player.id p = playerId) (players lobby) with
        | Some (_, existing) => (Ok (lobby, existing), lobbies)
        | None =>
            let playerNumber := (length (players lobby) + 1)%nat in
            let player :=
              Player.mk playerId playerName (Z.of_nat playerNumber)
                (colorAt (playerNumber - 1)) [] [] 0 true false in
            let lobby' :=
              LobbyState.mk (LobbyState.code lobby) (hostId lobby)
                (players lobby ++ [player]) (settings lobby)
                (settingsUnlocked lobby) (chatMessages lobby) in
            (Ok (lobby', player), <[code := lobby']> lobbies)
        end
  end.

End LobbyManager.

(** ** Notions used to state the properties *)

(** A card value: a non-zero 6-bit number. *)
Definition isCard (v : Z) : Prop := 1 <= v <= 63.

Global Instance isCard_dec v : Decision (isCard v).
Proof. unfold isCard. apply _. Defined.

(** A value the 32-bit operators leave alone. *)
Definition small (v : Z) : Prop := 0 <= v < 2 ^ 31.

(** The XOR of all values of a list, on mathematical integers. *)
Definition xorAll (L : list Z) : Z := foldr Z.lxor 0 L.

(** The cards a mask selects: bit [k] of [mask] selects the card at index [k]. *)
Fixpoint pickBits (cards : list Card) (mask : Z) : list Card :=
  match cards with
  | [] => []
  | card :: rest =>
      (if Z.testbit mask 0 then [card] else []) ++ pickBits rest (Z.shiftr mask 1)
  end.

(** How many of the lowest [k] bits of [m] are set. *)
Fixpoint bitsSet (k : nat) (m : Z) : nat :=
  match k with
  | O => O
  | S k' => ((if Z.testbit m 0 then 1 else 0) + bitsSet k' (Z.shiftr m 1))%nat
  end.

(** Some sub-collection of the cards (a subsequence, so no card is taken
    twice) has at least three cards and XORs to 0. *)
Definition validSetIn (cards : list Card) : Prop :=
  exists sub, sublist sub cards /\ (3 <= length sub)%nat /\ xorAll sub = 0.

(** Some configured timer has run out. *)
Definition timerExpired (s : GameState.t) : Prop :=
  (exists t, GameState.gameTimeRemainingMs s = Some t /\ t <= 0)
  \/ (exists t, GameState.turnTimeRemainingMs s = Some t /\ t <= 0).

(** The card instances on the table that a list of ids names, in the order
    of the ids. *)
Definition claimedOf (s : GameState.t) (ids : list CardId) : list CardInstance.t :=
  omap (Game.findCard (GameState.activeCards s)) ids.

(** The cards that stay on the table when the cards named [ids] leave. *)
Definition remainingOf (s : GameState.t) (ids : list CardId) : list CardInstance.t :=
  filter (fun c => CardInstance.id c ∉ ids) (GameState.activeCards s).

(** The conditions under which [claimSet] goes through: the player is in
    the game, every id names a card on the table, and the values of these
    cards form a valid set. *)
Definition claimValid (s : GameState.t) (p : PlayerId) (ids : list CardId) : Prop :=
  is_Some (Game.findPlayer (GameState.players s) p)
  /\ length (claimedOf s ids) = length ids
  /\ Validation.isValidSet (CardInstance.value <$> claimedOf s ids) = true.

(** The deck a valid claim deals from: in infinite mode the claimed cards
    go back first. *)
Definition refill `{!Oracle} (s : GameState.t) (ids : list CardId)
  : M (list CardInstance.t) :=
  if Settings.infiniteDeck (GameState.settings s)
  then Deck.returnCardsToDeck (GameState.deck s) (claimedOf s ids)
  else ret (GameState.deck s).

(** The points of a claim under the scoring mode of the game. *)
Definition pointsFor (s : GameState.t) (claimed : list CardInstance.t) : Z :=
  match default cards (Settings.scoringMode (GameState.settings s)) with
  | cards => Z.of_nat (length claimed)
  | sets => 1
  end.

(** The players after player number [i] of the list claimed [claimed],
    named by [ids], for [pts] points. *)
Definition playersAfterClaim (i : nat) (claimed : list CardInstance.t)
    (ids : list CardId) (pts : Z) (ps : list Player.t) : list Player.t :=
  imap (fun j p =>
          if decide (j = i)
          then Player.mk (Player.id p) (Player.name p) (Player.playerNumber p)
                 (Player.color p) (Player.claimedCards p ++ claimed) []
                 (Player.score p + pts) (Player.isConnected p) (Player.isReady p)
          else Game.withSelection p
                 (filter (fun c => c ∉ ids) (Player.selectedCardIds p))) ps.

(** The size of a player's claimed pile. *)
Definition pile (p : Player.t) : nat := length (Player.claimedCards p).

(** [|deck| + |activeCards| + sum over players of |claimedCards|] *)
Definition totalCards (s : GameState.t) : nat :=
  (length (GameState.deck s) + length (GameState.activeCards s)
   + sum_list (pile <$> GameState.players s))%nat.

(** What the engine conserves: in a finite-deck game the cards of deck,
    table and claimed piles together; in an infinite-deck game, where
    claimed cards also go back to the deck, the cards of deck and table. *)
Definition conserved (s : GameState.t) : Prop :=
  if Settings.infiniteDeck (GameState.settings s)
  then (length (GameState.deck s) + length (GameState.activeCards s))%nat = DECK_SIZE
  else totalCards s = DECK_SIZE.

(** The cards in circulation: deck and table. *)
Definition circulating (s : GameState.t) : list CardInstance.t :=
  GameState.deck s ++ GameState.activeCards s.

(** The ids minted so far. *)
Definition mintedIds `{!Oracle} (w : World.t) : list CardId :=
  idOf <$> seq 0 (World.minted w).

(** A well-formed state: the cards in circulation have pairwise distinct
    ids, all of them minted earlier. *)
Definition wellFormed `{!Oracle} (w : World.t) (s : GameState.t) : Prop :=
  NoDup (CardInstance.id <$> circulating s)
  /\ Forall (fun c => CardInstance.id c ∈ mintedIds w) (circulating s).

(** One transition of the engine on a game; [okClaim] says which lists of
    card ids [claimSet] may be called with. *)
Inductive step `{!Oracle} (okClaim : list CardId -> Prop)
  : GameState.t * World.t -> GameState.t * World.t -> Prop :=
  | step_toggle s w p c :
      step okClaim (s, w) (Game.toggleCardSelection s p c, w)
  | step_claim s w p ids s' pts w' :
      okClaim ids ->
      Game.claimSet s p ids w = ((s', pts), w') ->
      step okClaim (s, w) (s', w')
  | step_clear s w p :
      step okClaim (s, w) (Game.clearSelection s p, w)
  | step_timers s w elapsedMs :
      step okClaim (s, w) (Game.updateTimers s elapsedMs, w)
  | step_end s w reason :
      step okClaim (s, w) (Game.endGame s reason, w)
  | step_clock s w t :
      step okClaim (s, w) (s, World.mk (World.minted w) (World.drawn w) t).

(** The states a game goes through, from its creation. *)
Inductive reachable `{!Oracle} (okClaim : list CardId -> Prop)
  : GameState.t * World.t -> Prop :=
  | reach_single playerId playerName settings w0 s w :
      Game.createSinglePlayerGame playerId playerName settings w0 = (s, w) ->
      reachable okClaim (s, w)
  | reach_multi players settings w0 s w :
      Game.createMultiplayerGame players settings w0 = (s, w) ->
      reachable okClaim (s, w)
  | reach_step x y :
      reachable okClaim x -> step okClaim x y -> reachable okClaim y.

(** The game and world after [p] claims [ids]. *)
Definition claimStep `{!Oracle} (x : GameState.t * World.t) (p : PlayerId)
    (ids : list CardId) : GameState.t * World.t :=
  let r := Game.claimSet x.1 p ids x.2 in (r.1.1, r.2).

(** The claimed pile of the first player named [p]. *)
Definition pileOf (s : GameState.t) (p : PlayerId) : list CardInstance.t :=
  match Game.findPlayer (GameState.players s) p with
  | Some (_, player) => Player.claimedCards player
  | None => []
  end.

(** The selection of the first player named [p]. *)
Definition selectionOf (s : GameState.t) (p : PlayerId) : list CardId :=
  match Game.findPlayer (GameState.players s) p with
  | Some (_, player) => Player.selectedCardIds player
  | None => []
  end.

(** Any list of card ids. *)
Definition anyClaim (ids : list CardId) : Prop := True.

(** ** A concrete oracle and concrete games, for the examples *)

Module Demo.

(** Ids "card_0", "card_1", ...; every random draw is 0. *)
Definition oracle : Oracle :=
  {| idOf := fun k => ("card_" +:+ pretty k)%string; rndOf := fun _ => O |}.

Definition w0 : World.t := World.mk 0 0 1000.

Definition start (settings : Settings.t) : GameState.t * World.t :=
  @Game.createMultiplayerGame oracle
    [Player.mk "A" "Ann" 1 "#3B82F6" [] [] 0 true true;
     Player.mk "B" "Bob" 2 "#EF4444" [] [] 0 true true]
    settings w0.

Definition finiteSettings : Settings.t :=
  Settings.mk true false (Some (TimerConfig.mk 30000)) None immediate false
    (Some cards).

Definition infiniteSettings : Settings.t :=
  Settings.mk true false None None immediate true (Some cards).

Definition finiteGame : GameState.t * World.t := start finiteSettings.
Definition infiniteGame : GameState.t * World.t := start infiniteSettings.

(** Three cards on the first table, of values 1, 63 and 62. *)
Definition claim3 : list CardId := ["card_0"; "card_62"; "card_61"]%string.

(** The same three after the card of value 61, named twice. *)
Definition claim5 : list CardId :=
  ["card_60"; "card_60"; "card_0"; "card_62"; "card_61"]%string.

(** [p] toggles the cards [cs], one after the other. *)
Definition select (p : PlayerId) (cs : list CardId) (s : GameState.t)
  : GameState.t :=
  foldl (fun s c => Game.toggleCardSelection s p c) s cs.

(** The first game after A and B both selected the three cards. *)
Definition raceState : GameState.t :=
  select "B" claim3 (select "A" claim3 finiteGame.1).

(** The table of the game manager's tests. *)
Definition knownCards : list CardInstance.t :=
  [CardInstance.mk "card1" 1; CardInstance.mk "card2" 2;
   CardInstance.mk "card3" 3; CardInstance.mk "card4" 4;
   CardInstance.mk "card5" 8; CardInstance.mk "card6" 16;
   CardInstance.mk "card7" 32].

Definition knownState : GameState.t :=
  GameState.mk playing [] knownCards
    [Player.mk "player1" "Player1" 1 "#3B82F6" [] [] 0 true true;
     Player.mk "player2" "Player2" 2 "#EF4444" [] [] 0 true true]
    (Settings.mk true false None None click false (Some cards))
    None None None (Some 0).

(** player1 selected card1, then card2. *)
Definition selectedState : GameState.t :=
  select "player1" ["card1"; "card2"]%string knownState.

(** A game in click mode whose pending set, held by player1, does not
    form a valid set (1 xor 2 xor 4 = 7). *)
Definition stalePending : PendingSet.t :=
  PendingSet.mk "player1" ["card1"; "card2"; "card4"]%string 0.

Definition pendingGames : gmap string GameInstance.t :=
  {[ "test-confirm"%string := GameInstance.mk knownState (Some stalePending) None ]}.

(** The same game with a pending set that is valid (1 xor 2 xor 3 = 0). *)
Definition validPending : PendingSet.t :=
  PendingSet.mk "player1" ["card1"; "card2"; "card3"]%string 0.

Definition confirmableGames : gmap string GameInstance.t :=
  {[ "test-confirm"%string := GameInstance.mk knownState (Some validPending) None ]}.

Definition fullLobby : LobbyState.t :=
  LobbyState.mk "ABCDEF" "p1"
    ((fun k : nat =>
        Player.mk ("p" +:+ pretty k) ("Player" +:+ pretty k) (Z.of_nat k)
          (LobbyManager.colorAt (k - 1)) [] [] 0 true false) <$> seq 1 8)
    DEFAULT_MULTIPLAYER_SETTINGS false [].

Definition lobbies : gmap string LobbyState.t :=
  {[ "ABCDEF"%string := fullLobby ]}.

End Demo.

(** ** Further notions used to state properties *)

(** The table is full (seven cards), or the deck has run out. *)
Definition tableFilled (s : GameState.t) : Prop :=
  (length (GameState.activeCards s) <= ACTIVE_CARD_COUNT)%nat
  /\ ((length (GameState.activeCards s) < ACTIVE_CARD_COUNT)%nat ->
      GameState.deck s = []).

(** The cards in circulation carry pairwise distinct card values. *)
Definition distinctValues (s : GameState.t) : Prop :=
  NoDup (CardInstance.value <$> circulating s)
  /\ Forall isCard (CardInstance.value <$> circulating s).

(** Every player's selection is free of repeats and names cards that are on
    the table. *)
Definition selectionsOnTable (s : GameState.t) : Prop :=
  Forall (fun p =>
            NoDup (Player.selectedCardIds p)
            /\ forall c, c ∈ Player.selectedCardIds p ->
                         c ∈ CardInstance.id <$> GameState.activeCards s)
    (GameState.players s).

(** The score of the first player named [p]. *)
Definition scoreOf (s : GameState.t) (p : PlayerId) : Z :=
  match Game.findPlayer (GameState.players s) p with
  | Some (_, player) => Player.score player
  | None => 0
  end.

(** ** The rest of the game state engine *)

Module GameRest.
Import GameState.

(** [Math.max(...xs)]; [None] stands for the [-Infinity] that JavaScript
    returns when there is no argument. *)
Definition mathMax (xs : list Z) : option Z :=
  foldl (fun acc x => Some (match acc with
                            | None => x
                            | Some a => Z.max a x
                            end)) None xs.

Definition getWinners (state : GameState.t) : list Player.t :=
  if negb (bool_decide (phase state = ended)) then []
  else
    let maxScore := mathMax (Player.score <$> players state) in
    filter (fun p => Some (Player.score p) = maxScore) (players state).

Definition getPlayer (state : GameState.t) (playerId : PlayerId)
  : option Player.t :=
  snd <$> Game.findPlayer (players state) playerId.

End GameRest.

(** ** The rest of the game manager *)

Module GameManagerRest.

(** [endGame]: stop the loop of the game, then forget the game. *)
Definition endGame (games : gmap string GameInstance.t) (lobbyCode : string)
  : gmap string GameInstance.t :=
  delete lobbyCode (GameManager.stopGameLoop games lobbyCode).

End GameManagerRest.

(** ** Identifiers *)

Module Ids.

(** Upper-case letters and digits without 0, O, I, 1 and L. *)
Definition LOBBY_CODE_CHARS : string := "ABCDEFGHJKMNPQRSTUVWXYZ23456789".

(** [s.charAt(i)]: the character at index [i] as a string, the empty
    string when there is none. *)
Definition charAt (s : string) (i : nat) : string :=
  match String.get i s with
  | Some c => String c EmptyString
  | None => EmptyString
  end.

Section WithOracle.
Context `{!Oracle}.

(** [generateLobbyCode]: [for (i = 0; i < length; i++) code += ...]. *)
Fixpoint generateLobbyCode_loop (n : nat) (code : string) : M string :=
  match n with
  | O => ret code
  | S n' =>
      j <- Deck.randomBelow (String.length LOBBY_CODE_CHARS) ;;
      generateLobbyCode_loop n' (code +:+ charAt LOBBY_CODE_CHARS j)
  end.

Definition generateLobbyCode (length : Z) : M string :=
  generateLobbyCode_loop (Z.to_nat length) EmptyString.

End WithOracle.
End Ids.

(** ** The rest of the lobby manager *)

(** [Partial<MultiplayerSettings>]: every field is present, with a value,
    or absent. *)
Module PartialSettings.
Record t := mk {
  colorsEnabled : option bool;
  binaryMode : option bool;
  turnTimer : option (option TimerConfig.t);
  gameTimer : option (option TimerConfig.t);
  setFoundBehavior : option SetFoundBehavior;
  infiniteDeck : option bool;
  scoringMode : option ScoringMode;
}.
End PartialSettings.

Module LeaveOk.
Record t := mk { lobbyDeleted : bool; newHostId : option PlayerId }.
End LeaveOk.

Module LobbyManagerRest.
Import LobbyState.

(** [{ ...settings, ...patch }] *)
Definition mergeSettings (settings : Settings.t) (patch : PartialSettings.t)
  : Settings.t :=
  Settings.mk
    (default (Settings.colorsEnabled settings) (PartialSettings.colorsEnabled patch))
    (default (Settings.binaryMode settings) (PartialSettings.binaryMode patch))
    (default (Settings.turnTimer settings) (PartialSettings.turnTimer patch))
    (default (Settings.gameTimer settings) (PartialSettings.gameTimer patch))
    (default (Settings.setFoundBehavior settings)
       (PartialSettings.setFoundBehavior patch))
    (default (Settings.infiniteDeck settings) (PartialSettings.infiniteDeck patch))
    (match PartialSettings.scoringMode patch with
     | Some mode => Some mode
     | None => Settings.scoringMode settings
     end).

(** The lobby with its list of players replaced. *)
Definition withLobbyPlayers (lobby : LobbyState.t) (ps : list Player.t)
  : LobbyState.t :=
  LobbyState.mk (LobbyState.code lobby) (hostId lobby) ps (settings lobby)
    (settingsUnlocked lobby) (chatMessages lobby).

Section WithOracle.
Context `{!Oracle}.

(** [do { code = generateLobbyCode() } while (this.lobbies.has(code))],
    for at most [fuel] rounds. *)
Fixpoint createLobby_loop (config : Config.t) (fuel : nat)
    (lobbies : gmap string LobbyState.t) : M (option string) :=
  match fuel with
  | O => ret None
  | S fuel' =>
      code <- Ids.generateLobbyCode (Config.lobbyCodeLength config) ;;
      if bool_decide (is_Some (lobbies !! code))
      then createLobby_loop config fuel' lobbies
      else ret (Some code)
  end.

(** [createLobby]; [None] when the fuel runs out in the loop. *)
Definition createLobby (config : Config.t) (fuel : nat)
    (lobbies : gmap string LobbyState.t) (hostId hostName : string)
  : M (option (LobbyState.t * gmap string LobbyState.t)) :=
  found <- createLobby_loop config fuel lobbies ;;
  match found with
  | None => ret None
  | Some code =>
      let host :=
        Player.mk hostId hostName 1
          (default ""%string (LobbyManager.PLAYER_COLORS !! 0%nat))
          [] [] 0 true false in
      let lobby :=
        LobbyState.mk code hostId [host] DEFAULT_MULTIPLAYER_SETTINGS false [] in
      ret (Some (lobby, <[code := lobby]> lobbies))
  end.

End WithOracle.

(** [lobby.players.forEach((p, i) => { p.playerNumber = i + 1; p.color = ... })] *)
Definition renumber (ps : list Player.t) : list Player.t :=
  imap (fun i p =>
          Player.mk (Player.id p) (Player.name p) (Z.of_nat i + 1)
            (LobbyManager.colorAt i) (Player.claimedCards p)
            (Player.selectedCardIds p) (Player.score p) (Player.isConnected p)
            (Player.isReady p)) ps.

Definition leaveLobby (lobbies : gmap string LobbyState.t)
    (code : string) (playerId : PlayerId)
  : Result LeaveOk.t * gmap string LobbyState.t :=
  match lobbies !! code with
  | None => (Err LOBBY_NOT_FOUND "Lobby not found", lobbies)
  | Some lobby =>
      match list_find (fun p => Player.id p = playerId) (players lobby) with
      | None => (Err INVALID_REQUEST "Player not in lobby", lobbies)
      | Some (playerIndex, _) =>
          let spliced := delete playerIndex (players lobby) in
          if (length spliced =? 0)%nat
          then (Ok (LeaveOk.mk true None), delete code lobbies)
          else
            let players' := renumber spliced in
            if bool_decide (playerId = hostId lobby)
            then
              (* the list is not empty here *)
              let newHostId := default ""%string (Player.id <$> head players') in
              (Ok (LeaveOk.mk false (Some newHostId)),
               <[code := LobbyState.mk (LobbyState.code lobby) newHostId players'
                           (settings lobby) (settingsUnlocked lobby)
                           (chatMessages lobby)]> lobbies)
            else
              (Ok (LeaveOk.mk false None),
               <[code := withLobbyPlayers lobby players']> lobbies)
      end
  end.

Definition updateSettings (lobbies : gmap string LobbyState.t)
    (code : string) (playerId : PlayerId) (patch : PartialSettings.t)
  : Result LobbyState.t * gmap string LobbyState.t :=
  match lobbies !! code with
  | None => (Err LOBBY_NOT_FOUND "Lobby not found", lobbies)
  | Some lobby =>
      if negb (settingsUnlocked lobby) && negb (bool_decide (playerId = hostId lobby))
      then (Err SETTINGS_LOCKED "Only host can change settings", lobbies)
      else
        let lobby' :=
          LobbyState.mk (LobbyState.code lobby) (hostId lobby) (players lobby)
            (mergeSettings (settings lobby) patch) (settingsUnlocked lobby)
            (chatMessages lobby) in
        (Ok lobby', <[code := lobby']> lobbies)
  end.

Definition toggleSettingsLock (lobbies : gmap string LobbyState.t)
    (code : string) (playerId : PlayerId)
  : Result LobbyState.t * gmap string LobbyState.t :=
  match lobbies !! code with
  | None => (Err LOBBY_NOT_FOUND "Lobby not found", lobbies)
  | Some lobby =>
      if negb (bool_decide (playerId = hostId lobby))
      then (Err NOT_HOST "Only host can toggle settings lock", lobbies)
      else
        let lobby' :=
          LobbyState.mk (LobbyState.code lobby) (hostId lobby) (players lobby)
            (settings lobby) (negb (settingsUnlocked lobby))
            (chatMessages lobby) in
        (Ok lobby', <[code := lobby']> lobbies)
  end.

Definition toggleReady (lobbies : gmap string LobbyState.t)
    (code : string) (playerId : PlayerId)
  : Result LobbyState.t * gmap string LobbyState.t :=
  match lobbies !! code with
  | None => (Err LOBBY_NOT_FOUND "Lobby not found", lobbies)
  | Some lobby =>
      match list_find (fun p => Player.id p = playerId) (players lobby) with
      | None => (Err INVALID_REQUEST "Player not in lobby", lobbies)
      | Some (i, player) =>
          let player' :=
            Player.mk (Player.id player) (Player.name player)
              (Player.playerNumber player) (Player.color player)
              (Player.claimedCards player) (Player.selectedCardIds player)
              (Player.score player) (Player.isConnected player)
              (negb (Player.isReady player)) in
          let lobby' := withLobbyPlayers lobby (<[i := player']> (players lobby)) in
          (Ok lobby', <[code := lobby']> lobbies)
      end
  end.

Definition canStartGame (lobbies : gmap string LobbyState.t)
    (code : string) (playerId : PlayerId) : Result unit :=
  match lobbies !! code with
  | None => Err LOBBY_NOT_FOUND "Lobby not found"
  | Some lobby =>
      if negb (bool_decide (playerId = hostId lobby))
      then Err NOT_HOST "Only host can start the game"
      else Ok tt
  end.

(** [push], then [slice(-100)] when there are more than 100 messages. *)
Definition addChatMessage (lobbies : gmap string LobbyState.t)
    (code : string) (message : ChatMessage.t) : gmap string LobbyState.t :=
  match lobbies !! code with
  | None => lobbies
  | Some lobby =>
      let pushed := chatMessages lobby ++ [message] in
      let kept :=
        if (100 <? length pushed)%nat
        then drop (length pushed - 100)%nat pushed
        else pushed in
      <[code := LobbyState.mk (LobbyState.code lobby) (hostId lobby)
                  (players lobby) (settings lobby) (settingsUnlocked lobby)
                  kept]> lobbies
  end.

Definition getLobby (lobbies : gmap string LobbyState.t) (code : string)
  : option LobbyState.t :=
  lobbies !! code.

Definition getPlayer (lobbies : gmap string LobbyState.t) (code : string)
    (playerId : PlayerId) : option Player.t :=
  lobby ← lobbies !! code ;
  snd <$> list_find (fun p => Player.id p = playerId) (players lobby).

Definition deleteLobby (lobbies : gmap string LobbyState.t) (code : string)
  : gmap string LobbyState.t :=
  delete code lobbies.

End LobbyManagerRest.

(** ** Notions used to state the properties of the lobby manager *)

(** What the manager keeps true of a lobby: the players have distinct ids,
    the host is the first of them, they are numbered 1, 2, ... and coloured
    by position, they are no more than the configured maximum, and at most
    100 chat messages are kept. *)
Definition lobbyOk (config : Config.t) (lobby : LobbyState.t) : Prop :=
  NoDup (Player.id <$> LobbyState.players lobby)
  /\ Player.id <$> head (LobbyState.players lobby) = Some (LobbyState.hostId lobby)
  /\ (forall i p, LobbyState.players lobby !! i = Some p ->
                  Player.playerNumber p = Z.of_nat i + 1
                  /\ Player.color p = LobbyManager.colorAt i)
  /\ Z.of_nat (length (LobbyState.players lobby)) <= Config.maxPlayersPerLobby config
  /\ (length (LobbyState.chatMessages lobby) <= 100)%nat.

(** Every lobby of the registry is filed under its own code and is in
    order. *)
Definition registryOk (config : Config.t) (lobbies : gmap string LobbyState.t)
  : Prop :=
  forall code lobby,
    lobbies !! code = Some lobby ->
    LobbyState.code lobby = code /\ lobbyOk config lobby.

(** A call of a method of the lobby manager that changes the registry. *)
Inductive LobbyCall :=
  | callCreate (fuel : nat) (hostId hostName : string)
  | callJoin (code : string) (playerId : PlayerId) (playerName : string)
  | callLeave (code : string) (playerId : PlayerId)
  | callUpdateSettings (code : string) (playerId : PlayerId)
      (patch : PartialSettings.t)
  | callToggleLock (code : string) (playerId : PlayerId)
  | callToggleReady (code : string) (playerId : PlayerId)
  | callChat (code : string) (message : ChatMessage.t)
  | callDelete (code : string).

(** The registry after a call. *)
Definition call `{!Oracle} (config : Config.t) (c : LobbyCall)
    (lobbies : gmap string LobbyState.t) : M (gmap string LobbyState.t) :=
  match c with
  | callCreate fuel hostId hostName =>
      r <- LobbyManagerRest.createLobby config fuel lobbies hostId hostName ;;
      ret (match r with Some (_, lobbies') => lobbies' | None => lobbies end)
  | callJoin code playerId playerName =>
      ret (LobbyManager.joinLobby config lobbies code playerId playerName).2
  | callLeave code playerId =>
      ret (LobbyManagerRest.leaveLobby lobbies code playerId).2
  | callUpdateSettings code playerId patch =>
      ret (LobbyManagerRest.updateSettings lobbies code playerId patch).2
  | callToggleLock code playerId =>
      ret (LobbyManagerRest.toggleSettingsLock lobbies code playerId).2
  | callToggleReady code playerId =>
      ret (LobbyManagerRest.toggleReady lobbies code playerId).2
  | callChat code message =>
      ret (LobbyManagerRest.addChatMessage lobbies code message)
  | callDelete code => ret (LobbyManagerRest.deleteLobby lobbies code)
  end.

(** The registry after a sequence of calls. *)
Fixpoint calls `{!Oracle} (config : Config.t) (cs : list LobbyCall)
    (lobbies : gmap string LobbyState.t) : M (gmap string LobbyState.t) :=
  match cs with
  | [] => ret lobbies
  | c :: cs' => lobbies' <- call config c lobbies ;; calls config cs' lobbies'
  end.

(** ** The rest of set validation *)

Module JSRest.

(** [a | b] *)
Definition or (a b : Z) : Z :=
  JS.toInt32 (Z.lor (JS.toInt32 a) (JS.toInt32 b)).

End JSRest.

Module ValidationRest.
Import Validation.

(** The inner loop of [findAllSets]:
    [for (i = 0; i < n; i++) if (mask & (1 << i)) { subset.push(cards[i]); indices.push(i); }],
    started at index [i] on the cards from that index on. *)
Fixpoint extract (cards : list Card) (i mask : Z) (subset : list Card)
    (indices : list Z) : list Card * list Z :=
  match cards with
  | [] => (subset, indices)
  | card :: rest =>
      if JS.and mask (JS.shl 1 i) =? 0
      then extract rest (i + 1) mask subset indices
      else extract rest (i + 1) mask (subset ++ [card]) (indices ++ [i])
  end.

(** The mask loop of [findAllSets], [for (mask = 7; mask < (1 << n); mask++)],
    with the loop test kept and a fuel that bounds the iterations. *)
Fixpoint findAllSets_loop (fuel : nat) (cards : list Card) (mask : Z)
    (validSets : list (list Z)) : list (list Z) :=
  match fuel with
  | O => validSets
  | S fuel' =>
      if mask <? JS.shl 1 (Z.of_nat (length cards)) then
        if countBits mask <? Z.of_nat MIN_SET_SIZE
        then findAllSets_loop fuel' cards (mask + 1) validSets
        else
          let '(subset, indices) := extract cards 0 mask [] [] in
          if isValidSet subset
          then findAllSets_loop fuel' cards (mask + 1) (validSets ++ [indices])
          else findAllSets_loop fuel' cards (mask + 1) validSets
      else validSets
  end.

Definition findAllSets (cards : list Card) : list (list Z) :=
  let n := length cards in
  findAllSets_loop (Z.to_nat (JS.shl 1 (Z.of_nat n) - 7)) cards 7 [].

(** [for (const idx of requiredIndices) requiredMask |= (1 << idx)] *)
Definition requiredMaskOf (requiredIndices : list Z) : Z :=
  foldl (fun requiredMask idx => JSRest.or requiredMask (JS.shl 1 idx)) 0
    requiredIndices.

(** The inner loop of [findSetContaining]:
    [if (mask & (1 << i)) { xorResult ^= cards[i]; indices.push(i); }]. *)
Fixpoint xorIndices (cards : list Card) (i mask xorResult : Z)
    (indices : list Z) : Z * list Z :=
  match cards with
  | [] => (xorResult, indices)
  | card :: rest =>
      if JS.and mask (JS.shl 1 i) =? 0
      then xorIndices rest (i + 1) mask xorResult indices
      else xorIndices rest (i + 1) mask (JS.xor xorResult card) (indices ++ [i])
  end.

(** [for (mask = requiredMask; mask < (1 << n); mask++)] for one size. *)
Fixpoint findSetContaining_masks (fuel : nat) (cards : list Card)
    (requiredMask size mask : Z) : option (list Z) :=
  match fuel with
  | O => None
  | S fuel' =>
      if mask <? JS.shl 1 (Z.of_nat (length cards)) then
        if negb (JS.and mask requiredMask =? requiredMask)
        then findSetContaining_masks fuel' cards requiredMask size (mask + 1)
        else if negb (countBits mask =? size)
        then findSetContaining_masks fuel' cards requiredMask size (mask + 1)
        else
          let '(xorResult, indices) := xorIndices cards 0 mask 0 [] in
          if xorResult =? 0 then Some indices
          else findSetContaining_masks fuel' cards requiredMask size (mask + 1)
      else None
  end.

(** [for (size = Math.max(MIN_SET_SIZE, requiredCount); size <= n; size++)] *)
Fixpoint findSetContaining_sizes (fuel : nat) (cards : list Card)
    (requiredMask size : Z) : option (list Z) :=
  match fuel with
  | O => None
  | S fuel' =>
      if size <=? Z.of_nat (length cards) then
        match findSetContaining_masks
                (Z.to_nat (JS.shl 1 (Z.of_nat (length cards)) - requiredMask))
                cards requiredMask size requiredMask with
        | Some indices => Some indices
        | None => findSetContaining_sizes fuel' cards requiredMask (size + 1)
        end
      else None
  end.

Definition findSetContaining (cards : list Card) (requiredIndices : list Z)
  : option (list Z) :=
  let n := length cards in
  let requiredMask := requiredMaskOf requiredIndices in
  let requiredCount := length requiredIndices in
  findSetContaining_sizes (S n) cards requiredMask
    (Z.max (Z.of_nat MIN_SET_SIZE) (Z.of_nat requiredCount)).

End ValidationRest.

(** The cards at the given indices. *)
Definition cardsAt (cards : list Card) (indices : list Z) : list Card :=
  omap (fun i => if 0 <=? i then cards !! Z.to_nat i else None) indices.

(** A mask that selects a valid set of the cards. *)
Definition goodMask (cards : list Card) (m : Z) : Prop :=
  (3 <= length (pickBits cards m))%nat /\ xorAll (pickBits cards m) = 0.

Global Instance goodMask_dec cards m : Decision (goodMask cards m).
Proof. unfold goodMask. apply _. Defined.

(** ** The rest of the deck service *)

Module DeckRest.

(** [getCardDots]: [for (i = 0; i < 6; i++) dots.push((value & (1 << i)) !== 0)]. *)
Fixpoint getCardDots_loop (n : nat) (i : Z) (value : Card) (dots : list bool)
  : list bool :=
  match n with
  | O => dots
  | S n' =>
      getCardDots_loop n' (i + 1) value
        (dots ++ [negb (JS.and value (JS.shl 1 i) =? 0)])
  end.

Definition getCardDots (value : Card) : list bool :=
  getCardDots_loop 6 0 value [].

(** The digits of [p.toString(2)]. *)
Fixpoint binaryDigits (p : positive) : string :=
  match p with
  | xH => "1"
  | xO p' => binaryDigits p' +:+ "0"
  | xI p' => binaryDigits p' +:+ "1"
  end.

(** [value.toString(2)] on an integer. *)
Definition toString2 (value : Z) : string :=
  match value with
  | Z0 => "0"
  | Zpos p => binaryDigits p
  | Zneg p => "-" +:+ binaryDigits p
  end.

(** [count] copies of the string [s]. *)
Fixpoint repeatString (count : nat) (s : string) : string :=
  match count with
  | O => EmptyString
  | S count' => s +:+ repeatString count' s
  end.

(** [s.padStart(targetLength, padString)]: the filler is [padString]
    repeated and cut to the missing length. *)
Definition padStart (s : string) (targetLength : nat) (padString : string)
  : string :=
  let missing := (targetLength - String.length s)%nat in
  if (missing =? 0)%nat || (String.length padString =? 0)%nat then s
  else String.substring 0 missing (repeatString missing padString) +:+ s.

Definition getCardBinary (value : Card) : string :=
  padStart (toString2 value) 6 "0".

End DeckRest.

(** The number a list of dots stands for, lowest bit first. *)
Fixpoint dotsValue (dots : list bool) : Z :=
  match dots with
  | [] => 0
  | dot :: rest => Z.b2z dot + 2 * dotsValue rest
  end.

(** The dots written as binary digits, in the order of the list. *)
Fixpoint dotsDigits (dots : list bool) : string :=
  match dots with
  | [] => EmptyString
  | dot :: rest => (if dot then "1" else "0") +:+ dotsDigits rest
  end.

(** A mask that selects a valid set of [size] cards, with every card the
    mask [requiredMask] selects among them. *)
Definition validAt (cards : list Card) (requiredMask size m : Z) : Prop :=
  Z.land m requiredMask = requiredMask
  /\ Z.of_nat (length (pickBits cards m)) = size
  /\ xorAll (pickBits cards m) = 0.

(** A valid set of the cards, given by its indices in increasing order,
    that contains the required indices. *)
Definition setContaining (cards : list Card) (requiredIndices indices : list Z)
  : Prop :=
  sublist indices (seqZ 0 (Z.of_nat (length cards)))
  /\ requiredIndices ⊆ indices
  /\ (3 <= length indices)%nat
  /\ xorAll (cardsAt cards indices) = 0.

(** What the two display functions give for a value: the dots are the six
    lowest bits, they give back the value, and the binary string has the
    six digits of the dots, highest first. *)
Definition displayOk (v : Z) : Prop :=
  DeckRest.getCardDots v = Z.testbit v <$> seqZ 0 6
  /\ dotsValue (DeckRest.getCardDots v) = v
  /\ DeckRest.getCardBinary v = dotsDigits (reverse (DeckRest.getCardDots v))
  /\ String.length (DeckRest.getCardBinary v) = 6%nat.

Global Instance displayOk_dec v : Decision (displayOk v).
Proof. unfold displayOk. apply _. Defined.

(** ** Socket handlers of the game *)

(** The events the server sends that the game handlers use. *)
Module ServerEvent.
Inductive t :=
  | error (code : ErrorCode) (message : string)
  | selectionChanged (playerId : PlayerId) (selectedCardIds : list CardId)
  | setClaimed (playerId : PlayerId) (cardIds : list CardId) (pointsAwarded : Z)
  | cardsDealt (cards : list CardInstance.t)
  | setPending (playerId : PlayerId) (cardIds : list CardId)
  | gameEnded (reason : GameEndReason) (finalState : GameState.t).
End ServerEvent.

(** [socket.emit(..)] reaches the socket of the request,
    [io.to(lobbyCode).emit(..)] every socket of the room. *)
Inductive Emit :=
  | toSocket (event : ServerEvent.t)
  | toRoom (lobbyCode : string) (event : ServerEvent.t).

Module GameHandlers.
Section WithOracle.
Context `{!Oracle}.

(** What both claiming handlers send after an accepted claim:
    'game:setClaimed', 'game:cardsDealt' when cards were dealt, and
    'game:ended' when the claim ended the game. *)
Definition claimEvents (games : gmap string GameInstance.t)
    (lobbyCode : string) (playerId : PlayerId) (cardIds : list CardId)
    (result : ClaimOk.t) : list Emit :=
  [toRoom lobbyCode
     (ServerEvent.setClaimed playerId cardIds (ClaimOk.pointsAwarded result))]
  ++ (if (0 <? length (ClaimOk.newCards result))%nat
      then [toRoom lobbyCode (ServerEvent.cardsDealt (ClaimOk.newCards result))]
      else [])
  ++ (if ClaimOk.gameEnded result
      then
        match GameManager.getGameState games lobbyCode with
        | Some finalState =>
            [toRoom lobbyCode
               (ServerEvent.gameEnded
                  (default deck_empty (GameState.endReason finalState))
                  finalState)]
        | None => []
        end
      else []).

(** [handleValidSet] *)
Definition handleValidSet (games : gmap string GameInstance.t)
    (lobbyCode : string) (playerId : PlayerId) (cardIds : list CardId)
  : M (list Emit * gmap string GameInstance.t) :=
  match GameManager.getGameState games lobbyCode with
  | None => ret ([], games)
  | Some gameState =>
      match Settings.setFoundBehavior (GameState.settings gameState) with
      | immediate =>
          r <- GameManager.claimSet games lobbyCode playerId cardIds ;;
          let '(result, games') := r in
          match result with
          | Err _ _ => ret ([], games')
          | Ok ok =>
              ret (claimEvents games' lobbyCode playerId cardIds ok, games')
          end
      | click =>
          games' <- GameManager.setPendingSet games lobbyCode playerId cardIds ;;
          ret ([toRoom lobbyCode (ServerEvent.setPending playerId cardIds)],
               games')
      end
  end.

(** The handlers start with [if (!lobbyCode) return]: a lobby code that
    is undefined or the empty string ends the handler. *)
Definition present (lobbyCode : option string) : option string :=
  match lobbyCode with
  | Some code => if bool_decide (code = EmptyString) then None else Some code
  | None => None
  end.

(** The handler of 'game:toggleCard'; [lobbyCode] is [socket.data.lobbyCode]. *)
Definition onToggleCard (games : gmap string GameInstance.t)
    (lobbyCode : option string) (playerId : PlayerId) (cardId : CardId)
  : M (list Emit * gmap string GameInstance.t) :=
  match present lobbyCode with
  | None => ret ([], games)
  | Some lobbyCode =>
      let '(result, games') :=
        GameManager.toggleCard games lobbyCode playerId cardId in
      match result with
      | Err code message =>
          ret ([toSocket (ServerEvent.error code message)], games')
      | Ok toggled =>
          let announce :=
            toRoom lobbyCode
              (ServerEvent.selectionChanged playerId
                 (ToggleOk.selectedCardIds toggled)) in
          if ToggleOk.validSetFormed toggled
          then
            r <- handleValidSet games' lobbyCode playerId
                   (ToggleOk.selectedCardIds toggled) ;;
            ret (announce :: r.1, r.2)
          else ret ([announce], games')
      end
  end.

(** The handler of 'game:confirmSet'. *)
Definition onConfirmSet (games : gmap string GameInstance.t)
    (lobbyCode : option string) (playerId : PlayerId)
  : M (list Emit * gmap string GameInstance.t) :=
  match present lobbyCode with
  | None => ret ([], games)
  | Some lobbyCode =>
      r <- GameManager.confirmSet games lobbyCode playerId ;;
      let '(result, games') := r in
      match result with
      | Err code message =>
          ret ([toSocket (ServerEvent.error code message)], games')
      | Ok ok =>
          ret (claimEvents games' lobbyCode playerId
                 (ClaimOk.claimedCardIds ok) ok, games')
      end
  end.

(** The handler of 'game:clearSelection'. *)
Definition onClearSelection (games : gmap string GameInstance.t)
    (lobbyCode : option string) (playerId : PlayerId)
  : list Emit * gmap string GameInstance.t :=
  match present lobbyCode with
  | None => ([], games)
  | Some lobbyCode =>
      let '(result, games') :=
        GameManager.clearSelection games lobbyCode playerId in
      match result with
      | Err _ _ => ([], games')
      | Ok _ =>
          ([toRoom lobbyCode (ServerEvent.selectionChanged playerId [])],
           games')
      end
  end.

End WithOracle.
End GameHandlers.

(** The lobby code that [length] successive random draws spell, from draw
    number [drawn] on: character number [j] of the code is character
    number [rndOf (drawn + j) mod 31] of the 31 characters of lobby codes. *)
Definition codeDrawn `{!Oracle} (length drawn : nat) : string :=
  String.string_of_list_ascii
    (omap (fun j =>
             String.list_ascii_of_string "ABCDEFGHJKMNPQRSTUVWXYZ23456789"
               !! (rndOf (drawn + j) mod 31)%nat)
       (seq 0 length)).

(** A second oracle for the examples: the [k]-th random draw is [k]. *)
Module Counting.

Definition oracle : Oracle :=
  {| idOf := fun k => ("card_" +:+ pretty k)%string; rndOf := fun k => k |}.

End Counting.

(** ** Facts on the 32-bit operators *)

Section JSFacts.

Lemma toInt32_small x : - 2 ^ 31 <= x < 2 ^ 31 -> JS.toInt32 x = x.
Proof. intros Hx. unfold JS.toInt32. rewrite Z.mod_small; lia. Qed.

Lemma lxor_bounded k a b :
  0 <= k -> 0 <= a < 2 ^ k -> 0 <= b < 2 ^ k -> 0 <= Z.lxor a b < 2 ^ k.
Proof.
  intros Hk Ha Hb.
  rewrite !Z.bounded_iff_bits_nonneg' in * by (try apply Z.lxor_nonneg; lia).
  intros l Hl. rewrite Z.lxor_spec, Ha, Hb; done.
Qed.

Lemma land_bounded k a b :
  0 <= k -> 0 <= a < 2 ^ k -> 0 <= b -> 0 <= Z.land a b < 2 ^ k.
Proof.
  intros Hk Ha Hb.
  rewrite !Z.bounded_iff_bits_nonneg' in * by (try apply Z.land_nonneg; lia).
  intros l Hl. rewrite Z.land_spec, Ha; done.
Qed.

Lemma xor_small a b :
  0 <= a < 2 ^ 31 -> 0 <= b < 2 ^ 31 -> JS.xor a b = Z.lxor a b.
Proof.
  intros Ha Hb. unfold JS.xor.
  pose proof (lxor_bounded 31 a b ltac:(lia) Ha Hb).
  rewrite (toInt32_small a), (toInt32_small b) by lia.
  apply toInt32_small. lia.
Qed.

Lemma and_small a b :
  0 <= a < 2 ^ 31 -> 0 <= b < 2 ^ 31 -> JS.and a b = Z.land a b.
Proof.
  intros Ha Hb. unfold JS.and.
  pose proof (land_bounded 31 a b ltac:(lia) Ha ltac:(lia)).
  rewrite (toInt32_small a), (toInt32_small b) by lia.
  apply toInt32_small. lia.
Qed.

Lemma shl_one i : 0 <= i < 31 -> JS.shl 1 i = 2 ^ i.
Proof.
  intros Hi. unfold JS.shl.
  rewrite (toInt32_small 1) by lia.
  rewrite (Z.mod_small i 32) by lia.
  rewrite Z.shiftl_1_l.
  assert (2 ^ i < 2 ^ 31) by (apply Z.pow_lt_mono_r; lia).
  assert (0 < 2 ^ i) by (apply Z.pow_pos_nonneg; lia).
  apply toInt32_small. lia.
Qed.

Lemma ushr_one n : 0 <= n < 2 ^ 31 -> JS.ushr n 1 = Z.shiftr n 1.
Proof.
  intros Hn. unfold JS.ushr, JS.toUint32.
  rewrite (Z.mod_small n) by lia. done.
Qed.

Lemma land_pow2 m i :
  0 <= i -> Z.land m (2 ^ i) = if Z.testbit m i then 2 ^ i else 0.
Proof.
  intros Hi. apply Z.bits_inj'. intros k Hk.
  rewrite Z.land_spec, Z.pow2_bits_eqb by done.
  destruct (Z.eqb_spec i k) as [->|Hne].
  - destruct (Z.testbit m k); [by rewrite Z.pow2_bits_true | by rewrite Z.bits_0].
  - rewrite andb_false_r.
    destruct (Z.testbit m i); [by rewrite Z.pow2_bits_false | by rewrite Z.bits_0].
Qed.

(** The test [mask & (1 << i)] reads bit [i] of the mask. *)
Lemma and_shl_test mask i :
  0 <= mask < 2 ^ 31 -> 0 <= i < 31 ->
  (JS.and mask (JS.shl 1 i) =? 0) = negb (Z.testbit mask i).
Proof.
  intros Hm Hi. rewrite shl_one by done.
  assert (0 < 2 ^ i < 2 ^ 31).
  { split; [apply Z.pow_pos_nonneg; lia | apply Z.pow_lt_mono_r; lia]. }
  rewrite and_small by lia. rewrite land_pow2 by lia.
  destruct (Z.testbit mask i); simpl; [apply Z.eqb_neq; lia | done].
Qed.

Lemma and_one n : 0 <= n < 2 ^ 31 -> JS.and n 1 = Z.b2z (Z.testbit n 0).
Proof.
  intros Hn. rewrite and_small by lia.
  change 1 with (2 ^ 0) at 1. rewrite land_pow2 by lia.
  by destruct (Z.testbit n 0).
Qed.

Lemma shiftr_one_bounded n k :
  0 <= k -> 0 <= n < 2 ^ (k + 1) -> 0 <= Z.shiftr n 1 < 2 ^ k.
Proof.
  intros Hk Hn. rewrite Z.shiftr_div_pow2 by lia.
  rewrite Z.pow_add_r in Hn by lia. change (2 ^ 1) with 2 in *.
  split; [apply Z.div_pos; lia | apply Z.div_lt_upper_bound; lia].
Qed.

End JSFacts.

(** ** Facts on XOR-reduction *)

Section XorFacts.

Lemma isCard_small v : isCard v -> small v.
Proof. unfold isCard, small. lia. Qed.

Lemma Forall_isCard_small L : Forall isCard L -> Forall small L.
Proof. intros HL. eapply Forall_impl; [exact HL | apply isCard_small]. Qed.

Lemma xorAll_cons v L : xorAll (v :: L) = Z.lxor v (xorAll L).
Proof. reflexivity. Qed.

Lemma xorAll_bounded k L :
  0 <= k -> Forall (fun v => 0 <= v < 2 ^ k) L -> 0 <= xorAll L < 2 ^ k.
Proof.
  intros Hk. induction 1 as [|v L Hv _ IH].
  - split; [done | apply Z.pow_pos_nonneg; lia].
  - rewrite xorAll_cons. by apply lxor_bounded.
Qed.

Lemma xorAll_app L1 L2 : xorAll (L1 ++ L2) = Z.lxor (xorAll L1) (xorAll L2).
Proof.
  induction L1 as [|v L1 IH]; [by rewrite Z.lxor_0_l |].
  by rewrite <- app_comm_cons, !xorAll_cons, IH, Z.lxor_assoc.
Qed.

Lemma xorAll_perm L L' : L ≡ₚ L' -> xorAll L = xorAll L'.
Proof.
  induction 1 as [| x l l' _ IH | x y l | l l' l'' _ IH1 _ IH2].
  - done.
  - by rewrite !xorAll_cons, IH.
  - rewrite !xorAll_cons, <- !Z.lxor_assoc. f_equal. apply Z.lxor_comm.
  - congruence.
Qed.

(** The reduction of [isValidSet] computes the mathematical XOR. *)
Lemma foldl_xor L acc :
  Forall small L -> small acc ->
  foldl (fun a card => JS.xor a card) acc L = Z.lxor acc (xorAll L).
Proof.
  intros HL. revert acc.
  induction HL as [|v L Hv HL IH]; intros acc Hacc.
  - apply eq_sym, Z.lxor_0_r.
  - rewrite xorAll_cons. cbn [foldl]. rewrite xor_small by done.
    rewrite IH by (apply lxor_bounded; [lia | done..]).
    by rewrite Z.lxor_assoc.
Qed.

Lemma isValidSet_spec L :
  Forall small L ->
  Validation.isValidSet L = true <-> (3 <= length L)%nat /\ xorAll L = 0.
Proof.
  intros HL. unfold Validation.isValidSet, Validation.MIN_SET_SIZE.
  destruct (length L <? 3)%nat eqn:E.
  - apply Nat.ltb_lt in E. split; [intros ?; discriminate | lia].
  - apply Nat.ltb_ge in E. rewrite foldl_xor by (done || (unfold small; lia)).
    rewrite Z.lxor_0_l, Z.eqb_eq. split; [intros ?; split; [lia | done] | tauto].
Qed.

End XorFacts.

(** ** The validity law *)

(** C2. For every list [L] of card values, [isValidSet L] holds exactly
    when [L] has at least three values and their XOR is 0; the answer is
    the same for every permutation of [L]; and a value that occurs twice
    cancels: with a pair [v, v] added, the list is valid exactly when the
    rest is non-empty and XORs to 0. *)
Theorem isValidSet_validity_law (L : list Card) :
  Forall isCard L ->
  (Validation.isValidSet L = true <-> (3 <= length L)%nat /\ xorAll L = 0)
  /\ (forall L', L ≡ₚ L' -> Validation.isValidSet L' = Validation.isValidSet L)
  /\ (forall v, isCard v ->
        Validation.isValidSet (v :: v :: L) = true
        <-> (1 <= length L)%nat /\ xorAll L = 0).
Proof.
  intros HL. pose proof (Forall_isCard_small L HL) as Hs.
  split; [by apply isValidSet_spec |]. split.
  - intros L' HP.
    assert (Forall small L') as Hs' by (by rewrite <- HP).
    apply eq_true_iff_eq.
    rewrite !isValidSet_spec by done.
    by rewrite (Permutation_length HP), (xorAll_perm _ _ HP).
  - intros v Hv.
    assert (Forall small (v :: v :: L)) as Hvv.
    { do 2 (apply Forall_cons_2; [by apply isCard_small |]). done. }
    rewrite isValidSet_spec by done.
    rewrite !xorAll_cons, <- Z.lxor_assoc, Z.lxor_nilpotent, Z.lxor_0_l.
    cbn [length].
    split; intros [? ?]; (split; [lia | done]).
Qed.

Lemma isValidSet_validity_law_witness :
  Validation.isValidSet [5; 5; 3; 3; 17; 20] = true
  <-> (1 <= length [3; 3; 17; 20])%nat /\ xorAll [3; 3; 17; 20] = 0.
Proof.
  refine (proj2 (proj2 (isValidSet_validity_law [3; 3; 17; 20] _)) 5 _).
  - repeat constructor; unfold isCard; lia.
  - unfold isCard; lia.
Defined.

(** ** Masks, selected cards and bit counts *)

Section MaskFacts.

Lemma mask_split m : m = 2 * Z.shiftr m 1 + Z.b2z (Z.testbit m 0).
Proof. rewrite <- Z.div2_spec, Z.bit0_odd. apply Z.div2_odd. Qed.

Lemma pickBits_cons c cards m :
  pickBits (c :: cards) m
  = (if Z.testbit m 0 then [c] else []) ++ pickBits cards (Z.shiftr m 1).
Proof. reflexivity. Qed.

Lemma bitsSet_succ k m :
  bitsSet (S k) m
  = ((if Z.testbit m 0 then 1 else 0) + bitsSet k (Z.shiftr m 1))%nat.
Proof. reflexivity. Qed.

Lemma pickBits_sublist cards m : sublist (pickBits cards m) cards.
Proof.
  revert m. induction cards as [|c cards IH]; intros m.
  - constructor.
  - rewrite pickBits_cons.
    destruct (Z.testbit m 0); cbn [app]; constructor; apply IH.
Qed.

Lemma pickBits_length cards m :
  length (pickBits cards m) = bitsSet (length cards) m.
Proof.
  revert m. induction cards as [|c cards IH]; intros m; [done |].
  rewrite pickBits_cons, length_cons, bitsSet_succ, length_app, IH.
  by destruct (Z.testbit m 0).
Qed.

Lemma pickBits_lxor cards m1 m2 :
  xorAll (pickBits cards (Z.lxor m1 m2))
  = Z.lxor (xorAll (pickBits cards m1)) (xorAll (pickBits cards m2)).
Proof.
  revert m1 m2. induction cards as [|c cards IH]; intros m1 m2; [done |].
  rewrite !pickBits_cons, !xorAll_app, Z.shiftr_lxor, IH, Z.lxor_spec.
  set (x1 := xorAll (pickBits cards (Z.shiftr m1 1))).
  set (x2 := xorAll (pickBits cards (Z.shiftr m2 1))).
  destruct (Z.testbit m1 0), (Z.testbit m2 0); cbn [xorb xorAll foldr];
    rewrite ?Z.lxor_0_r, ?Z.lxor_0_l; try done.
  - rewrite (Z.lxor_assoc c x1), <- (Z.lxor_assoc x1 c), (Z.lxor_comm x1 c).
    rewrite (Z.lxor_assoc c x1 x2), <- (Z.lxor_assoc c c).
    by rewrite Z.lxor_nilpotent, Z.lxor_0_l.
  - by rewrite Z.lxor_assoc.
  - rewrite <- (Z.lxor_assoc x1 c), (Z.lxor_comm x1 c). by rewrite Z.lxor_assoc.
Qed.

(** Every sub-collection is selected by some mask. *)
Lemma sublist_pickBits sub cards :
  sublist sub cards ->
  exists m, 0 <= m < 2 ^ Z.of_nat (length cards) /\ pickBits cards m = sub.
Proof.
  induction 1 as [| x l1 l2 _ (m & Hm & IH) | x l1 l2 _ (m & Hm & IH)].
  - exists 0. split; [simpl; lia | done].
  - exists (2 * m + 1). split.
    + rewrite length_cons, Nat2Z.inj_succ, Z.pow_succ_r by lia. lia.
    + rewrite pickBits_cons, Z.testbit_odd_0.
      rewrite Z.shiftr_div_pow2 by lia. change (2 ^ 1) with 2.
      replace ((2 * m + 1) `div` 2) with m
        by (apply Z.div_unique with 1; lia).
      by rewrite IH.
  - exists (2 * m). split.
    + rewrite length_cons, Nat2Z.inj_succ, Z.pow_succ_r by lia. lia.
    + rewrite pickBits_cons, Z.testbit_even_0.
      rewrite Z.shiftr_div_pow2 by lia. change (2 ^ 1) with 2.
      replace ((2 * m) `div` 2) with m
        by (apply Z.div_unique with 0; lia).
      by rewrite IH.
Qed.

Lemma bitsSet_zero k : bitsSet k 0 = O.
Proof.
  induction k as [|k IH]; [done |].
  by rewrite bitsSet_succ, Z.shiftr_0_l, IH, Z.bits_0.
Qed.

Lemma bitsSet_le k m : (bitsSet k m <= k)%nat.
Proof.
  revert m. induction k as [|k IH]; intros m; [done |].
  rewrite bitsSet_succ.
  specialize (IH (Z.shiftr m 1)). destruct (Z.testbit m 0); lia.
Qed.

(** Bits above the size of the mask do not count. *)
Lemma bitsSet_above k j m :
  0 <= m < 2 ^ Z.of_nat k -> (k <= j)%nat -> bitsSet j m = bitsSet k m.
Proof.
  revert j m. induction k as [|k IH]; intros j m Hm Hj.
  - assert (m = 0) as -> by (simpl in Hm; lia). by rewrite !bitsSet_zero.
  - destruct j as [|j]; [lia |]. rewrite !bitsSet_succ. f_equal. apply IH; [| lia].
    apply shiftr_one_bounded; [lia |].
    by replace (Z.of_nat k + 1) with (Z.of_nat (S k)) by lia.
Qed.

Lemma bitsSet_none k m :
  0 <= m < 2 ^ Z.of_nat k -> bitsSet k m = O -> m = 0.
Proof.
  revert m. induction k as [|k IH]; intros m Hm Hb.
  - simpl in Hm. lia.
  - rewrite bitsSet_succ in Hb. pose proof (mask_split m) as Hs.
    destruct (Z.testbit m 0); [lia |].
    rewrite (IH (Z.shiftr m 1)) in Hs; [simpl in Hs; lia | | lia].
    apply shiftr_one_bounded; [lia |]. by replace (Z.of_nat k + 1) with (Z.of_nat (S k)) by lia.
Qed.

(** A mask that selects three cards is at least 7. *)
Lemma three_bits_ge_7 k m : 0 <= m -> (3 <= bitsSet k m)%nat -> 7 <= m.
Proof.
  intros Hm Hb. destruct (Z.le_gt_cases 7 m) as [|Hlt]; [done | exfalso].
  destruct (Nat.le_gt_cases 3 k) as [Hk|Hk].
  - rewrite (bitsSet_above 3 k m) in Hb by (simpl; lia).
    assert (m = 0 \/ m = 1 \/ m = 2 \/ m = 3 \/ m = 4 \/ m = 5 \/ m = 6)
      as Hcases by lia.
    repeat (destruct Hcases as [-> | Hcases]); try subst m;
      vm_compute in Hb; lia.
  - pose proof (bitsSet_le k m). lia.
Qed.

(** [countBits] counts the set bits. *)
Lemma countBits_loop_spec fuel m acc :
  0 <= m < 2 ^ 31 ->
  Validation.countBits_loop fuel m acc = acc + Z.of_nat (bitsSet fuel m).
Proof.
  revert m acc. induction fuel as [|fuel IH]; intros m acc Hm;
    [simpl; lia |].
  cbn [Validation.countBits_loop]. rewrite bitsSet_succ.
  destruct (Z.eqb_spec m 0) as [->|Hne].
  - rewrite Z.shiftr_0_l, bitsSet_zero, Z.bits_0. lia.
  - rewrite ushr_one, and_one by done.
    rewrite IH by (pose proof (shiftr_one_bounded m 30 ltac:(lia) ltac:(simpl; lia)); lia).
    destruct (Z.testbit m 0); simpl Z.b2z; lia.
Qed.

Lemma countBits_spec k m :
  (k <= 31)%nat -> 0 <= m < 2 ^ Z.of_nat k ->
  Validation.countBits m = Z.of_nat (bitsSet k m).
Proof.
  intros Hk Hm. unfold Validation.countBits.
  assert (2 ^ Z.of_nat k <= 2 ^ 31) by (apply Z.pow_le_mono_r; lia).
  rewrite countBits_loop_spec by lia.
  by rewrite (bitsSet_above k 33 m) by (done || lia).
Qed.

(** The inner loop XORs the cards the mask selects. *)
Lemma xorSubset_spec cards i mask acc :
  Forall small cards -> 0 <= mask < 2 ^ 31 ->
  0 <= i -> i + Z.of_nat (length cards) <= 31 -> small acc ->
  Validation.xorSubset cards i mask acc
  = Z.lxor acc (xorAll (pickBits cards (Z.shiftr mask i))).
Proof.
  intros Hc Hm. revert i acc.
  induction Hc as [|c cards Hc Hcs IH]; intros i acc Hi Hlen Hacc.
  - simpl. by rewrite Z.lxor_0_r.
  - rewrite length_cons, Nat2Z.inj_succ in Hlen.
    cbn [Validation.xorSubset pickBits].
    rewrite and_shl_test by lia.
    rewrite Z.shiftr_spec, Z.add_0_l by lia.
    rewrite Z.shiftr_shiftr by lia.
    rewrite xorAll_app.
    destruct (Z.testbit mask i); cbn [negb].
    + rewrite IH; [| lia | lia |].
      * rewrite xor_small by done. cbn [xorAll foldr].
        by rewrite Z.lxor_0_r, Z.lxor_assoc.
      * rewrite xor_small by done. apply lxor_bounded; [lia | done..].
    + rewrite IH by (done || lia). cbn [xorAll foldr].
      by rewrite Z.lxor_0_l.
Qed.

End MaskFacts.

(** ** What [hasValidSet] decides *)

Section HasValidSet.

(** The mask loop answers true exactly when one of the masks it visits
    selects at least three cards that XOR to 0. *)
Lemma hasValidSet_loop_true fuel cards start :
  Validation.hasValidSet_loop fuel cards start = true
  <-> exists m, start <= m < start + Z.of_nat fuel
        /\ m < JS.shl 1 (Z.of_nat (length cards))
        /\ 3 <= Validation.countBits m
        /\ Validation.xorSubset cards 0 m 0 = 0.
Proof.
  revert start. induction fuel as [|fuel IH]; intros start.
  - simpl. split; [done | intros (m & ? & _); lia].
  - cbn [Validation.hasValidSet_loop]. unfold Validation.MIN_SET_SIZE.
    change (Z.of_nat 3) with 3.
    destruct (Z.ltb_spec start (JS.shl 1 (Z.of_nat (length cards)))) as [Hlt|Hge].
    + destruct (Z.ltb_spec (Validation.countBits start) 3) as [Hc|Hc];
        [| destruct (Z.eqb_spec (Validation.xorSubset cards 0 start 0) 0) as [Hx|Hx]].
      * rewrite IH. split; intros (m & Hm & Hb & Hcm & Hxm).
        -- exists m. repeat split; (done || lia).
        -- assert (m <> start) by (intros ->; lia).
           exists m. repeat split; (done || lia).
      * split; [intros _ | done]. exists start. repeat split; (done || lia).
      * rewrite IH. split; intros (m & Hm & Hb & Hcm & Hxm).
        -- exists m. repeat split; (done || lia).
        -- assert (m <> start) by (intros ->; done).
           exists m. repeat split; (done || lia).
    + split; [done | intros (m & ? & ? & _); lia].
Qed.

Lemma hasValidSet_masks cards :
  Forall small cards -> (length cards <= 30)%nat ->
  Validation.hasValidSet cards = true
  <-> exists m, 0 <= m < 2 ^ Z.of_nat (length cards)
        /\ (3 <= length (pickBits cards m))%nat
        /\ xorAll (pickBits cards m) = 0.
Proof.
  intros Hc Hn. unfold Validation.hasValidSet, Validation.MIN_SET_SIZE.
  set (n := length cards) in *.
  assert (2 ^ Z.of_nat n <= 2 ^ 30) as Hpow by (apply Z.pow_le_mono_r; lia).
  assert (forall m, 0 <= m < 2 ^ Z.of_nat n ->
            Validation.countBits m = Z.of_nat (length (pickBits cards m))
            /\ Validation.xorSubset cards 0 m 0 = xorAll (pickBits cards m))
    as Hsem.
  { intros m Hm. split.
    - rewrite pickBits_length. apply countBits_spec; [lia | done].
    - rewrite xorSubset_spec by (done || (unfold small; lia) || (fold n; lia)).
      by rewrite Z.shiftr_0_r, Z.lxor_0_l. }
  destruct (n <? 3)%nat eqn:E.
  - apply Nat.ltb_lt in E. split; [done |].
    intros (m & _ & Hlen & _).
    pose proof (sublist_length _ _ (pickBits_sublist cards m)). fold n in H. lia.
  - apply Nat.ltb_ge in E.
    rewrite hasValidSet_loop_true. fold n.
    rewrite shl_one by lia.
    assert (2 ^ 3 <= 2 ^ Z.of_nat n) by (apply Z.pow_le_mono_r; lia).
    split.
    + intros (m & Hm & Hb & Hcm & Hxm).
      destruct (Hsem m ltac:(lia)) as [Hc1 Hx1].
      exists m. repeat split; (lia || congruence).
    + intros (m & Hm & Hlen & Hx).
      destruct (Hsem m Hm) as [Hc1 Hx1].
      assert (7 <= m).
      { apply (three_bits_ge_7 n); [lia |].
        unfold n. by rewrite <- pickBits_length. }
      exists m. repeat split; (lia || congruence).
Qed.

(** [hasValidSet] finds a valid set exactly when the cards contain one. *)
Lemma hasValidSet_validSetIn cards :
  Forall small cards -> (length cards <= 30)%nat ->
  Validation.hasValidSet cards = true <-> validSetIn cards.
Proof.
  intros Hc Hn. rewrite hasValidSet_masks by done. unfold validSetIn. split.
  - intros (m & _ & Hlen & Hx).
    exists (pickBits cards m). split; [apply pickBits_sublist | done].
  - intros (sub & Hsub & Hlen & Hx).
    destruct (sublist_pickBits _ _ Hsub) as (m & Hm & <-). eauto.
Qed.

End HasValidSet.

(** ** Seven cards always hold a set *)

Section Fano.

Lemma short_sets_do_not_vanish sub :
  Forall isCard sub -> NoDup sub -> sub <> [] -> xorAll sub = 0 ->
  (3 <= length sub)%nat.
Proof.
  intros Hc Hnd Hne Hx.
  destruct sub as [|a [|b [|c sub]]]; [done | | | simpl; lia].
  - exfalso. apply Forall_cons_1 in Hc as [Ha _].
    cbn [xorAll foldr] in Hx. rewrite Z.lxor_0_r in Hx.
    unfold isCard in Ha. lia.
  - exfalso. cbn [xorAll foldr] in Hx. rewrite Z.lxor_0_r in Hx.
    apply Z.lxor_eq in Hx as ->.
    apply NoDup_cons_1_1 in Hnd. apply Hnd. by left.
Qed.

Lemma Forall_sub {A} (P : A -> Prop) (l1 l2 : list A) :
  Forall P l2 -> sublist l1 l2 -> Forall P l1.
Proof.
  rewrite !Forall_forall. intros HP Hsub x Hx.
  eapply HP, elem_of_sublist; done.
Qed.

Lemma pigeonhole_lists {A} `{EqDecision A} (l k : list A) :
  NoDup l -> (forall x, x ∈ l -> x ∈ k) -> (length l <= length k)%nat.
Proof. intros Hnd Hin. apply submseteq_length. by apply NoDup_submseteq. Qed.

End Fano.

(** C8. Every list of exactly seven pairwise distinct card values (each
    in 1..63) makes [hasValidSet] answer true. *)
Theorem hasValidSet_seven_cards (cards : list Card) :
  length cards = 7%nat -> NoDup cards -> Forall isCard cards ->
  Validation.hasValidSet cards = true.
Proof.
  intros Hlen Hnd Hc.
  assert (Forall small cards) as Hs by by apply Forall_isCard_small.
  destruct (Validation.hasValidSet cards) eqn:Hhas; [done | exfalso].
  assert (forall m, 0 <= m < 2 ^ 7 ->
            (3 <= length (pickBits cards m))%nat ->
            xorAll (pickBits cards m) = 0 -> False) as Hnone.
  { intros m Hm H3 Hx.
    assert (Validation.hasValidSet cards = true) as Hyes; [| congruence].
    apply hasValidSet_masks; [done | lia |]. rewrite Hlen.
    exists m. done. }
  set (f := fun m => xorAll (pickBits cards m)).
  assert (forall m, 0 <= f m < 2 ^ 6) as Hrange.
  { intros m. apply xorAll_bounded; [lia |].
    eapply Forall_sub; [| apply pickBits_sublist].
    eapply Forall_impl; [exact Hc |]. unfold isCard. intros v Hv. simpl. lia. }
  assert (NoDup (f <$> seqZ 0 128)) as Hinj.
  { apply NoDup_fmap_2_strong; [| apply NoDup_seqZ].
    intros m1 m2 Hm1%elem_of_seqZ Hm2%elem_of_seqZ Hf.
    destruct (decide (m1 = m2)) as [|Hne]; [done | exfalso].
    set (m := Z.lxor m1 m2).
    assert (0 <= m < 2 ^ 7) as Hm by (apply lxor_bounded; simpl; lia).
    assert (xorAll (pickBits cards m) = 0) as Hx.
    { unfold m. rewrite pickBits_lxor. fold (f m1) (f m2).
      rewrite Hf. apply Z.lxor_nilpotent. }
    apply (Hnone m Hm); [| done].
    apply short_sets_do_not_vanish; [| | | done].
    - eapply Forall_sub; [exact Hc | apply pickBits_sublist].
    - eapply sublist_NoDup; [exact Hnd | apply pickBits_sublist].
    - intros Hnil. apply (f_equal length) in Hnil.
      rewrite pickBits_length, Hlen in Hnil. simpl in Hnil.
      apply (bitsSet_none 7) in Hnil; [| done].
      apply Hne, Z.lxor_eq. by fold m. }
  assert (length (f <$> seqZ 0 128) <= length (seqZ 0 64))%nat as Hle.
  { apply pigeonhole_lists; [done |].
    intros x (m & -> & _)%list_elem_of_fmap.
    apply elem_of_seqZ. specialize (Hrange m). simpl in Hrange. lia. }
  rewrite length_fmap, !length_seqZ in Hle. lia.
Qed.

Lemma hasValidSet_seven_cards_witness :
  Validation.hasValidSet [1; 63; 62; 61; 60; 59; 58] = true.
Proof.
  apply hasValidSet_seven_cards.
  - reflexivity.
  - refine (bool_decide_unpack _ _). vm_compute. exact I.
  - refine (bool_decide_unpack _ _). vm_compute. exact I.
Defined.

(** ** Facts on the deck service *)

Section DeckFacts.
Context `{!Oracle}.

Lemma swap_perm {T} (i j : nat) (l : list T) : Deck.swap i j l ≡ₚ l.
Proof.
  unfold Deck.swap.
  destruct (l !! i) as [x|] eqn:Hi; [| done].
  destruct (l !! j) as [y|] eqn:Hj; [| done].
  by apply Permutation_insert_swap.
Qed.

(** The shuffle permutes its argument and mints no id. *)
Lemma shuffle_loop_spec {T} (i : nat) (l : list T) w l' w' :
  Deck.shuffle_loop i l w = (l', w') ->
  l' ≡ₚ l /\ World.minted w' = World.minted w.
Proof.
  revert l w. induction i as [|i IH]; intros l w Hrun.
  - injection Hrun as <- <-. done.
  - cbn [Deck.shuffle_loop] in Hrun. unfold bind, Deck.randomBelow in Hrun.
    apply IH in Hrun as [Hperm Hm]. split; [| done].
    rewrite Hperm. apply swap_perm.
Qed.

Lemma shuffle_spec {T} (l : list T) w l' w' :
  Deck.shuffle l w = (l', w') ->
  l' ≡ₚ l /\ World.minted w' = World.minted w.
Proof. apply shuffle_loop_spec. Qed.

(** The cards [createDeck] makes from the [k]-th id on. *)
Lemma createDeck_loop_spec n value deck w :
  Deck.createDeck_loop n value deck w
  = (deck ++ imap (fun k _ =>
                     CardInstance.mk (idOf (World.minted w + k)%nat)
                       (value + Z.of_nat k)) (replicate n tt),
     World.mk (World.minted w + n)%nat (World.drawn w) (World.now w)).
Proof.
  revert value deck w. induction n as [|n IH]; intros value deck w.
  - simpl. unfold ret. rewrite app_nil_r, Nat.add_0_r. by destruct w.
  - cbn [Deck.createDeck_loop]. unfold bind, Deck.generateCardId.
    rewrite IH. cbn [World.minted World.drawn World.now replicate imap].
    rewrite <- app_assoc. cbn [app]. f_equal.
    + f_equal. f_equal.
      * by rewrite Nat.add_0_r, Z.add_0_r.
      * apply imap_ext. intros k [] _. simpl. f_equal; [f_equal; lia | lia].
    + f_equal. lia.
Qed.

(** [dealCards] takes cards off the end of the deck, last card first. *)
Lemma dealCards_loop_spec n deck dealt0 dealt rest :
  Deck.dealCards_loop n deck dealt0 = (dealt, rest) ->
  exists d, dealt = dealt0 ++ d /\ deck = rest ++ reverse d
            /\ length d = Nat.min n (length deck).
Proof.
  revert deck dealt0. induction n as [|n IH]; intros deck dealt0 Hrun.
  - injection Hrun as <- <-. exists []. by rewrite !app_nil_r.
  - cbn [Deck.dealCards_loop] in Hrun.
    destruct (last deck) as [card|] eqn:Hlast.
    + apply last_Some in Hlast as [deck' ->].
      rewrite length_app, Nat.add_sub, take_app_length in Hrun.
      apply IH in Hrun as (d & -> & -> & Hlen).
      exists (card :: d). rewrite reverse_cons, <- !app_assoc.
      repeat split.
      rewrite length_app, length_reverse in Hlen.
      rewrite !length_app, length_reverse, !length_cons, length_nil.
      lia.
    + apply last_None in Hlast as ->.
      injection Hrun as <- <-. exists []. by rewrite !app_nil_r.
Qed.

Lemma dealCards_spec deck count dealt rest :
  Deck.dealCards deck count = (dealt, rest) ->
  deck = rest ++ reverse dealt
  /\ length dealt = Nat.min (Z.to_nat count) (length deck).
Proof.
  intros Hrun. apply dealCards_loop_spec in Hrun as (d & -> & -> & Hlen).
  done.
Qed.

(** The cards [returnCardsToDeck] mints for the cards it is given. *)
Lemma remint_spec cards w :
  mapM (fun card =>
          i <- Deck.generateCardId ;;
          ret (CardInstance.mk i (CardInstance.value card))) cards w
  = (imap (fun k card =>
             CardInstance.mk (idOf (World.minted w + k)%nat)
               (CardInstance.value card)) cards,
     World.mk (World.minted w + length cards)%nat (World.drawn w) (World.now w)).
Proof.
  revert w. induction cards as [|c cards IH]; intros w.
  - simpl. unfold ret. rewrite Nat.add_0_r. by destruct w.
  - cbn [mapM]. unfold bind at 1 2. unfold Deck.generateCardId at 1.
    unfold ret at 1. unfold bind at 1. rewrite IH. unfold ret.
    cbn [World.minted World.drawn World.now imap length].
    f_equal.
    + f_equal; [by rewrite Nat.add_0_r |].
      apply imap_ext. intros k x _. simpl. do 2 f_equal. lia.
    + f_equal. lia.
Qed.

Lemma returnCardsToDeck_spec deck cards w deck' w' :
  Deck.returnCardsToDeck deck cards w = (deck', w') ->
  deck' ≡ₚ deck ++ imap (fun k card =>
                           CardInstance.mk (idOf (World.minted w + k)%nat)
                             (CardInstance.value card)) cards
  /\ World.minted w' = (World.minted w + length cards)%nat.
Proof.
  unfold Deck.returnCardsToDeck, bind. rewrite remint_spec.
  intros Hrun. apply shuffle_spec in Hrun as [Hperm Hm]. done.
Qed.

End DeckFacts.

(** ** What [claimSet] does *)

Section ClaimFacts.
Context `{!Oracle}.

Lemma isValidSet_length L :
  Validation.isValidSet L = true -> (3 <= length L)%nat.
Proof.
  unfold Validation.isValidSet, Validation.MIN_SET_SIZE.
  destruct (length L <? 3)%nat eqn:E; [done |]. apply Nat.ltb_ge in E. done.
Qed.

(** A claim that is not valid leaves the state alone and awards nothing. *)
Lemma claimSet_fail s p ids w :
  ~ claimValid s p ids -> Game.claimSet s p ids w = ((s, 0), w).
Proof.
  unfold claimValid, claimedOf, Game.claimSet. intros Hnot.
  destruct (Game.findPlayer (GameState.players s) p) as [[i pl]|]; [| done].
  destruct (Nat.eqb_spec
              (length (omap (Game.findCard (GameState.activeCards s)) ids))
              (length ids)) as [Hlen|Hlen]; [| done].
  destruct (Validation.isValidSet
              (CardInstance.value <$>
                 omap (Game.findCard (GameState.activeCards s)) ids)) eqn:Hv;
    [| done].
  exfalso. apply Hnot. eauto.
Qed.

(** A valid claim, step by step. *)
Lemma claimSet_success s p ids w i pl :
  claimValid s p ids ->
  Game.findPlayer (GameState.players s) p = Some (i, pl) ->
  exists deck1 w' newCards newDeck,
    refill s ids w = (deck1, w')
    /\ Deck.dealCards deck1
         (Z.of_nat ACTIVE_CARD_COUNT - Z.of_nat (length (remainingOf s ids)))
       = (newCards, newDeck)
    /\ Game.claimSet s p ids w
       = ((GameState.mk (GameState.phase s) newDeck
             (remainingOf s ids ++ newCards)
             (playersAfterClaim i (claimedOf s ids) ids
                (pointsFor s (claimedOf s ids)) (GameState.players s))
             (GameState.settings s)
             (Game.timerDuration (Settings.turnTimer (GameState.settings s)))
             (GameState.gameTimeRemainingMs s) (GameState.endReason s)
             (GameState.startedAt s),
           pointsFor s (claimedOf s ids)), w').
Proof.
  intros (_ & Hlen & Hv) Hfind.
  destruct (refill s ids w) as [deck1 w'] eqn:Hrefill.
  destruct (Deck.dealCards deck1
              (Z.of_nat ACTIVE_CARD_COUNT
               - Z.of_nat (length (remainingOf s ids))))
    as [newCards newDeck] eqn:Hdeal.
  exists deck1, w', newCards, newDeck. split; [done |]. split; [done |].
  unfold Game.claimSet. rewrite Hfind.
  unfold claimedOf in Hlen, Hv.
  apply Nat.eqb_eq in Hlen. rewrite Hlen, Hv. cbn [negb].
  unfold bind. unfold refill, claimedOf in Hrefill. rewrite Hrefill.
  unfold remainingOf in Hdeal. rewrite Hdeal. unfold ret.
  unfold pointsFor, playersAfterClaim, claimedOf, remainingOf.
  destruct (default cards (Settings.scoringMode (GameState.settings s)));
    reflexivity.
Qed.

Lemma pointsFor_pos s ids :
  Validation.isValidSet (CardInstance.value <$> claimedOf s ids) = true ->
  0 < pointsFor s (claimedOf s ids).
Proof.
  intros Hv%isValidSet_length. rewrite length_fmap in Hv.
  unfold pointsFor.
  destruct (default cards (Settings.scoringMode (GameState.settings s))); lia.
Qed.

(** Points are awarded exactly for valid claims. *)
Lemma claimSet_points s p ids w s' pts w' :
  Game.claimSet s p ids w = ((s', pts), w') ->
  pts <> 0 <-> claimValid s p ids.
Proof.
  intros Hrun. destruct (decide (pts = 0)) as [->|Hne].
  - split; [done |]. intros Hvalid. exfalso.
    pose proof Hvalid as ([[i pl] Hfind] & _ & Hv).
    destruct (claimSet_success s p ids w i pl Hvalid Hfind)
      as (deck1 & w1 & newCards & newDeck & _ & _ & Heq).
    rewrite Heq in Hrun. injection Hrun as _ Hpts _.
    pose proof (pointsFor_pos s ids Hv). lia.
  - split; [intros _ | done].
    destruct (Game.findPlayer (GameState.players s) p) as [[i pl]|] eqn:Hfind;
      unfold claimValid.
    + rewrite Hfind.
      destruct (decide (length (claimedOf s ids) = length ids)) as [Hlen|Hlen].
      * destruct (Validation.isValidSet
                    (CardInstance.value <$> claimedOf s ids)) eqn:Hv; [eauto |].
        rewrite claimSet_fail in Hrun; [congruence |].
        unfold claimValid. rewrite Hv. intros (_ & _ & ?). done.
      * rewrite claimSet_fail in Hrun; [congruence |].
        unfold claimValid. intros (_ & ? & _). done.
    + rewrite claimSet_fail in Hrun; [congruence |].
      unfold claimValid. rewrite Hfind. intros ([? ?] & _). done.
Qed.

(** The two ways a call of [claimSet] can go. *)
Lemma claimSet_cases s p ids w s' pts w' :
  Game.claimSet s p ids w = ((s', pts), w') ->
  (pts = 0 /\ s' = s /\ w' = w /\ ~ claimValid s p ids)
  \/ (claimValid s p ids /\ pts = pointsFor s (claimedOf s ids) /\ 0 < pts
      /\ exists i pl deck1 newCards newDeck,
           Game.findPlayer (GameState.players s) p = Some (i, pl)
           /\ refill s ids w = (deck1, w')
           /\ Deck.dealCards deck1
                (Z.of_nat ACTIVE_CARD_COUNT
                 - Z.of_nat (length (remainingOf s ids)))
              = (newCards, newDeck)
           /\ s' = GameState.mk (GameState.phase s) newDeck
                     (remainingOf s ids ++ newCards)
                     (playersAfterClaim i (claimedOf s ids) ids pts
                        (GameState.players s))
                     (GameState.settings s)
                     (Game.timerDuration
                        (Settings.turnTimer (GameState.settings s)))
                     (GameState.gameTimeRemainingMs s) (GameState.endReason s)
                     (GameState.startedAt s)).
Proof.
  intros Hrun. destruct (decide (pts = 0)) as [->|Hne].
  - left. assert (~ claimValid s p ids) as Hnot.
    { intros Hv. by apply (claimSet_points _ _ _ _ _ _ _ Hrun) in Hv. }
    rewrite claimSet_fail in Hrun by done. injection Hrun as <- <-. done.
  - right. pose proof (proj1 (claimSet_points _ _ _ _ _ _ _ Hrun) Hne) as Hvalid.
    pose proof Hvalid as ([[i pl] Hfind] & _ & Hv).
    destruct (claimSet_success s p ids w i pl Hvalid Hfind)
      as (deck1 & w1 & newCards & newDeck & Hrefill & Hdeal & Heq).
    rewrite Heq in Hrun. injection Hrun as <- <- <-.
    split; [done |]. split; [done |]. split; [by apply pointsFor_pos |].
    exists i, pl, deck1, newCards, newDeck. done.
Qed.

End ClaimFacts.

(** ** The turn timer after a claim *)

(** C9. Every successful [claimSet] (one that awards points) leaves the
    settings as they were and sets [turnTimeRemainingMs] to the duration
    of the configured turn timer, or to null when none is configured,
    whoever claims and whatever the timer showed before. *)
Theorem claimSet_resets_turn_timer `{!Oracle}
    (s : GameState.t) (p : PlayerId) (ids : list CardId) (w : World.t)
    (s' : GameState.t) (pts : Z) (w' : World.t) :
  Game.claimSet s p ids w = ((s', pts), w') ->
  pts <> 0 ->
  GameState.settings s' = GameState.settings s
  /\ GameState.turnTimeRemainingMs s'
     = match Settings.turnTimer (GameState.settings s) with
       | Some timer => Some (TimerConfig.durationMs timer)
       | None => None
       end.
Proof.
  intros Hrun Hpts.
  pose proof (proj1 (claimSet_points s p ids w s' pts w' Hrun) Hpts) as Hvalid.
  pose proof Hvalid as ([[i pl] Hfind] & _).
  destruct (claimSet_success s p ids w i pl Hvalid Hfind)
    as (deck1 & w1 & newCards & newDeck & _ & _ & Heq).
  rewrite Heq in Hrun. injection Hrun as <- _ _. split; [done |].
  cbn [GameState.turnTimeRemainingMs]. unfold Game.timerDuration.
  by destruct (Settings.turnTimer (GameState.settings s)).
Qed.

(** ** Cards on the table and the ids that name them *)

Section TableFacts.

Lemma findCard_Some cs i c :
  Game.findCard cs i = Some c -> c ∈ cs /\ CardInstance.id c = i.
Proof.
  unfold Game.findCard. intros Hf.
  destruct (list_find _ cs) as [[k c']|] eqn:Hfind; [| done].
  injection Hf as ->. apply list_find_Some in Hfind as (Hk & Hid & _).
  split; [by eapply list_elem_of_lookup_2 | done].
Qed.

Lemma findCard_None cs i :
  Game.findCard cs i = None -> i ∉ CardInstance.id <$> cs.
Proof.
  unfold Game.findCard. intros Hf.
  destruct (list_find _ cs) as [[k c']|] eqn:Hfind; [done |].
  apply list_find_None in Hfind.
  intros (c & -> & Hc)%list_elem_of_fmap.
  by eapply Forall_forall in Hfind.
Qed.

(** With distinct ids on the table, an id names at most one card. *)
Lemma NoDup_fmap_eq {A B} (f : A -> B) (l : list A) x y :
  NoDup (f <$> l) -> x ∈ l -> y ∈ l -> f x = f y -> x = y.
Proof.
  induction l as [|a l IH]; [by intros _ ?%elem_of_nil |].
  rewrite fmap_cons, NoDup_cons.
  intros [Ha Hnd] [->|Hx]%elem_of_cons [->|Hy]%elem_of_cons Hf; [done | | | by apply IH].
  - exfalso. apply Ha. rewrite Hf. by apply list_elem_of_fmap_2.
  - exfalso. apply Ha. rewrite <- Hf. by apply list_elem_of_fmap_2.
Qed.

Lemma omap_cons {A B} (f : A -> option B) (a : A) (l : list A) :
  omap f (a :: l)
  = match f a with Some b => b :: omap f l | None => omap f l end.
Proof. reflexivity. Qed.

Lemma omap_length_le {A B} (f : A -> option B) (l : list A) :
  (length (omap f l) <= length l)%nat.
Proof.
  induction l as [|a l IH]; [done |].
  rewrite omap_cons. destruct (f a); cbn [length]; lia.
Qed.

Lemma omap_all_found {A B} (f : A -> option B) (l : list A) :
  length (omap f l) = length l -> Forall (fun a => is_Some (f a)) l.
Proof.
  induction l as [|a l IH]; [constructor |].
  rewrite omap_cons. pose proof (omap_length_le f l) as Hle.
  destruct (f a) as [b|] eqn:Hfa; cbn [length]; intros Hlen.
  - constructor; [eauto | apply IH; lia].
  - lia.
Qed.

Lemma claimedOf_found s ids :
  length (claimedOf s ids) = length ids ->
  Forall (fun i => exists c, Game.findCard (GameState.activeCards s) i = Some c) ids.
Proof.
  intros Hlen%omap_all_found.
  eapply Forall_impl; [exact Hlen |]. intros i [c Hc]. eauto.
Qed.

Lemma claimedOf_ids s ids :
  length (claimedOf s ids) = length ids ->
  CardInstance.id <$> claimedOf s ids = ids.
Proof.
  unfold claimedOf. induction ids as [|i ids IH]; [done |].
  rewrite omap_cons.
  pose proof (omap_length_le (Game.findCard (GameState.activeCards s)) ids) as Hle.
  destruct (Game.findCard (GameState.activeCards s) i) as [c|] eqn:Hfc;
    cbn [length]; intros Hlen.
  - apply findCard_Some in Hfc as [_ <-].
    rewrite fmap_cons. f_equal. apply IH. lia.
  - lia.
Qed.

Lemma elem_of_claimedOf s ids c :
  c ∈ claimedOf s ids ->
  c ∈ GameState.activeCards s /\ CardInstance.id c ∈ ids.
Proof.
  unfold claimedOf. intros (i & Hi & Hf)%list_elem_of_omap.
  apply findCard_Some in Hf as [Hc <-]. done.
Qed.

(** The cards a valid claim with distinct ids takes are, up to order,
    the cards of the table that carry one of the ids. *)
Lemma claimedOf_perm s ids :
  NoDup (CardInstance.id <$> GameState.activeCards s) -> NoDup ids ->
  length (claimedOf s ids) = length ids ->
  claimedOf s ids
  ≡ₚ filter (fun c => CardInstance.id c ∈ ids) (GameState.activeCards s).
Proof.
  intros Hnd Hids Hlen. apply NoDup_Permutation.
  - apply (NoDup_fmap_1 CardInstance.id). by rewrite claimedOf_ids.
  - apply NoDup_filter. by apply (NoDup_fmap_1 CardInstance.id).
  - intros c. rewrite list_elem_of_filter. split.
    + intros [? ?]%elem_of_claimedOf. done.
    + intros [Hid Hc].
      pose proof (claimedOf_found s ids Hlen) as Hall.
      rewrite Forall_forall in Hall.
      destruct (Hall _ Hid) as [c' Hc'].
      assert (c' = c) as <-.
      { apply findCard_Some in Hc' as [Hin Heq].
        by eapply (NoDup_fmap_eq CardInstance.id). }
      unfold claimedOf. apply list_elem_of_omap. eauto.
Qed.

(** Such a claim empties as many places of the table as it takes cards. *)
Lemma remainingOf_length s ids :
  NoDup (CardInstance.id <$> GameState.activeCards s) -> NoDup ids ->
  length (claimedOf s ids) = length ids ->
  (length (remainingOf s ids) + length ids
   = length (GameState.activeCards s))%nat.
Proof.
  intros Hnd Hids Hlen.
  pose proof (filter_app_complement
                (fun c => CardInstance.id c ∈ ids) (GameState.activeCards s)) as Hp.
  apply Permutation_length in Hp. rewrite length_app in Hp.
  rewrite <- (claimedOf_perm s ids Hnd Hids Hlen), Hlen in Hp.
  unfold remainingOf. lia.
Qed.

Lemma remainingOf_ids s ids c :
  c ∈ remainingOf s ids -> CardInstance.id c ∉ ids.
Proof. unfold remainingOf. by intros [? _]%list_elem_of_filter. Qed.

End TableFacts.

(** ** Counting claimed cards *)

Section PileFacts.

Lemma sum_list_cons (x : nat) (l : list nat) :
  sum_list (x :: l) = (x + sum_list l)%nat.
Proof. reflexivity. Qed.

Lemma sum_imap_same (f : nat -> Player.t -> Player.t) ps :
  (forall j p, pile (f j p) = pile p) ->
  sum_list (pile <$> imap f ps) = sum_list (pile <$> ps).
Proof.
  revert f. induction ps as [|p ps IH]; intros f Hf; [done |].
  rewrite imap_cons, !fmap_cons, !sum_list_cons, Hf. f_equal.
  apply IH. intros j q. apply Hf.
Qed.

Lemma sum_imap_zero (f : nat -> Player.t -> Player.t) ps :
  (forall j p, pile (f j p) = O) ->
  sum_list (pile <$> imap f ps) = O.
Proof.
  revert f. induction ps as [|p ps IH]; intros f Hf; [done |].
  rewrite imap_cons, !fmap_cons, !sum_list_cons, Hf.
  apply IH. intros j q. apply Hf.
Qed.

Lemma sum_imap_one (f : nat -> Player.t -> Player.t) i n ps :
  (forall j p, pile (f j p) = (pile p + if decide (j = i) then n else 0)%nat) ->
  (i < length ps)%nat ->
  sum_list (pile <$> imap f ps) = (sum_list (pile <$> ps) + n)%nat.
Proof.
  revert f i. induction ps as [|p ps IH]; intros f i Hf Hi; [simpl in Hi; lia |].
  rewrite imap_cons, !fmap_cons, !sum_list_cons, Hf.
  destruct i as [|i].
  - rewrite decide_True by done.
    rewrite sum_imap_same; [lia |].
    intros j q. unfold compose. rewrite Hf. rewrite decide_False by done. lia.
  - rewrite decide_False by done.
    rewrite (IH (f ∘ S) i); [lia | | simpl in Hi; lia].
    intros j q. unfold compose. rewrite Hf.
    destruct (decide (S j = S i)), (decide (j = i)); lia.
Qed.

Lemma sum_insert_same ps i p q :
  ps !! i = Some p -> pile q = pile p ->
  sum_list (pile <$> <[i := q]> ps) = sum_list (pile <$> ps).
Proof.
  revert i. induction ps as [|a ps IH]; intros i Hi Hq; [done |].
  destruct i as [|i]; simpl in Hi.
  - injection Hi as ->. cbn [list_insert insert].
    by rewrite !fmap_cons, !sum_list_cons, Hq.
  - cbn [list_insert insert]. rewrite !fmap_cons, !sum_list_cons.
    f_equal. by apply IH.
Qed.

Lemma playersAfterClaim_piles i claimed ids pts ps :
  (i < length ps)%nat ->
  sum_list (pile <$> playersAfterClaim i claimed ids pts ps)
  = (sum_list (pile <$> ps) + length claimed)%nat.
Proof.
  intros Hi. unfold playersAfterClaim.
  apply (sum_imap_one _ i (length claimed)); [| done].
  intros j p. unfold pile. destruct (decide (j = i)); simpl.
  - by rewrite length_app.
  - lia.
Qed.

End PileFacts.

(** ** Well-formed states and what the engine conserves *)

Section Invariants.
Context `{!Oracle}.
Hypothesis idOf_inj : Inj (=) (=) idOf.

Lemma minted_ids m {A} (g : nat -> A -> Z) (l : list A) :
  CardInstance.id <$> imap (fun k a => CardInstance.mk (idOf (m + k)%nat) (g k a)) l
  = idOf <$> seq m (length l).
Proof.
  revert m g. induction l as [|a l IH]; intros m g; [done |].
  rewrite imap_cons, fmap_cons. cbn [length seq fmap list_fmap CardInstance.id].
  rewrite Nat.add_0_r. f_equal. fold (fmap idOf (seq (S m) (length l))).
  rewrite <- (IH (S m) (fun k a => g (S k) a)). f_equal.
  apply imap_ext. intros k x _. unfold compose. do 2 f_equal. lia.
Qed.

Lemma elem_of_mintedIds w x :
  x ∈ mintedIds w <-> exists k, (k < World.minted w)%nat /\ x = idOf k.
Proof.
  unfold mintedIds. rewrite list_elem_of_fmap. split.
  - intros (k & -> & Hk%elem_of_seq). exists k. split; [lia | done].
  - intros (k & Hk & ->). exists k. split; [done |]. apply elem_of_seq. lia.
Qed.

Lemma mintedIds_mono w w' x :
  (World.minted w <= World.minted w')%nat -> x ∈ mintedIds w -> x ∈ mintedIds w'.
Proof.
  rewrite !elem_of_mintedIds. intros Hle (k & Hk & ->). exists k. split; [lia | done].
Qed.

(** The ids [m], [m+1], ... are pairwise distinct, and new when [m] ids
    were minted. *)
Lemma fresh_ids_NoDup m n : NoDup (idOf <$> seq m n).
Proof. apply NoDup_fmap_2; [done | apply NoDup_seq]. Qed.

Lemma fresh_ids_new w n x :
  x ∈ idOf <$> seq (World.minted w) n -> x ∉ mintedIds w.
Proof.
  intros (k & -> & Hk%elem_of_seq)%list_elem_of_fmap.
  rewrite elem_of_mintedIds. intros (k' & Hk' & Heq%idOf_inj). lia.
Qed.

Lemma wellFormed_perm w s l :
  circulating s ≡ₚ l ->
  wellFormed w s
  <-> NoDup (CardInstance.id <$> l)
      /\ Forall (fun c => CardInstance.id c ∈ mintedIds w) l.
Proof. unfold wellFormed. intros ->. done. Qed.

(** A fresh deck, shuffled and dealt from. *)
Lemma fresh_deal w0 deck w1 count active rest :
  Deck.createShuffledDeck w0 = (deck, w1) ->
  Deck.dealCards deck count = (active, rest) ->
  World.minted w1 = (World.minted w0 + DECK_SIZE)%nat
  /\ (length rest + length active)%nat = DECK_SIZE
  /\ NoDup (CardInstance.id <$> rest ++ active)
  /\ Forall (fun c => CardInstance.id c ∈ mintedIds w1) (rest ++ active).
Proof.
  unfold Deck.createShuffledDeck, bind, Deck.createDeck.
  rewrite createDeck_loop_spec. cbn [app].
  intros [Hperm Hm]%shuffle_spec [-> Hlen]%dealCards_spec.
  cbn [World.minted] in Hm.
  set (fresh := imap _ _) in Hperm.
  assert (CardInstance.id <$> fresh = idOf <$> seq (World.minted w0) DECK_SIZE)
    as Hids.
  { unfold fresh. rewrite (minted_ids _ (fun k _ => 1 + Z.of_nat k)).
    by rewrite length_replicate. }
  assert (rest ++ active ≡ₚ fresh) as Hcirc.
  { rewrite <- Hperm. by rewrite reverse_Permutation. }
  split; [done |]. split.
  - rewrite <- length_app, Hcirc. unfold fresh.
    by rewrite length_imap, length_replicate.
  - rewrite Hcirc, Hids. split; [apply fresh_ids_NoDup |].
    apply Forall_forall. intros c Hc.
    assert (CardInstance.id c ∈ idOf <$> seq (World.minted w0) DECK_SIZE)
      as (k & -> & Hk%elem_of_seq)%list_elem_of_fmap
      by (rewrite <- Hids; by apply list_elem_of_fmap_2).
    apply elem_of_mintedIds. exists k. split; [lia | done].
Qed.

Lemma single_player_start playerId playerName settings w0 s w :
  Game.createSinglePlayerGame playerId playerName settings w0 = (s, w) ->
  wellFormed w s /\ conserved s.
Proof.
  unfold Game.createSinglePlayerGame, bind.
  destruct (Deck.createShuffledDeck w0) as [deck w1] eqn:Hdeck.
  destruct (Deck.dealCards deck (Z.of_nat ACTIVE_CARD_COUNT))
    as [active rest] eqn:Hdeal.
  unfold Game.dateNow, ret. intros [= <- <-].
  destruct (fresh_deal _ _ _ _ _ _ Hdeck Hdeal) as (Hm & Hlen & Hnd & Hall).
  split; [exact (conj Hnd Hall) |]. unfold conserved, totalCards.
  cbn [GameState.settings GameState.deck GameState.activeCards GameState.players].
  rewrite fmap_cons, sum_list_cons. cbn [pile Player.claimedCards length].
  unfold DECK_SIZE in *. change (sum_list (pile <$> [])) with O.
  destruct (Settings.infiniteDeck settings); lia.
Qed.

Lemma multiplayer_start players settings w0 s w :
  Game.createMultiplayerGame players settings w0 = (s, w) ->
  wellFormed w s /\ conserved s.
Proof.
  unfold Game.createMultiplayerGame, bind.
  destruct (Deck.createShuffledDeck w0) as [deck w1] eqn:Hdeck.
  destruct (Deck.dealCards deck (Z.of_nat ACTIVE_CARD_COUNT))
    as [active rest] eqn:Hdeal.
  unfold Game.dateNow, ret. intros [= <- <-].
  destruct (fresh_deal _ _ _ _ _ _ Hdeck Hdeal) as (Hm & Hlen & Hnd & Hall).
  split; [exact (conj Hnd Hall) |]. unfold conserved, totalCards.
  cbn [GameState.settings GameState.deck GameState.activeCards GameState.players].
  rewrite sum_imap_zero by (intros; reflexivity).
  unfold DECK_SIZE in *.
  destruct (Settings.infiniteDeck settings); lia.
Qed.

Lemma circulating_after_deal deck1 count newCards newDeck remaining :
  Deck.dealCards deck1 count = (newCards, newDeck) ->
  newDeck ++ (remaining ++ newCards) ≡ₚ deck1 ++ remaining.
Proof.
  intros [-> _]%dealCards_spec.
  rewrite reverse_Permutation, <- !app_assoc.
  f_equiv. apply Permutation_app_comm.
Qed.

Lemma remaining_sublist s ids :
  sublist (GameState.deck s ++ remainingOf s ids) (circulating s).
Proof. apply sublist_app; [done | apply sublist_filter]. Qed.

(** [claimSet] keeps states well-formed, whatever ids it is called with. *)
Lemma claimSet_wellFormed s p ids w s' pts w' :
  Game.claimSet s p ids w = ((s', pts), w') ->
  wellFormed w s -> wellFormed w' s'.
Proof.
  intros Hrun [Hnd Hall].
  destruct (claimSet_cases _ _ _ _ _ _ _ Hrun)
    as [(_ & -> & -> & _) | (Hvalid & _ & _ & i & pl & deck1 & newCards & newDeck
                             & Hfind & Hrefill & Hdeal & ->)]; [done |].
  pose proof (remaining_sublist s ids) as Hsub.
  assert (NoDup (CardInstance.id <$> GameState.deck s ++ remainingOf s ids))
    as Hnd'.
  { eapply sublist_NoDup; [exact Hnd |]. by apply fmap_sublist. }
  assert (Forall (fun c => CardInstance.id c ∈ mintedIds w)
            (GameState.deck s ++ remainingOf s ids)) as Hall'.
  { eapply Forall_sub; done. }
  apply (wellFormed_perm _ _ (deck1 ++ remainingOf s ids)).
  { unfold circulating. cbn [GameState.deck GameState.activeCards].
    by eapply circulating_after_deal. }
  unfold refill in Hrefill.
  destruct (Settings.infiniteDeck (GameState.settings s)).
  - apply returnCardsToDeck_spec in Hrefill as [Hperm Hm].
    set (fresh := imap _ _) in Hperm.
    assert (CardInstance.id <$> fresh
            = idOf <$> seq (World.minted w) (length (claimedOf s ids))) as Hids.
    { unfold fresh. apply (minted_ids _ (fun _ c => CardInstance.value c)). }
    assert (deck1 ++ remainingOf s ids
            ≡ₚ fresh ++ (GameState.deck s ++ remainingOf s ids)) as ->.
    { rewrite Hperm, (Permutation_app_comm (GameState.deck s) fresh).
      by rewrite <- app_assoc. }
    split.
    + rewrite fmap_app. apply NoDup_app. split; [| split; [| done]].
      * rewrite Hids. apply fresh_ids_NoDup.
      * intros x Hx (c & -> & Hc)%list_elem_of_fmap.
        rewrite Hids in Hx. apply fresh_ids_new in Hx. apply Hx.
        by eapply Forall_forall in Hall'.
    + apply Forall_app. split.
      * apply Forall_forall. intros c Hc.
        assert (CardInstance.id c
                ∈ idOf <$> seq (World.minted w) (length (claimedOf s ids)))
          as (k & -> & Hk%elem_of_seq)%list_elem_of_fmap
          by (rewrite <- Hids; by apply list_elem_of_fmap_2).
        apply elem_of_mintedIds. exists k. split; [lia | done].
      * eapply Forall_impl; [exact Hall' |]. intros c.
        apply mintedIds_mono. lia.
  - injection Hrefill as <- <-. done.
Qed.

(** With pairwise distinct ids, [claimSet] conserves the cards. *)
Lemma claimSet_conserved s p ids w s' pts w' :
  Game.claimSet s p ids w = ((s', pts), w') ->
  NoDup ids -> wellFormed w s -> conserved s -> conserved s'.
Proof.
  intros Hrun Hids [Hnd _] Hcons.
  destruct (claimSet_cases _ _ _ _ _ _ _ Hrun)
    as [(_ & -> & -> & _) | (Hvalid & _ & _ & i & pl & deck1 & newCards & newDeck
                             & Hfind & Hrefill & Hdeal & ->)]; [done |].
  destruct Hvalid as (_ & Hlen & _).
  unfold circulating in Hnd. rewrite fmap_app in Hnd.
  apply NoDup_app in Hnd as (_ & _ & Hnd).
  pose proof (remainingOf_length s ids Hnd Hids Hlen) as Hrem.
  apply dealCards_spec in Hdeal as [Hdeck1 _].
  apply (f_equal length) in Hdeck1.
  rewrite length_app, length_reverse in Hdeck1.
  assert (i < length (GameState.players s))%nat as Hi.
  { apply list_find_Some in Hfind as (Hi & _). by eapply lookup_lt_Some. }
  unfold conserved, totalCards, refill in *.
  cbn [GameState.settings GameState.deck GameState.activeCards GameState.players].
  rewrite playersAfterClaim_piles by done. rewrite length_app.
  destruct (Settings.infiniteDeck (GameState.settings s)).
  - apply returnCardsToDeck_spec in Hrefill as [Hperm _].
    apply Permutation_length in Hperm.
    rewrite length_app, length_imap in Hperm. lia.
  - injection Hrefill as <- <-. lia.
Qed.

(** One transition keeps the settings and the invariants. *)
Lemma step_settings okClaim x y :
  step okClaim x y -> GameState.settings x.1 = GameState.settings y.1.
Proof.
  destruct 1 as [s w p c | s w p ids s' pts w' _ Hrun | s w p | | |]; try done.
  - unfold Game.toggleCardSelection. cbn [fst].
    destruct (Game.findPlayer _ _) as [[i pl]|]; [| done].
    by destruct (negb _).
  - cbn [fst].
    destruct (claimSet_cases _ _ _ _ _ _ _ Hrun)
      as [(_ & -> & _) | (_ & _ & _ & i & pl & d & nc & nd & _ & _ & _ & ->)];
      done.
  - unfold Game.clearSelection. cbn [fst].
    by destruct (Game.findPlayer _ _) as [[i pl]|].
Qed.

Lemma withPlayers_selection_invariants w s i pl sel :
  GameState.players s !! i = Some pl ->
  wellFormed w s /\ conserved s ->
  wellFormed w
    (Game.withPlayers s (<[i := Game.withSelection pl sel]> (GameState.players s)))
  /\ conserved
       (Game.withPlayers s (<[i := Game.withSelection pl sel]> (GameState.players s))).
Proof.
  intros Hi [Hwf Hcons]. split; [done |].
  unfold conserved, totalCards in *.
  cbn [Game.withPlayers GameState.settings GameState.deck GameState.activeCards
         GameState.players].
  by rewrite (sum_insert_same _ _ pl).
Qed.

Lemma step_invariants okClaim x y :
  (forall ids, okClaim ids -> NoDup ids) ->
  step okClaim x y ->
  wellFormed x.2 x.1 /\ conserved x.1 -> wellFormed y.2 y.1 /\ conserved y.1.
Proof.
  intros Hok Hstep [Hwf Hcons].
  destruct Hstep as [s w p c | s w p ids s' pts w' Hids Hrun | s w p | | |];
    cbn [fst snd] in *; try done.
  - unfold Game.toggleCardSelection.
    destruct (Game.findPlayer _ _) as [[i pl]|] eqn:Hfind; [| done].
    destruct (negb _); [done |].
    apply list_find_Some in Hfind as (Hi & _).
    by apply withPlayers_selection_invariants.
  - split; [by eapply claimSet_wellFormed |].
    eapply claimSet_conserved; eauto.
  - unfold Game.clearSelection.
    destruct (Game.findPlayer _ _) as [[i pl]|] eqn:Hfind; [| done].
    apply list_find_Some in Hfind as (Hi & _).
    by apply withPlayers_selection_invariants.
Qed.

Lemma reachable_invariants okClaim x :
  (forall ids, okClaim ids -> NoDup ids) ->
  reachable okClaim x -> wellFormed x.2 x.1 /\ conserved x.1.
Proof.
  intros Hok. induction 1 as [pid name settings w0 s w Hrun
                             | players settings w0 s w Hrun
                             | x y _ IH Hstep].
  - by eapply single_player_start.
  - by eapply multiplayer_start.
  - by eapply step_invariants.
Qed.

(** Every state a game reaches is well-formed, whatever is claimed. *)
Lemma reachable_wellFormed okClaim x :
  reachable okClaim x -> wellFormed x.2 x.1.
Proof.
  induction 1 as [pid name settings w0 s w Hrun
                 | players settings w0 s w Hrun
                 | x y _ IH Hstep].
  - by eapply single_player_start.
  - by eapply multiplayer_start.
  - destruct Hstep as [s w p c | s w p ids s' pts w' Hids Hrun | s w p | | |];
      cbn [fst snd] in *; try done.
    + unfold Game.toggleCardSelection.
      destruct (Game.findPlayer _ _) as [[i pl]|] eqn:Hfind; [| done].
      by destruct (negb _).
    + by eapply claimSet_wellFormed.
    + unfold Game.clearSelection.
      by destruct (Game.findPlayer _ _) as [[i pl]|] eqn:Hfind.
Qed.

End Invariants.

(** ** The conservation law *)

(** C3, amended. Provided the minted ids are pairwise distinct and every
    call of [claimSet] names pairwise distinct card ids, every state a game
    reaches from its creation satisfies: in a finite-deck game,
    [|deck| + |activeCards| + sum of |claimedCards|] is 63; in an
    infinite-deck game, [|deck| + |activeCards|] is 63. *)
Theorem conservation_of_cards `{!Oracle} (s : GameState.t) (w : World.t) :
  Inj (=) (=) idOf ->
  reachable (fun ids => NoDup ids) (s, w) ->
  if Settings.infiniteDeck (GameState.settings s)
  then (length (GameState.deck s) + length (GameState.activeCards s))%nat = 63%nat
  else totalCards s = 63%nat.
Proof.
  intros Hinj Hreach.
  by destruct (reachable_invariants Hinj _ (s, w) (fun _ H => H) Hreach) as [_ Hc].
Qed.

(** ** Concrete games *)

Section DemoFacts.

Lemma demo_ids_distinct : Inj (=) (=) (@idOf Demo.oracle).
Proof.
  intros x y Heq. cbn in Heq. injection Heq as Heq.
  by apply (inj pretty).
Qed.

Lemma triple_eta {A B C} (r : A * B * C) : r = ((r.1.1, r.1.2), r.2).
Proof. by destruct r as [[? ?] ?]. Qed.

Lemma claimStep_reachable `{!Oracle} okClaim x p ids :
  okClaim ids -> reachable okClaim x -> reachable okClaim (claimStep x p ids).
Proof.
  intros Hok Hreach. destruct x as [s w].
  eapply reach_step; [exact Hreach |].
  unfold claimStep. cbn [fst snd].
  destruct (Game.claimSet s p ids w) as [[s' pts] w'] eqn:Hrun.
  by eapply step_claim.
Qed.

Lemma start_reachable okClaim settings :
  @reachable Demo.oracle okClaim (Demo.start settings).
Proof.
  unfold Demo.start.
  destruct (Game.createMultiplayerGame _ settings Demo.w0) as [s w] eqn:Hrun.
  by eapply reach_multi.
Qed.

Lemma claim3_distinct : NoDup Demo.claim3.
Proof. refine (bool_decide_unpack _ _). vm_compute. exact I. Qed.

End DemoFacts.

Lemma claimSet_resets_turn_timer_witness :
  let s := Game.updateTimers Demo.finiteGame.1 12000 in
  let r := @Game.claimSet Demo.oracle s "B" Demo.claim3 Demo.finiteGame.2 in
  GameState.turnTimeRemainingMs s = Some 18000
  /\ r.1.2 = 3
  /\ GameState.turnTimeRemainingMs r.1.1 = Some 30000.
Proof.
  intros s r.
  assert (r.1.2 = 3) as Hpts by (vm_compute; reflexivity).
  assert (Settings.turnTimer (GameState.settings s)
          = Some (TimerConfig.mk 30000)) as Htimer by (vm_compute; reflexivity).
  split; [vm_compute; reflexivity |]. split; [exact Hpts |].
  pose proof (triple_eta r) as Hrun.
  assert (r.1.2 <> 0) as Hne by (rewrite Hpts; lia).
  destruct (@claimSet_resets_turn_timer Demo.oracle _ _ _ _ _ _ _ Hrun Hne)
    as [_ Hreset].
  rewrite Htimer in Hreset. exact Hreset.
Defined.

Lemma conservation_of_cards_witness :
  let x := @claimStep Demo.oracle Demo.finiteGame "A" Demo.claim3 in
  Settings.infiniteDeck (GameState.settings x.1) = false
  /\ totalCards x.1 = 63%nat.
Proof.
  intros x.
  assert (Settings.infiniteDeck (GameState.settings x.1) = false) as Hfinite
    by (vm_compute; reflexivity).
  split; [exact Hfinite |].
  assert (@reachable Demo.oracle (fun ids => NoDup ids) (x.1, x.2)) as Hreach.
  { rewrite <- surjective_pairing.
    apply claimStep_reachable; [apply claim3_distinct | apply start_reachable]. }
  pose proof (@conservation_of_cards Demo.oracle x.1 x.2
                demo_ids_distinct Hreach) as Hcons.
  rewrite Hfinite in Hcons. exact Hcons.
Defined.

(** C3, as stated, fails: in the infinite-deck game a claim of three
    distinct cards puts them on the claimant's pile and, re-minted, back
    into the deck, so the total goes from 63 to 66. *)
Lemma conservation_counterexample :
  ~ (forall s w,
       @reachable Demo.oracle (fun ids => NoDup ids) (s, w) ->
       totalCards s = 63%nat).
Proof.
  intros Hall.
  set (x := @claimStep Demo.oracle Demo.infiniteGame "A" Demo.claim3).
  assert (totalCards x.1 = 66%nat) as Htotal by (vm_compute; reflexivity).
  assert (@reachable Demo.oracle (fun ids => NoDup ids) (x.1, x.2)) as Hreach.
  { rewrite <- surjective_pairing.
    apply claimStep_reachable; [apply claim3_distinct | apply start_reachable]. }
  apply Hall in Hreach. rewrite Htotal in Hreach. discriminate.
Qed.

(** ** Claims that name a card twice *)

(** C10. [claimSet] does not require the ids to be distinct: there is a
    reachable state with table cards a, b, c, d, the values of b, c, d
    XOR-ing to 0, where claiming [a, a, b, c, d] under 'cards' scoring
    succeeds with 5 points, puts a twice on the claimant's pile, takes it
    off the table once, and so raises the total number of cards by one. *)
Theorem claimSet_accepts_duplicate_ids :
  exists (s : GameState.t) (w : World.t) (p : PlayerId) (a b c d : CardInstance.t),
    @reachable Demo.oracle anyClaim (s, w)
    /\ Settings.scoringMode (GameState.settings s) = Some cards
    /\ NoDup (CardInstance.id <$> [a; b; c; d])
    /\ Forall (fun x => x ∈ GameState.activeCards s) [a; b; c; d]
    /\ Z.lxor (Z.lxor (CardInstance.value b) (CardInstance.value c))
              (CardInstance.value d)
       = 0
    /\ exists s' w',
         let ids := CardInstance.id <$> [a; a; b; c; d] in
         @Game.claimSet Demo.oracle s p ids w = ((s', 5), w')
         /\ pileOf s p = []
         /\ pileOf s' p = [a; a; b; c; d]
         /\ length (filter (fun x => x = a) (GameState.activeCards s)) = 1%nat
         /\ (a ∉ GameState.activeCards s')
         /\ totalCards s' = (totalCards s + 1)%nat.
Proof.
  exists Demo.finiteGame.1, Demo.finiteGame.2, "A"%string,
    (CardInstance.mk "card_60" 61), (CardInstance.mk "card_0" 1),
    (CardInstance.mk "card_62" 63), (CardInstance.mk "card_61" 62).
  split; [rewrite <- surjective_pairing; apply start_reachable |].
  split; [reflexivity |].
  split; [refine (bool_decide_unpack _ _); vm_compute; exact I |].
  split; [refine (bool_decide_unpack _ _); vm_compute; exact I |].
  split; [reflexivity |].
  exists (@claimStep Demo.oracle Demo.finiteGame "A" Demo.claim5).1,
    (@claimStep Demo.oracle Demo.finiteGame "A" Demo.claim5).2.
  cbv zeta.
  split; [vm_compute; reflexivity |].
  split; [vm_compute; reflexivity |].
  split; [vm_compute; reflexivity |].
  split; [vm_compute; reflexivity |].
  split; [| vm_compute; reflexivity].
  refine (bool_decide_unpack _ _). vm_compute. exact I.
Qed.

(** ** Claims on cards that left the table *)

Section RaceFacts.
Context `{!Oracle}.

Lemma list_find_imap {A} (P : A -> Prop) `{!forall x, Decision (P x)}
    (f : nat -> A -> A) (l : list A) :
  (forall j x, P (f j x) <-> P x) ->
  list_find P (imap f l) = (fun jx => (jx.1, f jx.1 jx.2)) <$> list_find P l.
Proof.
  intros Hf. destruct (list_find P l) as [[j x]|] eqn:Hfind.
  - apply list_find_Some in Hfind as (Hj & HP & Hbefore).
    cbn [fmap option_fmap option_map fst snd].
    apply list_find_Some. split; [| split].
    + by rewrite list_lookup_imap, Hj.
    + by apply Hf.
    + intros k y Hk Hlt. rewrite list_lookup_imap in Hk.
      destruct (l !! k) as [x'|] eqn:Hx'; [| done].
      injection Hk as <-. rewrite Hf. by eapply Hbefore.
  - apply list_find_None in Hfind. apply list_find_None.
    apply Forall_forall. intros y (k & x' & -> & Hk)%elem_of_lookup_imap.
    rewrite Hf. eapply Forall_forall in Hfind; [done |].
    by eapply list_elem_of_lookup_2.
Qed.

Lemma filter_none {A} (P : A -> Prop) `{!forall x, Decision (P x)} (l : list A) :
  Forall (fun x => ~ P x) l -> filter P l = [].
Proof.
  induction 1 as [|x l Hx _ IH]; [done |].
  by rewrite filter_cons_False.
Qed.

(** [claimSet] finds the players where they were. *)
Lemma findPlayer_afterClaim i claimed ids pts ps q :
  Game.findPlayer (playersAfterClaim i claimed ids pts ps) q
  = (fun jp =>
       (jp.1,
        if decide (jp.1 = i)
        then Player.mk (Player.id jp.2) (Player.name jp.2)
               (Player.playerNumber jp.2) (Player.color jp.2)
               (Player.claimedCards jp.2 ++ claimed) []
               (Player.score jp.2 + pts) (Player.isConnected jp.2)
               (Player.isReady jp.2)
        else Game.withSelection jp.2
               (filter (fun c => c ∉ ids) (Player.selectedCardIds jp.2))))
      <$> Game.findPlayer ps q.
Proof.
  unfold Game.findPlayer, playersAfterClaim.
  rewrite list_find_imap; [done |].
  intros j x. by destruct (decide (j = i)).
Qed.

Lemma findCard_on_table cs i :
  i ∈ CardInstance.id <$> cs -> is_Some (Game.findCard cs i).
Proof.
  intros Hi. destruct (Game.findCard cs i) eqn:Hf; [eauto |].
  by apply findCard_None in Hf.
Qed.

Lemma claimedOf_all_on_table s ids :
  Forall (fun i => i ∈ CardInstance.id <$> GameState.activeCards s) ids ->
  length (claimedOf s ids) = length ids.
Proof.
  unfold claimedOf. induction 1 as [|i ids Hi _ IH]; [done |].
  rewrite omap_cons. destruct (findCard_on_table _ _ Hi) as [c ->].
  cbn [length]. by rewrite IH.
Qed.

(** A claim that names a card which is not on the table fails. *)
Lemma stale_claim_fails s p ids w i :
  i ∈ ids -> i ∉ CardInstance.id <$> GameState.activeCards s ->
  Game.claimSet s p ids w = ((s, 0), w).
Proof.
  intros Hi Hgone. apply claimSet_fail. intros (_ & Hlen & _).
  apply claimedOf_found in Hlen. rewrite Forall_forall in Hlen.
  destruct (Hlen i Hi) as [c [Hc <-]%findCard_Some].
  apply Hgone. by apply list_elem_of_fmap_2.
Qed.

(** The ids of a valid claim name no card in circulation afterwards. *)
Lemma claimed_ids_leave s p ids w s' pts w' :
  Inj (=) (=) idOf -> wellFormed w s ->
  Game.claimSet s p ids w = ((s', pts), w') -> pts <> 0 ->
  forall c, c ∈ circulating s' -> CardInstance.id c ∉ ids.
Proof.
  intros Hinj [Hnd Hall] Hrun Hpts.
  destruct (claimSet_cases _ _ _ _ _ _ _ Hrun)
    as [(-> & _) | (Hvalid & _ & _ & i & pl & deck1 & newCards & newDeck
                    & Hfind & Hrefill & Hdeal & ->)]; [done |].
  destruct Hvalid as (_ & Hlen & _).
  assert (forall x, x ∈ ids -> x ∈ CardInstance.id <$> GameState.activeCards s)
    as Hon.
  { intros x Hx. pose proof (claimedOf_found s ids Hlen) as Hf.
    rewrite Forall_forall in Hf.
    destruct (Hf x Hx) as [c [Hc <-]%findCard_Some].
    by apply list_elem_of_fmap_2. }
  unfold circulating in Hnd, Hall. rewrite fmap_app in Hnd.
  apply NoDup_app in Hnd as (_ & Hdisj & _).
  apply Forall_app in Hall as [_ Hall].
  intros c Hc.
  assert (c ∈ deck1 ++ remainingOf s ids) as [Hd|Hr]%elem_of_app.
  { unfold circulating in Hc. cbn [GameState.deck GameState.activeCards] in Hc.
    by rewrite (circulating_after_deal _ _ _ _ _ Hdeal) in Hc. }
  - intros Hid. apply Hon in Hid.
    unfold refill in Hrefill.
    destruct (Settings.infiniteDeck (GameState.settings s)).
    + apply returnCardsToDeck_spec in Hrefill as [Hperm _].
      rewrite Hperm in Hd. apply elem_of_app in Hd as [Hd|Hd].
      * eapply Hdisj; [| exact Hid]. by apply list_elem_of_fmap_2.
      * assert (CardInstance.id c
                ∈ idOf <$> seq (World.minted w) (length (claimedOf s ids)))
          as Hfresh.
        { rewrite <- (minted_ids _ (fun _ c => CardInstance.value c)).
          by apply list_elem_of_fmap_2. }
        apply (fresh_ids_new Hinj) in Hfresh. apply Hfresh.
        apply list_elem_of_fmap in Hid as (c' & -> & Hc').
        by eapply Forall_forall in Hall.
    + injection Hrefill as <- <-.
      eapply Hdisj; [| exact Hid]. by apply list_elem_of_fmap_2.
  - by apply (remainingOf_ids s).
Qed.

End RaceFacts.

(** ** The game manager *)

Section ManagerFacts.
Context `{!Oracle}.

(** The manager reports a claim without points as not-a-valid-set and
    leaves the game as it is. *)
Lemma manager_claim_rejected games code game p ids w :
  games !! code = Some game ->
  Game.claimSet (GameInstance.state game) p ids w
  = ((GameInstance.state game, 0), w) ->
  GameManager.claimSet games code p ids w
  = ((Err NOT_A_VALID_SET "Not a valid set", games), w).
Proof.
  intros Hgame Hrun. unfold GameManager.claimSet, bind.
  by rewrite Hgame, Hrun.
Qed.

(** The manager accepts a claim with points; the game it keeps has the
    table and the players of the engine's result. *)
Lemma manager_claim_accepted games code game p ids w s' pts w' :
  games !! code = Some game ->
  Game.claimSet (GameInstance.state game) p ids w = ((s', pts), w') ->
  pts <> 0 ->
  exists ok games' game',
    GameManager.claimSet games code p ids w = ((Ok ok, games'), w')
    /\ ClaimOk.pointsAwarded ok = pts
    /\ ClaimOk.claimedCardIds ok = ids
    /\ games' !! code = Some game'
    /\ GameState.activeCards (GameInstance.state game') = GameState.activeCards s'
    /\ GameState.players (GameInstance.state game') = GameState.players s'
    /\ GameInstance.pendingSet game' = GameInstance.pendingSet game.
Proof.
  intros Hgame Hrun Hpts. unfold GameManager.claimSet, bind.
  rewrite Hgame, Hrun.
  destruct (Z.eqb_spec pts 0) as [|_]; [done |].
  destruct (Game.checkGameEnd s') as [reason|].
  - unfold ret, GameManager.stopGameLoop. rewrite lookup_insert_eq.
    cbn [GameInstance.loopInterval GameInstance.state GameInstance.pendingSet].
    destruct (GameInstance.loopInterval game).
    + eexists _, _, _. split; [done |]. rewrite lookup_insert_eq. done.
    + eexists _, _, _. split; [done |]. rewrite lookup_insert_eq. done.
  - unfold ret. eexists _, _, _. split; [done |]. rewrite lookup_insert_eq. done.
Qed.

End ManagerFacts.

(** ** The claim race *)

(** C1. In a well-formed state where players A and B both selected the
    three table cards c1, c2, c3 (in any order), which form a valid set,
    A's [claimSet] awards points, appends the three cards to A's pile,
    takes them off the table and empties B's selection; B's [claimSet] for
    the same ids, run next, returns that state unchanged with 0 points.
    Through the game manager, A's claim is accepted and B's is answered
    NOT_A_VALID_SET with the games unchanged. *)
Theorem first_claim_wins `{!Oracle} (s : GameState.t) (w : World.t)
    (A B : PlayerId) (c1 c2 c3 : CardId) :
  let ids := [c1; c2; c3] in
  Inj (=) (=) idOf -> wellFormed w s ->
  A <> B ->
  is_Some (Game.findPlayer (GameState.players s) A) ->
  is_Some (Game.findPlayer (GameState.players s) B) ->
  selectionOf s A ≡ₚ ids -> selectionOf s B ≡ₚ ids ->
  Forall (fun i => i ∈ CardInstance.id <$> GameState.activeCards s) ids ->
  Validation.isValidSet (CardInstance.value <$> claimedOf s ids) = true ->
  exists s1 ptsA w1,
    Game.claimSet s A ids w = ((s1, ptsA), w1)
    /\ 0 < ptsA
    /\ pileOf s1 A = pileOf s A ++ claimedOf s ids
    /\ (forall c, c ∈ GameState.activeCards s1 -> CardInstance.id c ∉ ids)
    /\ selectionOf s1 B = []
    /\ Game.claimSet s1 B ids w1 = ((s1, 0), w1)
    /\ forall games code game,
         games !! code = Some game -> GameInstance.state game = s ->
         exists ok games1,
           GameManager.claimSet games code A ids w = ((Ok ok, games1), w1)
           /\ ClaimOk.pointsAwarded ok = ptsA
           /\ GameManager.claimSet games1 code B ids w1
              = ((Err NOT_A_VALID_SET "Not a valid set", games1), w1).
Proof.
  intros ids Hinj Hwf HAB [[iA pA] HfA] [[iB pB] HfB] HselA HselB Hon Hset.
  assert (claimValid s A ids) as Hvalid.
  { split; [by rewrite HfA |]. split; [by apply claimedOf_all_on_table | done]. }
  destruct (claimSet_success s A ids w iA pA Hvalid HfA)
    as (deck1 & w1 & newCards & newDeck & Hrefill & Hdeal & Hrun).
  set (ptsA := pointsFor s (claimedOf s ids)) in *.
  set (s1 := GameState.mk _ _ _ _ _ _ _ _ _) in Hrun.
  assert (0 < ptsA) as Hpts by by apply pointsFor_pos.
  assert (forall c, c ∈ GameState.activeCards s1 -> CardInstance.id c ∉ ids)
    as Hgone.
  { intros c Hc.
    apply (claimed_ids_leave s A ids w s1 ptsA w1 Hinj Hwf Hrun); [lia |].
    unfold circulating. apply elem_of_app. by right. }
  assert (forall s2 w2, GameState.activeCards s2 = GameState.activeCards s1 ->
            Game.claimSet s2 B ids w2 = ((s2, 0), w2)) as Hstale.
  { intros s2 w2 Hs2. apply (stale_claim_fails s2 B ids w2 c1).
    - unfold ids. by left.
    - rewrite Hs2. intros (c & Hid & Hc)%list_elem_of_fmap.
      apply (Hgone c Hc). rewrite <- Hid. unfold ids. by left. }
  assert (iB <> iA) as Hne.
  { intros ->. apply list_find_Some in HfA as (HA & <- & _).
    apply list_find_Some in HfB as (HB & <- & _). congruence. }
  exists s1, ptsA, w1. split; [done |]. split; [done |]. split; [| split; [done |]].
  { unfold pileOf. cbn [s1 GameState.players].
    rewrite findPlayer_afterClaim, HfA. cbn [fmap option_fmap option_map fst snd].
    by rewrite decide_True. }
  split.
  { unfold selectionOf in *. cbn [s1 GameState.players].
    rewrite findPlayer_afterClaim, HfB. cbn [fmap option_fmap option_map fst snd].
    rewrite decide_False by done. cbn [Game.withSelection Player.selectedCardIds].
    rewrite HfB in HselB.
    apply filter_none, Forall_forall. intros x Hx Hnot.
    apply Hnot. by rewrite <- HselB. }
  split; [by apply Hstale |].
  intros games code game Hgame Hstate. subst s.
  destruct (manager_claim_accepted games code game A ids w s1 ptsA w1 Hgame Hrun)
    as (ok & games1 & game1 & HrunA & Hok & _ & Hgame1 & Hact & _); [lia |].
  exists ok, games1. split; [done |]. split; [done |].
  apply (manager_claim_rejected games1 code game1); [done |].
  by apply Hstale.
Qed.

Lemma first_claim_wins_witness :
  exists s1 ptsA w1,
    @Game.claimSet Demo.oracle Demo.raceState "A" Demo.claim3 Demo.finiteGame.2
    = ((s1, ptsA), w1)
    /\ 0 < ptsA
    /\ selectionOf s1 "B" = []
    /\ @Game.claimSet Demo.oracle s1 "B" Demo.claim3 w1 = ((s1, 0), w1).
Proof.
  destruct (@first_claim_wins Demo.oracle Demo.raceState Demo.finiteGame.2
              "A" "B" "card_0" "card_62" "card_61")
    as (s1 & ptsA & w1 & HrunA & Hpts & _ & _ & HselB & HrunB & _).
  - exact demo_ids_distinct.
  - split; refine (bool_decide_unpack _ _); vm_compute; exact I.
  - discriminate.
  - refine (bool_decide_unpack _ _). vm_compute. exact I.
  - refine (bool_decide_unpack _ _). vm_compute. exact I.
  - vm_compute. reflexivity.
  - vm_compute. reflexivity.
  - refine (bool_decide_unpack _ _). vm_compute. exact I.
  - vm_compute. reflexivity.
  - exists s1, ptsA, w1. exact (conj HrunA (conj Hpts (conj HselB HrunB))).
Defined.

(** ** Toggling a card twice *)

Section ToggleFacts.

Lemma list_find_insert_same {A} (P : A -> Prop) `{!forall x, Decision (P x)}
    (l : list A) i x y :
  list_find P l = Some (i, x) -> P y ->
  list_find P (<[i := y]> l) = Some (i, y).
Proof.
  intros (Hi & HP & Hbefore)%list_find_Some Hy.
  apply list_find_Some. split; [| split; [done |]].
  - apply list_lookup_insert_eq. by eapply lookup_lt_Some.
  - intros j z Hj Hlt. rewrite list_lookup_insert_ne in Hj by lia.
    by eapply Hbefore.
Qed.

Lemma filter_all {A} (P : A -> Prop) `{!forall x, Decision (P x)} (l : list A) :
  Forall P l -> filter P l = l.
Proof.
  induction 1 as [|x l Hx _ IH]; [done |].
  by rewrite filter_cons_True, IH.
Qed.

Lemma withSelection_same pl : Game.withSelection pl (Player.selectedCardIds pl) = pl.
Proof. by destruct pl. Qed.

Lemma withSelection_twice pl sel sel' :
  Game.withSelection (Game.withSelection pl sel) sel' = Game.withSelection pl sel'.
Proof. done. Qed.

Lemma withPlayers_twice s ps ps' :
  Game.withPlayers (Game.withPlayers s ps) ps' = Game.withPlayers s ps'.
Proof. done. Qed.

Lemma withPlayers_same s : Game.withPlayers s (GameState.players s) = s.
Proof. by destruct s. Qed.

(** One toggle of a card on the table by a player of the game. *)
Lemma toggle_once s p c i pl :
  Game.findPlayer (GameState.players s) p = Some (i, pl) ->
  c ∈ CardInstance.id <$> GameState.activeCards s ->
  Game.toggleCardSelection s p c
  = Game.withPlayers s
      (<[i := Game.withSelection pl
                (if bool_decide (c ∈ Player.selectedCardIds pl)
                 then filter (fun x => x <> c) (Player.selectedCardIds pl)
                 else Player.selectedCardIds pl ++ [c])]>
         (GameState.players s)).
Proof.
  intros Hfind Hon. unfold Game.toggleCardSelection. rewrite Hfind.
  rewrite bool_decide_eq_true_2; [done |].
  apply Exists_exists.
  apply list_elem_of_fmap in Hon as (card & -> & Hcard). eauto.
Qed.

Lemma toggle_twice_general s p c i pl :
  Game.findPlayer (GameState.players s) p = Some (i, pl) ->
  c ∈ CardInstance.id <$> GameState.activeCards s ->
  Game.toggleCardSelection (Game.toggleCardSelection s p c) p c
  = Game.withPlayers s
      (<[i := Game.withSelection pl
                (if bool_decide (c ∈ Player.selectedCardIds pl)
                 then filter (fun x => x <> c) (Player.selectedCardIds pl) ++ [c]
                 else Player.selectedCardIds pl)]>
         (GameState.players s)).
Proof.
  intros Hfind Hon. rewrite (toggle_once s p c i pl) by done.
  set (sel1 := if bool_decide _ then _ else _).
  assert (Player.id (Game.withSelection pl sel1) = p) as Hid.
  { by apply list_find_Some in Hfind as (_ & ? & _). }
  rewrite (toggle_once _ p c i (Game.withSelection pl sel1)).
  - rewrite withPlayers_twice. cbn [Game.withPlayers GameState.players].
    rewrite list_insert_insert_eq, withSelection_twice.
    cbn [Game.withSelection Player.selectedCardIds].
    do 3 f_equal. unfold sel1.
    destruct (decide (c ∈ Player.selectedCardIds pl)) as [Hin|Hout].
    + rewrite (bool_decide_eq_true_2 _ Hin).
      rewrite bool_decide_eq_false_2; [done |].
      by intros [? _]%list_elem_of_filter.
    + rewrite (bool_decide_eq_false_2 _ Hout).
      rewrite bool_decide_eq_true_2 by (apply elem_of_app; right; by left).
      rewrite filter_app, filter_all.
      * rewrite filter_cons_False by (intros ?; done).
        by rewrite filter_nil, app_nil_r.
      * apply Forall_forall. intros x Hx ->. done.
  - cbn [Game.withPlayers GameState.players].
    by apply (list_find_insert_same _ _ _ pl).
  - done.
Qed.

End ToggleFacts.

(** C5, amended. For every state, player [p] of the state and card [c]
    on the table: when [p] has not selected [c], toggling [c] twice
    restores the exact state; when [p] has selected [c], toggling it twice
    restores the state except that [c] moves to the end of [p]'s
    [selectedCardIds], which keeps the same members. *)
Theorem toggle_twice (s : GameState.t) (p : PlayerId) (c : CardId)
    (i : nat) (pl : Player.t) :
  Game.findPlayer (GameState.players s) p = Some (i, pl) ->
  c ∈ CardInstance.id <$> GameState.activeCards s ->
  (c ∉ Player.selectedCardIds pl ->
   Game.toggleCardSelection (Game.toggleCardSelection s p c) p c = s)
  /\ (c ∈ Player.selectedCardIds pl ->
      let moved := filter (fun x => x <> c) (Player.selectedCardIds pl) ++ [c] in
      Game.toggleCardSelection (Game.toggleCardSelection s p c) p c
      = Game.withPlayers s
          (<[i := Game.withSelection pl moved]> (GameState.players s))
      /\ forall x, x ∈ moved <-> x ∈ Player.selectedCardIds pl).
Proof.
  intros Hfind Hon. rewrite (toggle_twice_general s p c i pl) by done. split.
  - intros Hout. rewrite (bool_decide_eq_false_2 _ Hout).
    rewrite withSelection_same, list_insert_id.
    + apply withPlayers_same.
    + by apply list_find_Some in Hfind as (? & _).
  - intros Hin moved. rewrite (bool_decide_eq_true_2 _ Hin). split; [done |].
    intros x. unfold moved. rewrite elem_of_app, list_elem_of_filter, list_elem_of_singleton.
    split.
    + intros [[_ ?] | ->]; done.
    + intros Hx. destruct (decide (x = c)); [by right | by left].
Qed.

Lemma toggle_twice_witness :
  Game.toggleCardSelection
    (Game.toggleCardSelection Demo.selectedState "player1" "card3")
    "player1" "card3"
  = Demo.selectedState.
Proof.
  refine (proj1 (toggle_twice Demo.selectedState "player1" "card3" 0
                   (Player.mk "player1" "Player1" 1 "#3B82F6" []
                      ["card1"; "card2"] 0 true true) _ _) _).
  - vm_compute. reflexivity.
  - refine (bool_decide_unpack _ _). vm_compute. exact I.
  - refine (bool_decide_unpack _ _). vm_compute. exact I.
Defined.

(** C5, as stated, fails: player1 selected card1 and then card2; toggling
    card1 twice leaves the selection [card2, card1]. *)
Lemma toggle_twice_counterexample :
  is_Some (Game.findPlayer (GameState.players Demo.selectedState) "player1")
  /\ "card1"%string ∈ CardInstance.id <$> GameState.activeCards Demo.selectedState
  /\ selectionOf Demo.selectedState "player1" = ["card1"; "card2"]%string
  /\ selectionOf
       (Game.toggleCardSelection
          (Game.toggleCardSelection Demo.selectedState "player1" "card1")
          "player1" "card1") "player1"
     = ["card2"; "card1"]%string
  /\ Game.toggleCardSelection
       (Game.toggleCardSelection Demo.selectedState "player1" "card1")
       "player1" "card1"
     <> Demo.selectedState.
Proof.
  split; [refine (bool_decide_unpack _ _); vm_compute; exact I |].
  split; [refine (bool_decide_unpack _ _); vm_compute; exact I |].
  split; [vm_compute; reflexivity |].
  split; [vm_compute; reflexivity |].
  intros Heq. apply (f_equal (fun s => selectionOf s "player1")) in Heq.
  vm_compute in Heq. discriminate.
Qed.

(** ** Confirming a pending set *)

Section ConfirmFacts.
Context `{!Oracle}.

(** The manager's [claimSet] either rejects the claim and leaves the
    games alone, or accepts it and keeps the pending slot of the game. *)
Lemma manager_claim_cases games code game p ids w r games' w' :
  games !! code = Some game ->
  GameManager.claimSet games code p ids w = ((r, games'), w') ->
  (r = Err NOT_A_VALID_SET "Not a valid set" /\ games' = games /\ w' = w)
  \/ (exists ok game',
        r = Ok ok /\ games' !! code = Some game'
        /\ GameInstance.pendingSet game' = GameInstance.pendingSet game).
Proof.
  intros Hgame Hrun.
  destruct (Game.claimSet (GameInstance.state game) p ids w)
    as [[s1 pts] w1] eqn:Hclaim.
  destruct (decide (pts = 0)) as [->|Hpts].
  - left.
    destruct (claimSet_cases _ _ _ _ _ _ _ Hclaim)
      as [(_ & -> & -> & _) | (_ & _ & ? & _)]; [| lia].
    rewrite (manager_claim_rejected _ _ _ _ _ _ Hgame Hclaim) in Hrun.
    by injection Hrun as <- <- <-.
  - right.
    destruct (manager_claim_accepted _ _ _ _ _ _ _ _ _ Hgame Hclaim Hpts)
      as (ok & games1 & game1 & Hrun1 & _ & _ & Hgame1 & _ & _ & Hpend).
    rewrite Hrun1 in Hrun. injection Hrun as <- <- <-. eauto.
Qed.

End ConfirmFacts.

(** C4, amended. When [confirmSet] is called by the player who holds the
    pending set, the pending slot is cleared if the delegated claim
    succeeds; if the claim fails, the call returns the claim's error
    (NOT_A_VALID_SET) and leaves the games, and so the pending slot, as
    they were. *)
Theorem confirmSet_pending_slot `{!Oracle}
    (games : gmap string GameInstance.t) (code : string)
    (game : GameInstance.t) (pending : PendingSet.t) (p : PlayerId)
    (w : World.t) (r : Result ClaimOk.t) (games' : gmap string GameInstance.t)
    (w' : World.t) :
  games !! code = Some game ->
  GameInstance.pendingSet game = Some pending ->
  PendingSet.playerId pending = p ->
  GameManager.confirmSet games code p w = ((r, games'), w') ->
  match r with
  | Ok _ =>
      exists game', games' !! code = Some game'
                    /\ GameInstance.pendingSet game' = None
  | Err error _ =>
      error = NOT_A_VALID_SET /\ games' = games
      /\ (GameInstance.pendingSet <$> games' !! code) = Some (Some pending)
  end.
Proof.
  intros Hgame Hpending Hp. unfold GameManager.confirmSet.
  rewrite Hgame, Hpending, bool_decide_eq_true_2 by done. cbn [negb].
  unfold bind.
  destruct (GameManager.claimSet games code p (PendingSet.cardIds pending) w)
    as [[r1 games1] w1] eqn:Hclaim.
  destruct (manager_claim_cases _ _ _ _ _ _ _ _ _ Hgame Hclaim)
    as [(-> & -> & ->) | (ok & game1 & -> & Hgame1 & Hpend1)].
  - unfold ret. intros [= <- <- <-]. split; [done |]. split; [done |].
    by rewrite Hgame, <- Hpending.
  - unfold ret, GameManager.clearPending. rewrite Hgame1.
    intros [= <- <- <-]. eexists. by rewrite lookup_insert_eq.
Qed.

Lemma confirmSet_pending_slot_witness :
  exists ok games' w',
    @GameManager.confirmSet Demo.oracle Demo.confirmableGames "test-confirm"
      "player1" Demo.w0 = ((Ok ok, games'), w')
    /\ exists game', games' !! "test-confirm"%string = Some game'
                     /\ GameInstance.pendingSet game' = None.
Proof.
  destruct (@GameManager.confirmSet Demo.oracle Demo.confirmableGames
              "test-confirm" "player1" Demo.w0) as [[r games'] w'] eqn:Hrun.
  assert (isError r = false) as Hok.
  { replace r with (@GameManager.confirmSet Demo.oracle Demo.confirmableGames
                      "test-confirm" "player1" Demo.w0).1.1 by by rewrite Hrun.
    vm_compute. reflexivity. }
  pose proof (@confirmSet_pending_slot Demo.oracle Demo.confirmableGames
                "test-confirm"
                (GameInstance.mk Demo.knownState (Some Demo.validPending) None)
                Demo.validPending "player1" Demo.w0 r games' w'
                eq_refl eq_refl eq_refl Hrun) as Hslot.
  destruct r as [ok | error message]; [| discriminate].
  exists ok, games', w'. split; [reflexivity | exact Hslot].
Defined.

(** C4, as stated, fails: player1 holds a pending set that is not a valid
    set; the confirm is authorized, the claim fails, and the pending set is
    still held afterwards. *)
Lemma confirmSet_pending_slot_counterexample :
  let run := @GameManager.confirmSet Demo.oracle Demo.pendingGames
               "test-confirm" "player1" Demo.w0 in
  (GameInstance.pendingSet <$> Demo.pendingGames !! "test-confirm"%string)
  = Some (Some Demo.stalePending)
  /\ PendingSet.playerId Demo.stalePending = "player1"%string
  /\ run.1.1 = Err NOT_A_VALID_SET "Not a valid set"
  /\ (GameInstance.pendingSet <$> run.1.2 !! "test-confirm"%string)
     = Some (Some Demo.stalePending).
Proof.
  cbv zeta. split; [vm_compute; reflexivity |]. split; [reflexivity |].
  split; vm_compute; reflexivity.
Qed.

(** ** Joining a lobby again *)

(** Below the maximum, [joinLobby] recognises a member: it returns the
    lobby and the existing membership and changes nothing. *)
Lemma joinLobby_member_below_maximum (config : Config.t)
    (lobbies : gmap string LobbyState.t) (code : string)
    (lobby : LobbyState.t) (playerId : PlayerId) (playerName : string)
    (i : nat) (existing : Player.t) :
  lobbies !! code = Some lobby ->
  list_find (fun p => Player.id p = playerId) (LobbyState.players lobby)
  = Some (i, existing) ->
  Z.of_nat (length (LobbyState.players lobby)) < Config.maxPlayersPerLobby config ->
  LobbyManager.joinLobby config lobbies code playerId playerName
  = (Ok (lobby, existing), lobbies).
Proof.
  intros Hlobby Hfind Hsize. unfold LobbyManager.joinLobby. rewrite Hlobby.
  destruct (Z.geb_spec (Z.of_nat (length (LobbyState.players lobby)))
              (Config.maxPlayersPerLobby config)); [lia |].
  by rewrite Hfind.
Qed.

(** C6. The code at the input on which it departs from the claim: with the
    default maximum of 8 players, p3 is a member of a lobby that holds 8
    players, and [joinLobby] for p3 answers LOBBY_FULL, where the claim has
    it return the lobby and the membership of p3.  The test of the capacity
    comes before the search for the member. *)
Lemma joinLobby_full_lobby_refuses_member :
  Demo.lobbies !! "ABCDEF"%string = Some Demo.fullLobby
  /\ "p3"%string ∈ Player.id <$> LobbyState.players Demo.fullLobby
  /\ Z.of_nat (length (LobbyState.players Demo.fullLobby))
     = Config.maxPlayersPerLobby Config.defaults
  /\ LobbyManager.joinLobby Config.defaults Demo.lobbies "ABCDEF" "p3" "Player3"
     = (Err LOBBY_FULL "Lobby is full", Demo.lobbies)
  /\ LobbyManager.joinLobby (Config.mk 100 9 6) Demo.lobbies "ABCDEF" "p3" "Other"
     = (Ok (Demo.fullLobby,
            Player.mk "p3" "Player3" 3 "#10B981" [] [] 0 true false),
        Demo.lobbies).
Proof.
  split; [vm_compute; reflexivity |].
  split; [refine (bool_decide_unpack _ _); vm_compute; exact I |].
  split; [vm_compute; reflexivity |].
  split; vm_compute; reflexivity.
Qed.

(** ** The end of the game *)

Section EndFacts.

Lemma expired_spec timer :
  Game.expired timer = true <-> exists t, timer = Some t /\ t <= 0.
Proof.
  destruct timer as [t|]; simpl.
  - rewrite Z.leb_le. split; [eauto | by intros (? & [= <-] & ?)].
  - split; [done | by intros (? & ? & _)].
Qed.

Lemma timerExpired_spec s :
  timerExpired s
  <-> Game.expired (GameState.gameTimeRemainingMs s) = true
      \/ Game.expired (GameState.turnTimeRemainingMs s) = true.
Proof. unfold timerExpired. by rewrite !expired_spec. Qed.

Lemma checkGameEnd_running s :
  ~ timerExpired s ->
  Game.checkGameEnd s
  = if (length (GameState.deck s) =? 0)%nat
       && negb (Settings.infiniteDeck (GameState.settings s))
    then if negb (Validation.hasValidSet
                    (CardInstance.value <$> GameState.activeCards s))
         then Some deck_empty else None
    else None.
Proof.
  rewrite timerExpired_spec. intros Hrun. unfold Game.checkGameEnd.
  destruct (Game.expired (GameState.gameTimeRemainingMs s)); [tauto |].
  destruct (Game.expired (GameState.turnTimeRemainingMs s)); [tauto |].
  done.
Qed.

End EndFacts.

(** C7. For every game state (with at most 30 cards on the table, all
    of them card values): [checkGameEnd] answers timer_expired when a
    configured timer is at or below 0; otherwise, when the deck is finite,
    it answers deck_empty exactly when the deck is empty and the table
    holds no valid set; otherwise it answers none.  With an empty finite
    deck and no expired timer, the table [1, 4, 16] gives deck_empty and
    the table [1, 2, 3] gives none. *)
Theorem checkGameEnd_semantics (s : GameState.t) :
  let values := CardInstance.value <$> GameState.activeCards s in
  (length values <= 30)%nat -> Forall isCard values ->
  (timerExpired s -> Game.checkGameEnd s = Some timer_expired)
  /\ (~ timerExpired s ->
      Settings.infiniteDeck (GameState.settings s) = false ->
      (Game.checkGameEnd s = Some deck_empty
       <-> GameState.deck s = [] /\ ~ validSetIn values))
  /\ (~ timerExpired s ->
      Game.checkGameEnd s <> Some deck_empty -> Game.checkGameEnd s = None)
  /\ (~ timerExpired s ->
      Settings.infiniteDeck (GameState.settings s) = true ->
      Game.checkGameEnd s = None)
  /\ (~ timerExpired s ->
      Settings.infiniteDeck (GameState.settings s) = false ->
      GameState.deck s = [] ->
      (values = [1; 4; 16] -> Game.checkGameEnd s = Some deck_empty)
      /\ (values = [1; 2; 3] -> Game.checkGameEnd s = None)).
Proof.
  intros values Hlen Hcards.
  assert (Validation.hasValidSet values = true <-> validSetIn values) as Hhas.
  { apply hasValidSet_validSetIn; [by apply Forall_isCard_small | done]. }
  split; [| split; [| split; [| split]]].
  - rewrite timerExpired_spec. unfold Game.checkGameEnd.
    destruct (Game.expired (GameState.gameTimeRemainingMs s)); [done |].
    destruct (Game.expired (GameState.turnTimeRemainingMs s)); [done |].
    by intros [|].
  - intros Hrun Hfinite. rewrite (checkGameEnd_running s Hrun), Hfinite.
    fold values. rewrite <- Hhas.
    destruct (GameState.deck s) as [|card deck]; simpl.
    + destruct (Validation.hasValidSet values); simpl.
      * split; [done | by intros [_ ?]].
      * split; [by intros _ | done].
    + split; [done | by intros [? _]].
  - intros Hrun Hnot. rewrite (checkGameEnd_running s Hrun) in *.
    destruct (_ && _); [| done].
    by destruct (negb _).
  - intros Hrun Hinf. rewrite (checkGameEnd_running s Hrun), Hinf.
    by rewrite andb_false_r.
  - intros Hrun Hfinite Hdeck.
    rewrite (checkGameEnd_running s Hrun), Hfinite, Hdeck. fold values.
    split; intros ->; vm_compute; reflexivity.
Qed.

Lemma checkGameEnd_semantics_witness :
  Game.checkGameEnd Demo.knownState = None.
Proof.
  destruct (checkGameEnd_semantics Demo.knownState) as (_ & Hiff & Hnone & _).
  - vm_compute. lia.
  - refine (bool_decide_unpack _ _). vm_compute. exact I.
  - assert (~ timerExpired Demo.knownState) as Hrun
      by (intros [(t & Ht & _) | (t & Ht & _)]; discriminate).
    apply (Hnone Hrun). intros Hend.
    apply (Hiff Hrun eq_refl) in Hend as [_ Hno]. apply Hno.
    exists [1; 2; 3]. split; [| split; [simpl; lia | reflexivity]].
    do 3 apply sublist_skip. apply sublist_nil_l.
Defined.

(** ** The deck service, operation by operation *)

Section DeckService.
Context `{!Oracle}.

Lemma shuffle_loop_draws {T} (i : nat) (l : list T) w :
  World.drawn (Deck.shuffle_loop i l w).2 = (World.drawn w + i)%nat
  /\ World.now (Deck.shuffle_loop i l w).2 = World.now w.
Proof.
  revert l w. induction i as [|i IH]; intros l w.
  - cbn. split; [lia | done].
  - cbn [Deck.shuffle_loop]. unfold bind, Deck.randomBelow.
    destruct (IH (Deck.swap (S i)
                    (rndOf (World.drawn w) mod (S i + 1))%nat l)
                (World.mk (World.minted w) (S (World.drawn w)) (World.now w)))
      as [Hd Hn].
    rewrite Hd, Hn. cbn [World.drawn World.now]. split; [lia | done].
Qed.

Lemma imap_values {A} m (l : list A) (v : Z) :
  CardInstance.value <$>
    imap (fun k _ => CardInstance.mk (idOf (m + k)%nat) (v + Z.of_nat k)) l
  = seqZ v (Z.of_nat (length l)).
Proof.
  revert m v. induction l as [|a l IH]; intros m v; [done |].
  rewrite imap_cons, fmap_cons. cbn [CardInstance.value length].
  rewrite Nat2Z.inj_succ, seqZ_cons by lia.
  rewrite Z.add_0_r, Z.pred_succ. f_equal.
  rewrite <- (IH (S m) (Z.succ v)). f_equal.
  apply imap_ext. intros k x _. unfold compose. f_equal; [f_equal |]; lia.
Qed.

Lemma remint_values m (l : list CardInstance.t) :
  CardInstance.value <$>
    imap (fun k card =>
            CardInstance.mk (idOf (m + k)%nat) (CardInstance.value card)) l
  = CardInstance.value <$> l.
Proof.
  revert m. induction l as [|a l IH]; intros m; [done |].
  rewrite imap_cons, !fmap_cons. cbn [CardInstance.value]. f_equal.
  rewrite <- (IH (S m)). f_equal.
  apply imap_ext. intros k x _. unfold compose. do 2 f_equal. lia.
Qed.

Lemma createDeck_values w :
  CardInstance.value <$> (Deck.createDeck w).1 = seqZ 1 63.
Proof.
  unfold Deck.createDeck. rewrite createDeck_loop_spec.
  cbn [fst app]. unfold DECK_SIZE.
  by rewrite imap_values, length_replicate.
Qed.

End DeckService.

(** X1. [dealCards] never fails: it deals [min(count, |deck|)] cards (none
    for a negative count), which are the last cards of the deck, the last
    one first, and leaves the cards before them. *)
Theorem dealCards_takes_from_the_end (deck : list CardInstance.t) (count : Z) :
  let r := Deck.dealCards deck count in
  deck = r.2 ++ reverse r.1
  /\ length r.1 = Nat.min (Z.to_nat count) (length deck).
Proof.
  intros r. apply dealCards_spec. unfold r. by destruct (Deck.dealCards deck count).
Qed.

(** X2. [shuffle] returns a permutation of its argument; it draws one random
    number for each position but the first and mints no id. *)
Theorem shuffle_permutes `{!Oracle} {T} (array : list T) (w : World.t) :
  let r := Deck.shuffle array w in
  r.1 ≡ₚ array
  /\ World.minted r.2 = World.minted w
  /\ World.drawn r.2 = (World.drawn w + (length array - 1))%nat.
Proof.
  intros r. unfold r.
  destruct (Deck.shuffle array w) as [l' w'] eqn:Hrun.
  destruct (shuffle_spec _ _ _ _ Hrun) as [Hperm Hm].
  split; [done |]. split; [done |].
  pose proof (shuffle_loop_draws (length array - 1) array w) as [Hd _].
  unfold Deck.shuffle in Hrun. by rewrite Hrun in Hd.
Qed.

(** X3. [createDeck] makes 63 cards with the values 1, 2, ..., 63 in this
    order, and gives them the next 63 ids of the supply. *)
Theorem createDeck_cards `{!Oracle} (w : World.t) :
  let r := Deck.createDeck w in
  CardInstance.value <$> r.1 = seqZ 1 63
  /\ CardInstance.id <$> r.1 = idOf <$> seq (World.minted w) 63
  /\ World.minted r.2 = (World.minted w + 63)%nat.
Proof.
  intros r. unfold r, Deck.createDeck. rewrite createDeck_loop_spec.
  cbn [fst snd app World.minted]. unfold DECK_SIZE. split; [| split; [| done]].
  - by rewrite imap_values, length_replicate.
  - rewrite (minted_ids _ (fun k _ => 1 + Z.of_nat k)).
    by rewrite length_replicate.
Qed.

(** X4. [returnCardsToDeck] leaves a permutation of the deck and of one new
    card for each returned card, with the value of that card and the next
    id of the supply. *)
Theorem returnCardsToDeck_reminted `{!Oracle}
    (deck cards : list CardInstance.t) (w : World.t) :
  let r := Deck.returnCardsToDeck deck cards w in
  exists fresh,
    r.1 ≡ₚ deck ++ fresh
    /\ CardInstance.value <$> fresh = CardInstance.value <$> cards
    /\ CardInstance.id <$> fresh = idOf <$> seq (World.minted w) (length cards)
    /\ World.minted r.2 = (World.minted w + length cards)%nat.
Proof.
  intros r. unfold r.
  destruct (Deck.returnCardsToDeck deck cards w) as [deck' w'] eqn:Hrun.
  apply returnCardsToDeck_spec in Hrun as [Hperm Hm].
  eexists. split; [exact Hperm |]. split; [apply remint_values |].
  split; [| done].
  apply (minted_ids _ (fun _ c => CardInstance.value c)).
Qed.

(** ** Invariants of the table *)

Section TableInvariants.
Context `{!Oracle}.

Lemma fresh_deal_seven w0 deck w1 active rest :
  Deck.createShuffledDeck w0 = (deck, w1) ->
  Deck.dealCards deck (Z.of_nat ACTIVE_CARD_COUNT) = (active, rest) ->
  length active = 7%nat /\ length rest = 56%nat
  /\ CardInstance.value <$> rest ++ active ≡ₚ seqZ 1 63.
Proof.
  unfold Deck.createShuffledDeck, bind. intros Hdeck Hdeal.
  destruct (Deck.createDeck w0) as [deck0 w0'] eqn:Hcreate.
  pose proof (createDeck_values w0) as Hvals.
  rewrite Hcreate in Hvals. cbn [fst] in Hvals.
  apply shuffle_spec in Hdeck as [Hperm _].
  apply dealCards_spec in Hdeal as [-> Hlen].
  assert (length deck0 = 63%nat) as Hlen0.
  { apply (f_equal length) in Hvals. by rewrite length_fmap, length_seqZ in Hvals. }
  pose proof (Permutation_length Hperm) as HlenP.
  rewrite length_app, length_reverse, Hlen0 in HlenP.
  rewrite length_app, length_reverse in Hlen.
  unfold ACTIVE_CARD_COUNT in Hlen. rewrite Nat2Z.id in Hlen.
  split; [lia |]. split; [lia |].
  rewrite <- Hvals, <- Hperm. by rewrite reverse_Permutation.
Qed.

Lemma claim_keeps_table_filled s deck1 newCards newDeck ids :
  (length (GameState.activeCards s) <= ACTIVE_CARD_COUNT)%nat ->
  Deck.dealCards deck1
    (Z.of_nat ACTIVE_CARD_COUNT - Z.of_nat (length (remainingOf s ids)))
  = (newCards, newDeck) ->
  (length (remainingOf s ids ++ newCards) <= ACTIVE_CARD_COUNT)%nat
  /\ ((length (remainingOf s ids ++ newCards) < ACTIVE_CARD_COUNT)%nat ->
      newDeck = []).
Proof.
  intros Hle [Hdeck Hlen]%dealCards_spec.
  assert (length (remainingOf s ids) <= length (GameState.activeCards s))%nat
    as Hrem by apply length_filter.
  apply (f_equal length) in Hdeck.
  rewrite length_app, length_reverse in Hdeck.
  rewrite length_app. unfold ACTIVE_CARD_COUNT in *.
  split; [lia |]. intros Hlt. apply nil_length_inv. lia.
Qed.

Lemma claimSet_tableFilled s p ids w s' pts w' :
  Game.claimSet s p ids w = ((s', pts), w') -> tableFilled s -> tableFilled s'.
Proof.
  intros Hrun [Hle Hdeck].
  destruct (claimSet_cases _ _ _ _ _ _ _ Hrun)
    as [(_ & -> & _) | (_ & _ & _ & i & pl & deck1 & newCards & newDeck
                        & _ & _ & Hdeal & ->)]; [done |].
  unfold tableFilled. cbn [GameState.activeCards GameState.deck].
  by eapply claim_keeps_table_filled.
Qed.

Lemma single_player_tableFilled pid name settings w0 s w :
  Game.createSinglePlayerGame pid name settings w0 = (s, w) -> tableFilled s.
Proof.
  unfold Game.createSinglePlayerGame, bind.
  destruct (Deck.createShuffledDeck w0) as [deck w1] eqn:Hdeck.
  destruct (Deck.dealCards deck (Z.of_nat ACTIVE_CARD_COUNT))
    as [active rest] eqn:Hdeal.
  unfold Game.dateNow, ret. intros [= <- <-].
  destruct (fresh_deal_seven _ _ _ _ _ Hdeck Hdeal) as (Ha & _).
  unfold tableFilled. cbn [GameState.activeCards GameState.deck].
  unfold ACTIVE_CARD_COUNT. split; lia.
Qed.

Lemma multiplayer_tableFilled players settings w0 s w :
  Game.createMultiplayerGame players settings w0 = (s, w) -> tableFilled s.
Proof.
  unfold Game.createMultiplayerGame, bind.
  destruct (Deck.createShuffledDeck w0) as [deck w1] eqn:Hdeck.
  destruct (Deck.dealCards deck (Z.of_nat ACTIVE_CARD_COUNT))
    as [active rest] eqn:Hdeal.
  unfold Game.dateNow, ret. intros [= <- <-].
  destruct (fresh_deal_seven _ _ _ _ _ Hdeck Hdeal) as (Ha & _).
  unfold tableFilled. cbn [GameState.activeCards GameState.deck].
  unfold ACTIVE_CARD_COUNT. split; lia.
Qed.

Lemma step_tableFilled okClaim x y :
  step okClaim x y -> tableFilled x.1 -> tableFilled y.1.
Proof.
  intros Hstep Hx.
  destruct Hstep as [s w p c | s w p ids s' pts w' Hids Hrun | s w p | | |];
    cbn [fst snd] in *; try exact Hx.
  - unfold Game.toggleCardSelection.
    destruct (Game.findPlayer _ _) as [[i pl]|]; [| exact Hx].
    destruct (negb _); exact Hx.
  - by eapply claimSet_tableFilled.
  - unfold Game.clearSelection.
    destruct (Game.findPlayer _ _) as [[i pl]|]; exact Hx.
Qed.

Lemma reachable_tableFilled okClaim x : reachable okClaim x -> tableFilled x.1.
Proof.
  induction 1 as [pid name settings w0 s w Hrun
                 | players settings w0 s w Hrun
                 | x y _ IH Hstep].
  - by eapply single_player_tableFilled.
  - by eapply multiplayer_tableFilled.
  - by eapply step_tableFilled.
Qed.

Lemma fmap_imap_same {A B C} (g : B -> C) (h : A -> C) (f : nat -> A -> B) l :
  (forall j x, g (f j x) = h x) -> g <$> imap f l = h <$> l.
Proof.
  revert f. induction l as [|a l IH]; intros f Hf; [done |].
  rewrite imap_cons, !fmap_cons, Hf. f_equal. apply IH. intros j x. apply Hf.
Qed.

Lemma fmap_imap_count {A B} (g : B -> Z) (f : nat -> A -> B) (a : Z) l :
  (forall j x, g (f j x) = a + Z.of_nat j) ->
  g <$> imap f l = seqZ a (Z.of_nat (length l)).
Proof.
  revert f a. induction l as [|x l IH]; intros f a Hf; [done |].
  rewrite imap_cons, fmap_cons, Hf. cbn [length].
  rewrite Nat2Z.inj_succ, seqZ_cons by lia.
  rewrite Z.add_0_r, Z.pred_succ. f_equal.
  apply IH. intros j y. unfold compose. rewrite Hf. lia.
Qed.

End TableInvariants.

Lemma games_start_fresh `{!Oracle} (players : list Player.t)
    (playerId : PlayerId) (playerName : string) (settings : Settings.t)
    (w : World.t) :
  let fresh (s : GameState.t) :=
    GameState.phase s = playing
    /\ length (GameState.activeCards s) = 7%nat
    /\ length (GameState.deck s) = 56%nat
    /\ CardInstance.value <$> circulating s ≡ₚ seqZ 1 63
    /\ Forall (fun p => Player.claimedCards p = [] /\ Player.selectedCardIds p = []
                        /\ Player.score p = 0) (GameState.players s)
    /\ GameState.settings s = settings
    /\ GameState.turnTimeRemainingMs s
       = TimerConfig.durationMs <$> Settings.turnTimer settings
    /\ GameState.gameTimeRemainingMs s
       = TimerConfig.durationMs <$> Settings.gameTimer settings in
  let m := (Game.createMultiplayerGame players settings w).1 in
  let s1 := (Game.createSinglePlayerGame playerId playerName settings w).1 in
  fresh m /\ fresh s1
  /\ Player.id <$> GameState.players m = Player.id <$> players
  /\ Player.playerNumber <$> GameState.players m
     = seqZ 1 (Z.of_nat (length players))
  /\ Player.id <$> GameState.players s1 = [playerId].
Proof.
  intros fresh m s1. subst m s1.
  unfold Game.createMultiplayerGame, Game.createSinglePlayerGame, bind.
  destruct (Deck.createShuffledDeck w) as [deck w1] eqn:Hdeck.
  destruct (Deck.dealCards deck _) as [active rest] eqn:Hdeal.
  destruct (fresh_deal_seven _ _ _ _ _ Hdeck Hdeal) as (Ha & Hr & Hv).
  cbn [fst Game.dateNow ret]. unfold fresh, circulating.
  cbn [GameState.phase GameState.activeCards GameState.deck GameState.players
         GameState.settings GameState.turnTimeRemainingMs
         GameState.gameTimeRemainingMs].
  split; [| split; [| split; [| split]]].
  - refine (conj eq_refl (conj Ha (conj Hr (conj Hv
              (conj _ (conj eq_refl (conj eq_refl eq_refl))))))).
    apply Forall_forall. intros p (j & q & -> & _)%elem_of_lookup_imap.
    repeat split.
  - refine (conj eq_refl (conj Ha (conj Hr (conj Hv
              (conj _ (conj eq_refl (conj eq_refl eq_refl))))))).
    apply Forall_singleton. repeat split.
  - apply fmap_imap_same. reflexivity.
  - apply fmap_imap_count. intros j x. cbn [Player.playerNumber]. lia.
  - reflexivity.
Qed.

(** X5. A game made by [createSinglePlayerGame] or [createMultiplayerGame]
    is in phase playing, has 7 cards on the table and 56 in the deck, which
    together carry each of the values 1..63 once; no player has a claimed
    card, a selection or a point, and in a multiplayer game the players
    keep their ids and are numbered 1, 2, ... in the order of the list. *)
Theorem new_game_layout `{!Oracle} (players : list Player.t)
    (playerId : PlayerId) (playerName : string) (settings : Settings.t)
    (w : World.t) :
  let fresh (s : GameState.t) :=
    GameState.phase s = playing
    /\ length (GameState.activeCards s) = 7%nat
    /\ length (GameState.deck s) = 56%nat
    /\ CardInstance.value <$> circulating s ≡ₚ seqZ 1 63
    /\ Forall (fun p => Player.claimedCards p = [] /\ Player.selectedCardIds p = []
                        /\ Player.score p = 0) (GameState.players s)
    /\ GameState.settings s = settings
    /\ GameState.turnTimeRemainingMs s
       = TimerConfig.durationMs <$> Settings.turnTimer settings
    /\ GameState.gameTimeRemainingMs s
       = TimerConfig.durationMs <$> Settings.gameTimer settings in
  let m := (Game.createMultiplayerGame players settings w).1 in
  let s1 := (Game.createSinglePlayerGame playerId playerName settings w).1 in
  fresh m /\ fresh s1
  /\ Player.id <$> GameState.players m = Player.id <$> players
  /\ Player.playerNumber <$> GameState.players m
     = seqZ 1 (Z.of_nat (length players))
  /\ Player.id <$> GameState.players s1 = [playerId].
Proof. exact (games_start_fresh players playerId playerName settings w). Qed.

(** X6. In every state a game reaches, whatever is claimed, the table holds
    at most 7 cards, and fewer than 7 only when the deck is empty. *)
Theorem table_stays_filled `{!Oracle} (s : GameState.t) (w : World.t) :
  reachable anyClaim (s, w) ->
  (length (GameState.activeCards s) <= 7)%nat
  /\ ((length (GameState.activeCards s) < 7)%nat -> GameState.deck s = []).
Proof. intros Hreach. exact (reachable_tableFilled anyClaim (s, w) Hreach). Qed.

Lemma table_stays_filled_witness :
  let x := @claimStep Demo.oracle Demo.finiteGame "A" Demo.claim5 in
  (length (GameState.activeCards x.1) <= 7)%nat
  /\ ((length (GameState.activeCards x.1) < 7)%nat -> GameState.deck x.1 = []).
Proof.
  intros x. apply (@table_stays_filled Demo.oracle x.1 x.2).
  rewrite <- surjective_pairing.
  apply claimStep_reachable; [exact I | apply start_reachable].
Defined.

(** ** Selections stay on the table *)

Section SelectionInvariants.
Context `{!Oracle}.

Lemma selectionsOnTable_insert s i pl sel :
  GameState.players s !! i = Some pl ->
  selectionsOnTable s ->
  NoDup sel ->
  (forall c, c ∈ sel -> c ∈ CardInstance.id <$> GameState.activeCards s) ->
  selectionsOnTable
    (Game.withPlayers s (<[i := Game.withSelection pl sel]> (GameState.players s))).
Proof.
  intros Hi Hall Hnd Hon. unfold selectionsOnTable in *.
  cbn [Game.withPlayers GameState.players GameState.activeCards].
  apply Forall_insert; [exact Hall |]. by split.
Qed.

Lemma toggle_selectionsOnTable s p c :
  selectionsOnTable s -> selectionsOnTable (Game.toggleCardSelection s p c).
Proof.
  intros Hall. unfold Game.toggleCardSelection.
  destruct (Game.findPlayer _ _) as [[i pl]|] eqn:Hfind; [| exact Hall].
  destruct (bool_decide (Exists _ _)) eqn:Hex; cbn [negb]; [| exact Hall].
  apply bool_decide_eq_true_1 in Hex.
  apply list_find_Some in Hfind as (Hi & _).
  pose proof Hall as Hpl. unfold selectionsOnTable in Hpl.
  rewrite Forall_forall in Hpl.
  destruct (Hpl pl (list_elem_of_lookup_2 _ _ _ Hi)) as [Hnd Hon].
  apply selectionsOnTable_insert; [done | done | |].
  - destruct (bool_decide (c ∈ Player.selectedCardIds pl)) eqn:Hsel.
    + by apply NoDup_filter.
    + apply bool_decide_eq_false_1 in Hsel.
      apply NoDup_app. split; [done |]. split; [| apply NoDup_singleton].
      intros x Hx ->%list_elem_of_singleton. done.
  - intros x. destruct (bool_decide (c ∈ Player.selectedCardIds pl)).
    + intros [_ Hx]%list_elem_of_filter. by apply Hon.
    + intros [Hx | ->%list_elem_of_singleton]%elem_of_app; [by apply Hon |].
      apply Exists_exists in Hex as (card & Hcard & <-).
      by apply list_elem_of_fmap_2.
Qed.

Lemma clear_selectionsOnTable s p :
  selectionsOnTable s -> selectionsOnTable (Game.clearSelection s p).
Proof.
  intros Hall. unfold Game.clearSelection.
  destruct (Game.findPlayer _ _) as [[i pl]|] eqn:Hfind; [| exact Hall].
  apply list_find_Some in Hfind as (Hi & _).
  apply selectionsOnTable_insert; [done | done | apply NoDup_nil_2 |].
  by intros c ?%elem_of_nil.
Qed.

Lemma claimSet_selectionsOnTable s p ids w s' pts w' :
  Game.claimSet s p ids w = ((s', pts), w') ->
  selectionsOnTable s -> selectionsOnTable s'.
Proof.
  intros Hrun Hall.
  destruct (claimSet_cases _ _ _ _ _ _ _ Hrun)
    as [(_ & -> & _) | (_ & _ & _ & i & pl & deck1 & newCards & newDeck
                        & _ & _ & _ & ->)]; [exact Hall |].
  unfold selectionsOnTable in *. cbn [GameState.players GameState.activeCards].
  rewrite Forall_forall in Hall.
  apply Forall_forall. unfold playersAfterClaim.
  intros q (j & q0 & -> & Hj)%elem_of_lookup_imap.
  destruct (decide (j = i)) as [_|_]; cbn [Player.selectedCardIds Game.withSelection].
  - split; [apply NoDup_nil_2 | by intros c ?%elem_of_nil].
  - destruct (Hall q0 (list_elem_of_lookup_2 _ _ _ Hj)) as [Hnd Hon].
    split; [by apply NoDup_filter |].
    intros c [Hout Hc]%list_elem_of_filter.
    apply Hon in Hc. apply list_elem_of_fmap in Hc as (card & -> & Hcard).
    apply list_elem_of_fmap_2, elem_of_app. left.
    unfold remainingOf. by apply list_elem_of_filter.
Qed.

Lemma new_players_select_nothing s :
  Forall (fun p => Player.selectedCardIds p = []) (GameState.players s) ->
  selectionsOnTable s.
Proof.
  unfold selectionsOnTable. intros Hall.
  eapply Forall_impl; [exact Hall |]. intros p ->.
  split; [apply NoDup_nil_2 | by intros c ?%elem_of_nil].
Qed.

Lemma reachable_selectionsOnTable okClaim x :
  reachable okClaim x -> selectionsOnTable x.1.
Proof.
  induction 1 as [pid name settings w0 s w Hrun
                 | players settings w0 s w Hrun
                 | x y _ IH Hstep].
  - pose proof (games_start_fresh [] pid name settings w0)
      as (_ & (_ & _ & _ & _ & Hp & _) & _).
    rewrite Hrun in Hp. cbn [fst] in *. apply new_players_select_nothing.
    eapply Forall_impl; [exact Hp |]. by intros p (_ & ? & _).
  - pose proof (games_start_fresh players "" "" settings w0)
      as ((_ & _ & _ & _ & Hp & _) & _).
    rewrite Hrun in Hp. cbn [fst] in *. apply new_players_select_nothing.
    eapply Forall_impl; [exact Hp |]. by intros p (_ & ? & _).
  - destruct Hstep as [s w p c | s w p ids s' pts w' Hids Hrun | s w p | | |];
      cbn [fst snd] in *; try exact IH.
    + by apply toggle_selectionsOnTable.
    + by eapply claimSet_selectionsOnTable.
    + by apply clear_selectionsOnTable.
Qed.

(** The values of a selection whose ids are all on the table. *)
Lemma selected_values s p i pl :
  Game.findPlayer (GameState.players s) p = Some (i, pl) ->
  Game.getSelectedCardValues s p
  = CardInstance.value <$> claimedOf s (Player.selectedCardIds pl).
Proof. intros Hfind. unfold Game.getSelectedCardValues. by rewrite Hfind. Qed.

Lemma select_reachable okClaim s w p cs :
  reachable okClaim (s, w) -> reachable okClaim (Demo.select p cs s, w).
Proof.
  unfold Demo.select. revert s.
  induction cs as [|c cs IH]; intros s Hs; [exact Hs |].
  cbn [foldl]. apply IH. eapply reach_step; [exact Hs | apply step_toggle].
Qed.

End SelectionInvariants.

(** X7. In every state a game reaches, whatever is claimed, the selection
    of every player is free of repeats and names only cards that are on the
    table. *)
Theorem selections_stay_on_table `{!Oracle} (s : GameState.t) (w : World.t)
    (p : Player.t) :
  reachable anyClaim (s, w) ->
  p ∈ GameState.players s ->
  NoDup (Player.selectedCardIds p)
  /\ forall c, c ∈ Player.selectedCardIds p ->
               c ∈ CardInstance.id <$> GameState.activeCards s.
Proof.
  intros Hreach Hp.
  pose proof (reachable_selectionsOnTable anyClaim (s, w) Hreach) as Hall.
  unfold selectionsOnTable in Hall. rewrite Forall_forall in Hall.
  by apply Hall.
Qed.

Lemma selections_stay_on_table_witness :
  let x := @claimStep Demo.oracle (Demo.raceState, Demo.finiteGame.2) "A" Demo.claim3 in
  Forall (fun p =>
            NoDup (Player.selectedCardIds p)
            /\ forall c, c ∈ Player.selectedCardIds p ->
                         c ∈ CardInstance.id <$> GameState.activeCards x.1)
    (GameState.players x.1).
Proof.
  intros x. apply Forall_forall. intros p.
  apply (@selections_stay_on_table Demo.oracle x.1 x.2 p).
  rewrite <- surjective_pairing.
  apply claimStep_reachable; [exact I |].
  unfold Demo.raceState. do 2 apply select_reachable.
  rewrite <- surjective_pairing. apply start_reachable.
Defined.

(** X8. In every state a game reaches, a selection that
    [isPlayerSelectionValid] accepts can be claimed: [claimSet] with the
    player's selected ids awards points and leaves the player's selection
    empty. *)
Theorem valid_selection_is_claimable `{!Oracle} (s : GameState.t) (w : World.t)
    (p : PlayerId) :
  reachable anyClaim (s, w) ->
  Game.isPlayerSelectionValid s p = true ->
  let r := Game.claimSet s p (selectionOf s p) w in
  0 < r.1.2 /\ selectionOf r.1.1 p = [].
Proof.
  intros Hreach Hvalid r.
  pose proof (reachable_selectionsOnTable anyClaim (s, w) Hreach) as Hall.
  cbn [fst] in Hall. unfold selectionsOnTable in Hall. rewrite Forall_forall in Hall.
  unfold Game.isPlayerSelectionValid in Hvalid.
  destruct (Game.findPlayer (GameState.players s) p) as [[i pl]|] eqn:Hfind.
  - rewrite (selected_values s p i pl Hfind) in Hvalid.
    assert (selectionOf s p = Player.selectedCardIds pl) as Hsel
      by (unfold selectionOf; by rewrite Hfind).
    assert (pl ∈ GameState.players s) as Hpl.
    { apply list_find_Some in Hfind as (Hi & _). by eapply list_elem_of_lookup_2. }
    destruct (Hall pl Hpl) as [_ Hon].
    assert (claimValid s p (Player.selectedCardIds pl)) as Hclaim.
    { split; [by rewrite Hfind |]. split; [| done].
      apply claimedOf_all_on_table, Forall_forall. exact Hon. }
    destruct (claimSet_success s p _ w i pl Hclaim Hfind)
      as (deck1 & w1 & newCards & newDeck & _ & _ & Hrun).
    subst r. rewrite Hsel, Hrun. cbn [fst snd].
    split; [by apply pointsFor_pos |].
    unfold selectionOf. cbn [GameState.players].
    rewrite findPlayer_afterClaim, Hfind. cbn [fmap option_fmap option_map fst snd].
    by rewrite decide_True.
  - unfold Game.getSelectedCardValues in Hvalid. rewrite Hfind in Hvalid.
    discriminate.
Qed.

Lemma valid_selection_is_claimable_witness :
  let r := @Game.claimSet Demo.oracle Demo.raceState "B"
             (selectionOf Demo.raceState "B") Demo.finiteGame.2 in
  0 < r.1.2 /\ selectionOf r.1.1 "B" = [].
Proof.
  apply (@valid_selection_is_claimable Demo.oracle Demo.raceState
           Demo.finiteGame.2 "B").
  - unfold Demo.raceState. do 2 apply select_reachable.
    rewrite <- surjective_pairing. apply start_reachable.
  - vm_compute. reflexivity.
Defined.

(** ** The values in circulation *)

Section ValueInvariants.
Context `{!Oracle}.
Hypothesis idOf_inj : Inj (=) (=) idOf.

(** Seven or more distinct cards hold a valid set. *)
Lemma many_cards_hold_a_set (cards : list Card) :
  (7 <= length cards <= 30)%nat -> NoDup cards -> Forall isCard cards ->
  Validation.hasValidSet cards = true.
Proof.
  intros Hlen Hnd Hc.
  assert (Forall small cards) as Hs by by apply Forall_isCard_small.
  assert (2 ^ 7 <= 2 ^ Z.of_nat (length cards)) as Hpow
    by (apply Z.pow_le_mono_r; lia).
  destruct (Validation.hasValidSet cards) eqn:Hhas; [done | exfalso].
  assert (forall m, 0 <= m < 2 ^ 7 ->
            (3 <= length (pickBits cards m))%nat ->
            xorAll (pickBits cards m) = 0 -> False) as Hnone.
  { intros m Hm H3 Hx.
    assert (Validation.hasValidSet cards = true) as Hyes; [| congruence].
    apply hasValidSet_masks; [done | lia |]. exists m. split; [lia | done]. }
  set (f := fun m => xorAll (pickBits cards m)).
  assert (forall m, 0 <= f m < 2 ^ 6) as Hrange.
  { intros m. apply xorAll_bounded; [lia |].
    eapply Forall_sub; [| apply pickBits_sublist].
    eapply Forall_impl; [exact Hc |]. unfold isCard. intros v Hv. simpl. lia. }
  assert (NoDup (f <$> seqZ 0 128)) as Hinj.
  { apply NoDup_fmap_2_strong; [| apply NoDup_seqZ].
    intros m1 m2 Hm1%elem_of_seqZ Hm2%elem_of_seqZ Hf.
    destruct (decide (m1 = m2)) as [|Hne]; [done | exfalso].
    set (m := Z.lxor m1 m2).
    assert (0 <= m < 2 ^ 7) as Hm by (apply lxor_bounded; simpl; lia).
    assert (xorAll (pickBits cards m) = 0) as Hx.
    { unfold m. rewrite pickBits_lxor. fold (f m1) (f m2).
      rewrite Hf. apply Z.lxor_nilpotent. }
    apply (Hnone m Hm); [| done].
    apply short_sets_do_not_vanish; [| | | done].
    - eapply Forall_sub; [exact Hc | apply pickBits_sublist].
    - eapply sublist_NoDup; [exact Hnd | apply pickBits_sublist].
    - intros Hnil. apply (f_equal length) in Hnil.
      rewrite pickBits_length in Hnil. cbn [length] in Hnil.
      apply bitsSet_none in Hnil; [| lia].
      apply Hne, Z.lxor_eq. by fold m. }
  assert (length (f <$> seqZ 0 128) <= length (seqZ 0 64))%nat as Hle.
  { apply pigeonhole_lists; [done |].
    intros x (m & -> & _)%list_elem_of_fmap.
    apply elem_of_seqZ. specialize (Hrange m). simpl in Hrange. lia. }
  rewrite length_fmap, !length_seqZ in Hle. lia.
Qed.

Lemma seqZ_cards : NoDup (seqZ 1 63) /\ Forall isCard (seqZ 1 63).
Proof.
  split; [apply NoDup_seqZ |]. apply Forall_forall.
  intros v Hv%elem_of_seqZ. unfold isCard. lia.
Qed.

Lemma distinctValues_perm s l :
  CardInstance.value <$> circulating s ≡ₚ l ->
  NoDup l -> Forall isCard l -> distinctValues s.
Proof. unfold distinctValues. intros ->. done. Qed.

Lemma claimSet_distinctValues s p ids w s' pts w' :
  Game.claimSet s p ids w = ((s', pts), w') ->
  NoDup ids -> wellFormed w s -> distinctValues s -> distinctValues s'.
Proof.
  intros Hrun Hids [Hwf _] [Hnd Hall].
  destruct (claimSet_cases _ _ _ _ _ _ _ Hrun)
    as [(_ & -> & -> & _) | (Hvalid & _ & _ & i & pl & deck1 & newCards & newDeck
                             & Hfind & Hrefill & Hdeal & ->)]; [done |].
  destruct Hvalid as (_ & Hlen & _).
  assert (CardInstance.value <$> deck1 ++ remainingOf s ids
          ≡ₚ CardInstance.value <$> circulating s
          \/ sublist (CardInstance.value <$> deck1 ++ remainingOf s ids)
               (CardInstance.value <$> circulating s)) as Hcirc.
  { unfold refill in Hrefill.
    destruct (Settings.infiniteDeck (GameState.settings s)).
    - left. apply returnCardsToDeck_spec in Hrefill as [Hperm _].
      unfold circulating in Hwf. rewrite fmap_app in Hwf.
      apply NoDup_app in Hwf as (_ & _ & Hact).
      pose proof (claimedOf_perm s ids Hact Hids Hlen) as Hclaimed.
      pose proof (filter_app_complement
                    (fun c => CardInstance.id c ∈ ids)
                    (GameState.activeCards s)) as Hsplit.
      rewrite Hperm. unfold circulating.
      rewrite !fmap_app, remint_values, Hclaimed, <- !fmap_app.
      rewrite <- app_assoc. unfold remainingOf. by rewrite Hsplit.
    - right. injection Hrefill as <- <-.
      apply fmap_sublist, remaining_sublist. }
  apply (distinctValues_perm _ (CardInstance.value <$> deck1 ++ remainingOf s ids)).
  { unfold circulating. cbn [GameState.deck GameState.activeCards].
    by rewrite (circulating_after_deal _ _ _ _ _ Hdeal). }
  - destruct Hcirc as [-> | Hsub]; [done | by eapply sublist_NoDup].
  - destruct Hcirc as [-> | Hsub]; [done | by eapply Forall_sub].
Qed.

Lemma reachable_distinctValues x :
  reachable (fun ids => NoDup ids) x -> distinctValues x.1.
Proof.
  induction 1 as [pid name settings w0 s w Hrun
                 | players settings w0 s w Hrun
                 | x y Hx IH Hstep].
  - pose proof (games_start_fresh [] pid name settings w0)
      as (_ & (_ & _ & _ & Hv & _) & _).
    rewrite Hrun in Hv. cbn [fst] in *.
    destruct seqZ_cards. by eapply distinctValues_perm.
  - pose proof (games_start_fresh players "" "" settings w0)
      as ((_ & _ & _ & Hv & _) & _).
    rewrite Hrun in Hv. cbn [fst] in *.
    destruct seqZ_cards. by eapply distinctValues_perm.
  - pose proof (reachable_wellFormed idOf_inj _ _ Hx) as Hwf.
    destruct Hstep as [s w p c | s w p ids s' pts w' Hids Hrun | s w p | | |];
      cbn [fst snd] in *; try exact IH.
    + unfold Game.toggleCardSelection.
      destruct (Game.findPlayer _ _) as [[i pl]|]; [| exact IH].
      destruct (negb _); exact IH.
    + by eapply claimSet_distinctValues.
    + unfold Game.clearSelection.
      destruct (Game.findPlayer _ _) as [[i pl]|]; exact IH.
Qed.

Lemma full_table_has_set s :
  distinctValues s -> length (GameState.activeCards s) = 7%nat ->
  Validation.hasValidSet (CardInstance.value <$> GameState.activeCards s) = true.
Proof.
  intros [Hnd Hall] Hlen. unfold circulating in *.
  rewrite fmap_app in Hnd, Hall.
  apply NoDup_app in Hnd as (_ & _ & Hnd).
  apply Forall_app in Hall as [_ Hall].
  apply many_cards_hold_a_set; [rewrite length_fmap; lia | done | done].
Qed.

End ValueInvariants.

(** X9. With ids that are minted once and claims that name distinct ids,
    in every state a game reaches the cards of deck and table carry
    pairwise distinct card values, so that a full table (7 cards) always
    holds a valid set and [checkGameEnd] never answers deck_empty for it. *)
Theorem full_table_always_holds_a_set `{!Oracle} (s : GameState.t) (w : World.t) :
  Inj (=) (=) idOf ->
  reachable (fun ids => NoDup ids) (s, w) ->
  NoDup (CardInstance.value <$> GameState.deck s ++ GameState.activeCards s)
  /\ (length (GameState.activeCards s) = 7%nat ->
      Validation.hasValidSet (CardInstance.value <$> GameState.activeCards s) = true
      /\ Game.checkGameEnd s <> Some deck_empty).
Proof.
  intros Hinj Hreach.
  pose proof (reachable_distinctValues Hinj (s, w) Hreach) as Hvals.
  split; [exact (proj1 Hvals) |]. intros Hlen.
  pose proof (full_table_has_set s Hvals Hlen) as Hset.
  split; [exact Hset |]. unfold Game.checkGameEnd. rewrite Hset.
  destruct (Game.expired _); [done |]. destruct (Game.expired _); [done |].
  by destruct (_ && _).
Qed.

Lemma full_table_always_holds_a_set_witness :
  let x := @claimStep Demo.oracle Demo.finiteGame "A" Demo.claim3 in
  length (GameState.activeCards x.1) = 7%nat
  /\ Validation.hasValidSet (CardInstance.value <$> GameState.activeCards x.1) = true.
Proof.
  intros x.
  assert (length (GameState.activeCards x.1) = 7%nat) as Hlen
    by (vm_compute; reflexivity).
  split; [exact Hlen |].
  refine (proj1 (proj2 (@full_table_always_holds_a_set Demo.oracle x.1 x.2
                          demo_ids_distinct _) Hlen)).
  rewrite <- surjective_pairing.
  apply claimStep_reachable; [apply claim3_distinct | apply start_reachable].
Defined.

(** X10. In an infinite-deck game, with ids that are minted once and claims
    that name distinct ids, the table always holds exactly 7 cards and the
    deck 56. *)
Theorem infinite_deck_keeps_the_table_full `{!Oracle}
    (s : GameState.t) (w : World.t) :
  Inj (=) (=) idOf ->
  reachable (fun ids => NoDup ids) (s, w) ->
  Settings.infiniteDeck (GameState.settings s) = true ->
  length (GameState.activeCards s) = 7%nat /\ length (GameState.deck s) = 56%nat.
Proof.
  intros Hinj Hreach Hinf.
  destruct (reachable_invariants Hinj _ (s, w) (fun _ H => H) Hreach) as [_ Hc].
  pose proof (reachable_tableFilled _ (s, w) Hreach) as [Hle Hempty].
  cbn [fst] in *. unfold conserved in Hc. rewrite Hinf in Hc.
  unfold DECK_SIZE, ACTIVE_CARD_COUNT in *.
  destruct (decide (length (GameState.activeCards s) < 7)%nat) as [Hlt|Hge].
  - rewrite (Hempty Hlt) in Hc. cbn [length] in Hc. lia.
  - lia.
Qed.

Lemma infinite_deck_keeps_the_table_full_witness :
  let x := @claimStep Demo.oracle Demo.infiniteGame "A" Demo.claim3 in
  length (GameState.activeCards x.1) = 7%nat /\ length (GameState.deck x.1) = 56%nat.
Proof.
  intros x.
  apply (@infinite_deck_keeps_the_table_full Demo.oracle x.1 x.2 demo_ids_distinct).
  - rewrite <- surjective_pairing.
    apply claimStep_reachable; [apply claim3_distinct | apply start_reachable].
  - vm_compute. reflexivity.
Defined.

(** ** Timers, winners and the smaller transitions *)

Section SmallTransitions.
Context `{!Oracle}.

Lemma countdown_twice (t a b : Z) :
  0 <= b -> Z.max 0 (Z.max 0 (t - a) - b) = Z.max 0 (t - (a + b)).
Proof. lia. Qed.

Lemma expired_after_update timer elapsed :
  Game.expired ((fun t => Z.max 0 (t - elapsed)) <$> timer) = true
  <-> exists t, timer = Some t /\ t <= elapsed.
Proof.
  rewrite expired_spec. destruct timer as [t|]; cbn.
  - split.
    + intros (t' & [= <-] & Hle). exists t. split; [done | lia].
    + intros (t' & [= <-] & Hle). eexists. split; [done | lia].
  - split; by intros (? & ? & _).
Qed.

Lemma checkGameEnd_timer s :
  Game.checkGameEnd s = Some timer_expired
  <-> Game.expired (GameState.gameTimeRemainingMs s) = true
      \/ Game.expired (GameState.turnTimeRemainingMs s) = true.
Proof.
  unfold Game.checkGameEnd.
  destruct (Game.expired (GameState.gameTimeRemainingMs s)); [tauto |].
  destruct (Game.expired (GameState.turnTimeRemainingMs s)); [tauto |].
  destruct (_ && _); [destruct (negb _) |];
    (split; [discriminate | intros [|]; discriminate]).
Qed.

Lemma mathMax_foldl acc xs :
  foldl (fun acc x => Some (match acc with
                            | None => x
                            | Some a => Z.max a x
                            end)) (Some acc) xs
  = Some (foldl Z.max acc xs).
Proof. revert acc. induction xs as [|x xs IH]; intros acc; [done |]. apply IH. Qed.

Lemma foldl_max_ge acc xs :
  acc <= foldl Z.max acc xs /\ Forall (fun x => x <= foldl Z.max acc xs) xs.
Proof.
  revert acc. induction xs as [|x xs IH]; intros acc; cbn [foldl].
  - split; [lia | constructor].
  - destruct (IH (Z.max acc x)) as [Hacc Hall]. split; [lia |].
    constructor; [lia | done].
Qed.

Lemma foldl_max_in acc xs :
  foldl Z.max acc xs = acc \/ foldl Z.max acc xs ∈ xs.
Proof.
  revert acc. induction xs as [|x xs IH]; intros acc; cbn [foldl]; [by left |].
  destruct (IH (Z.max acc x)) as [Heq | Hin].
  - rewrite Heq. destruct (Z.max_spec acc x) as [[_ ->] | [_ ->]];
      [right; by left | by left].
  - right. by right.
Qed.

(** The maximum of a non-empty list is its greatest element. *)
Lemma mathMax_spec xs m :
  GameRest.mathMax xs = Some m <-> m ∈ xs /\ Forall (fun x => x <= m) xs.
Proof.
  unfold GameRest.mathMax. destruct xs as [|x xs]; cbn [foldl].
  - split; [discriminate | by intros [?%elem_of_nil _]].
  - rewrite mathMax_foldl.
    destruct (foldl_max_ge x xs) as [Hx Hall].
    split.
    + intros [= <-]. split.
      * destruct (foldl_max_in x xs) as [-> | Hin]; [by left | by right].
      * by constructor.
    + intros [Hin Hle]. f_equal. apply Forall_cons in Hle as [Hxm Hle].
      assert (foldl Z.max x xs <= m).
      { destruct (foldl_max_in x xs) as [-> | Hin']; [done |].
        by eapply Forall_forall in Hle. }
      assert (m <= foldl Z.max x xs).
      { apply elem_of_cons in Hin as [-> | Hin]; [done |].
        by eapply Forall_forall in Hall. }
      lia.
Qed.

End SmallTransitions.

(** X11. [updateTimers] counts down and stops at 0: a timer that is off
    stays off, a running timer never becomes negative, two updates add up
    (for a second delay that is not negative), and [checkGameEnd] answers
    timer_expired after an update exactly when a running timer was not
    above the elapsed time. *)
Theorem updateTimers_counts_down (s : GameState.t) (a b : Z) :
  0 <= b ->
  Game.updateTimers (Game.updateTimers s a) b = Game.updateTimers s (a + b)
  /\ (GameState.turnTimeRemainingMs (Game.updateTimers s a) = None
      <-> GameState.turnTimeRemainingMs s = None)
  /\ (GameState.gameTimeRemainingMs (Game.updateTimers s a) = None
      <-> GameState.gameTimeRemainingMs s = None)
  /\ (forall t, GameState.turnTimeRemainingMs (Game.updateTimers s a) = Some t
                \/ GameState.gameTimeRemainingMs (Game.updateTimers s a) = Some t ->
                0 <= t)
  /\ (Game.checkGameEnd (Game.updateTimers s a) = Some timer_expired
      <-> exists t, (GameState.gameTimeRemainingMs s = Some t
                     \/ GameState.turnTimeRemainingMs s = Some t) /\ t <= a).
Proof.
  intros Hb. split; [| split; [| split; [| split]]].
  - unfold Game.updateTimers.
    cbn [GameState.phase GameState.deck GameState.activeCards GameState.players
           GameState.settings GameState.turnTimeRemainingMs
           GameState.gameTimeRemainingMs GameState.endReason GameState.startedAt].
    f_equal.
    + destruct (GameState.turnTimeRemainingMs s); cbn; [| done].
      f_equal. by apply countdown_twice.
    + destruct (GameState.gameTimeRemainingMs s); cbn; [| done].
      f_equal. by apply countdown_twice.
  - cbn. by destruct (GameState.turnTimeRemainingMs s).
  - cbn. by destruct (GameState.gameTimeRemainingMs s).
  - cbn. intros t [Ht | Ht].
    + destruct (GameState.turnTimeRemainingMs s); [| done].
      cbn in Ht. injection Ht as <-. lia.
    + destruct (GameState.gameTimeRemainingMs s); [| done].
      cbn in Ht. injection Ht as <-. lia.
  - rewrite checkGameEnd_timer. cbn [Game.updateTimers GameState.turnTimeRemainingMs
                                       GameState.gameTimeRemainingMs].
    rewrite !expired_after_update. split.
    + intros [(t & Ht & Hle) | (t & Ht & Hle)]; exists t; tauto.
    + intros (t & [Ht | Ht] & Hle); [left | right]; eauto.
Qed.

Lemma updateTimers_counts_down_witness :
  let s := Game.updateTimers Demo.finiteGame.1 29000 in
  Game.updateTimers s 1000 = Game.updateTimers Demo.finiteGame.1 30000
  /\ Game.checkGameEnd (Game.updateTimers Demo.finiteGame.1 30000)
     = Some timer_expired.
Proof.
  intros s.
  destruct (updateTimers_counts_down Demo.finiteGame.1 29000 1000 ltac:(lia))
    as (Hadd & _).
  split; [exact Hadd |].
  destruct (updateTimers_counts_down Demo.finiteGame.1 30000 0 ltac:(lia))
    as (_ & _ & _ & _ & Hexp).
  apply Hexp. exists 30000. split; [| lia]. right. vm_compute. reflexivity.
Defined.

(** X12. [getWinners] is empty unless the game has ended; for an ended
    game it returns, in the order of the list, exactly the players whose
    score no player exceeds, and at least one if there is a player. *)
Theorem getWinners_best_scores (s : GameState.t) :
  (GameState.phase s <> ended -> GameRest.getWinners s = [])
  /\ (GameState.phase s = ended ->
      (forall p, p ∈ GameRest.getWinners s
                 <-> p ∈ GameState.players s
                     /\ forall q, q ∈ GameState.players s ->
                                  Player.score q <= Player.score p)
      /\ sublist (GameRest.getWinners s) (GameState.players s)
      /\ (GameState.players s <> [] -> GameRest.getWinners s <> [])).
Proof.
  unfold GameRest.getWinners. split.
  - intros Hphase. by rewrite bool_decide_eq_false_2.
  - intros Hphase. rewrite bool_decide_eq_true_2 by done. cbn [negb].
    assert (forall p, p ∈ filter
                (fun p => Some (Player.score p)
                          = GameRest.mathMax (Player.score <$> GameState.players s))
                (GameState.players s)
              <-> p ∈ GameState.players s
                  /\ forall q, q ∈ GameState.players s ->
                               Player.score q <= Player.score p) as Hchar.
    { intros p. rewrite list_elem_of_filter. split.
      - intros [Hmax Hp]. split; [done |]. symmetry in Hmax.
        apply mathMax_spec in Hmax as [_ Hall]. intros q Hq.
        rewrite Forall_forall in Hall. apply Hall. by apply list_elem_of_fmap_2.
      - intros [Hp Hbest]. split; [| done]. symmetry. apply mathMax_spec.
        split; [by apply list_elem_of_fmap_2 |].
        apply Forall_forall. intros x (q & -> & Hq)%list_elem_of_fmap. by apply Hbest. }
    split; [exact Hchar |]. split; [apply sublist_filter |].
    intros Hne Hnil.
    destruct (GameRest.mathMax (Player.score <$> GameState.players s)) as [m|] eqn:Hm.
    + pose proof Hm as [(p & Hpm & Hp)%list_elem_of_fmap Hall]%mathMax_spec.
      assert (p ∈ (@nil Player.t)) as Hin; [| by apply elem_of_nil in Hin].
      rewrite <- Hnil. apply list_elem_of_filter. split; [by rewrite <- Hpm | done].
    + destruct (GameState.players s) as [|p ps]; [done |].
      unfold GameRest.mathMax in Hm. cbn [fmap list_fmap foldl] in Hm.
      by rewrite mathMax_foldl in Hm.
Qed.

Section ClaimEffects.
Context `{!Oracle}.

Lemma list_find_insert_other {A} (P : A -> Prop) `{!forall x, Decision (P x)}
    (l : list A) i x y :
  l !! i = Some x -> (P y <-> P x) ->
  list_find P (<[i := y]> l)
  = (fun jz => (jz.1, if decide (jz.1 = i) then y else jz.2)) <$> list_find P l.
Proof.
  intros Hi Hy.
  assert (i < length l)%nat as Hlt by by eapply lookup_lt_Some.
  destruct (list_find P l) as [[j z]|] eqn:Hfind;
    cbn [fmap option_fmap option_map fst snd].
  - apply list_find_Some in Hfind as (Hj & HP & Hbefore).
    apply list_find_Some. destruct (decide (j = i)) as [->|Hne].
    + split; [by apply list_lookup_insert_eq |]. split.
      * apply Hy. congruence.
      * intros k u Hk Hlt'. rewrite list_lookup_insert_ne in Hk by lia.
        by eapply Hbefore.
    + split; [by rewrite list_lookup_insert_ne |]. split; [done |].
      intros k u Hk Hlt'. destruct (decide (k = i)) as [->|Hki].
      * rewrite list_lookup_insert_eq in Hk by done. injection Hk as <-.
        rewrite Hy. by eapply Hbefore.
      * rewrite list_lookup_insert_ne in Hk by done. by eapply Hbefore.
  - apply list_find_None in Hfind. apply list_find_None.
    apply Forall_insert; [done |]. rewrite Hy.
    eapply Forall_forall in Hfind; [done |]. by eapply list_elem_of_lookup_2.
Qed.

End ClaimEffects.

(** X13. [clearSelection] empties the selection of the player it names and
    nothing else: the deck, the table, the piles, the scores and the other
    players' selections stay; clearing twice is clearing once; an unknown
    player changes nothing; and the cleared selection is not a valid set. *)
Theorem clearSelection_only_clears (s : GameState.t) (p : PlayerId) :
  let s' := Game.clearSelection s p in
  selectionOf s' p = []
  /\ (forall q, q <> p -> selectionOf s' q = selectionOf s q)
  /\ (forall q, pileOf s' q = pileOf s q /\ scoreOf s' q = scoreOf s q)
  /\ GameState.deck s' = GameState.deck s
  /\ GameState.activeCards s' = GameState.activeCards s
  /\ Game.clearSelection s' p = s'
  /\ (Game.findPlayer (GameState.players s) p = None -> s' = s)
  /\ Game.isPlayerSelectionValid s' p = false.
Proof.
  intros s'. subst s'. unfold Game.clearSelection.
  destruct (Game.findPlayer (GameState.players s) p) as [[i pl]|] eqn:Hfind.
  - pose proof Hfind as (Hi & Hid & _)%list_find_Some.
    assert (forall q,
              Game.findPlayer (<[i := Game.withSelection pl []]> (GameState.players s)) q
              = (fun jz => (jz.1, if decide (jz.1 = i)
                                  then Game.withSelection pl [] else jz.2))
                  <$> Game.findPlayer (GameState.players s) q) as Hfq.
    { intros q. unfold Game.findPlayer.
      apply (list_find_insert_other _ _ _ pl); [exact Hi | done]. }
    assert (selectionOf
              (Game.withPlayers s
                 (<[i := Game.withSelection pl []]> (GameState.players s))) p = [])
      as Hsel.
    { unfold selectionOf. cbn [Game.withPlayers GameState.players].
      rewrite Hfq, Hfind. cbn [fmap option_fmap option_map fst snd].
      by rewrite decide_True. }
    split; [exact Hsel |]. split; [| split; [| split; [done | split; [done |]]]].
    + intros q Hq. unfold selectionOf. cbn [Game.withPlayers GameState.players].
      rewrite Hfq.
      destruct (Game.findPlayer (GameState.players s) q) as [[j z]|] eqn:Hq';
        [| done]. cbn [fmap option_fmap option_map fst snd].
      destruct (decide (j = i)) as [->|]; [| done].
      apply list_find_Some in Hq' as (Hj & Hidq & _). congruence.
    + intros q. unfold pileOf, scoreOf. cbn [Game.withPlayers GameState.players].
      rewrite Hfq.
      destruct (Game.findPlayer (GameState.players s) q) as [[j z]|] eqn:Hq';
        [| done]. cbn [fmap option_fmap option_map fst snd].
      destruct (decide (j = i)) as [->|]; [| done].
      apply list_find_Some in Hq' as (Hj & _).
      assert (z = pl) as -> by congruence. done.
    + split; [| split; [done |]].
      * cbn [Game.withPlayers GameState.players]. rewrite Hfq, Hfind.
        cbn [fmap option_fmap option_map fst snd]. rewrite decide_True by done.
        rewrite withPlayers_twice. cbn [Game.withPlayers GameState.players].
        by rewrite list_insert_insert_eq.
      * unfold Game.isPlayerSelectionValid, Game.getSelectedCardValues.
        cbn [Game.withPlayers GameState.players]. rewrite Hfq, Hfind.
        cbn [fmap option_fmap option_map fst snd]. by rewrite decide_True.
  - unfold selectionOf, Game.isPlayerSelectionValid, Game.getSelectedCardValues.
    rewrite Hfind. repeat split.
Qed.

(** X14. A [claimSet] that awards points awards the number of claimed
    cards under 'cards' scoring (also when no scoring mode is set) and 1
    under 'sets'; it adds the points to the claimant's score and the
    claimed cards to the claimant's pile, and leaves the score and the pile
    of every other player as they were. *)
Theorem claimSet_scoring `{!Oracle} (s : GameState.t) (p : PlayerId)
    (ids : list CardId) (w : World.t) (s' : GameState.t) (pts : Z) (w' : World.t) :
  Game.claimSet s p ids w = ((s', pts), w') ->
  pts <> 0 ->
  pts = match Settings.scoringMode (GameState.settings s) with
        | Some sets => 1
        | _ => Z.of_nat (length ids)
        end
  /\ scoreOf s' p = scoreOf s p + pts
  /\ pileOf s' p = pileOf s p ++ claimedOf s ids
  /\ CardInstance.id <$> claimedOf s ids = ids
  /\ forall q, q <> p -> scoreOf s' q = scoreOf s q /\ pileOf s' q = pileOf s q.
Proof.
  intros Hrun Hpts.
  destruct (claimSet_cases _ _ _ _ _ _ _ Hrun)
    as [(-> & _) | ((_ & Hlen & _) & Hp & _ & i & pl & deck1 & newCards & newDeck
                    & Hfind & _ & _ & ->)]; [done |].
  split; [| split; [| split; [| split]]].
  - rewrite Hp. unfold pointsFor. rewrite Hlen.
    by destruct (Settings.scoringMode (GameState.settings s)) as [[|]|].
  - unfold scoreOf. cbn [GameState.players].
    rewrite findPlayer_afterClaim, Hfind. cbn [fmap option_fmap option_map fst snd].
    by rewrite decide_True.
  - unfold pileOf. cbn [GameState.players].
    rewrite findPlayer_afterClaim, Hfind. cbn [fmap option_fmap option_map fst snd].
    by rewrite decide_True.
  - by apply claimedOf_ids.
  - intros q Hq. unfold scoreOf, pileOf. cbn [GameState.players].
    rewrite findPlayer_afterClaim.
    destruct (Game.findPlayer (GameState.players s) q) as [[j z]|] eqn:Hq';
      [| done]. cbn [fmap option_fmap option_map fst snd].
    destruct (decide (j = i)) as [->|]; [| done].
    apply list_find_Some in Hq' as (Hj & Hidq & _).
    apply list_find_Some in Hfind as (Hi & Hidp & _). congruence.
Qed.

Lemma claimSet_scoring_witness :
  let r := @Game.claimSet Demo.oracle Demo.knownState "player1"
             ["card1"; "card2"; "card3"] Demo.w0 in
  r.1.2 = 3
  /\ scoreOf r.1.1 "player1" = scoreOf Demo.knownState "player1" + r.1.2
  /\ scoreOf r.1.1 "player2" = scoreOf Demo.knownState "player2".
Proof.
  intros r.
  assert (r.1.2 = 3) as Hpts by (vm_compute; reflexivity).
  assert (r.1.2 <> 0) as Hne by (rewrite Hpts; lia).
  destruct (@claimSet_scoring Demo.oracle _ _ _ _ _ _ _ (triple_eta r) Hne)
    as (_ & Hscore & _ & _ & Hothers).
  split; [exact Hpts |]. split; [exact Hscore |].
  exact (proj1 (Hothers "player2"%string ltac:(discriminate))).
Defined.

(** X15. [claimSet] fails closed: it awards 0 points exactly when the
    player is not in the game, or some id names no card on the table, or
    the values of the named cards are not a valid set; and then it returns
    the state and the world as they were. *)
Theorem claimSet_fails_closed `{!Oracle} (s : GameState.t) (p : PlayerId)
    (ids : list CardId) (w : World.t) :
  let r := Game.claimSet s p ids w in
  (r.1.2 = 0
   <-> Game.findPlayer (GameState.players s) p = None
       \/ (exists i, i ∈ ids /\ i ∉ CardInstance.id <$> GameState.activeCards s)
       \/ Validation.isValidSet (CardInstance.value <$> claimedOf s ids) = false)
  /\ (r.1.2 = 0 -> r = ((s, 0), w)).
Proof.
  intros r. pose proof (triple_eta r) as Hrun.
  pose proof (claimSet_points _ _ _ _ _ _ _ Hrun) as Hpts.
  split; [split |].
  - intros Hzero.
    destruct (Game.findPlayer (GameState.players s) p) as [[i pl]|] eqn:Hfind;
      [| by left]. right.
    destruct (decide (Forall (fun i => i ∈ CardInstance.id <$> GameState.activeCards s)
                        ids)) as [Hon | Hoff].
    + right.
      destruct (Validation.isValidSet (CardInstance.value <$> claimedOf s ids))
        eqn:Hv; [| done].
      exfalso. apply (proj2 Hpts); [| exact Hzero].
      split; [by rewrite Hfind |]. split; [by apply claimedOf_all_on_table | done].
    + left. apply not_Forall_Exists in Hoff; [| apply _].
      apply Exists_exists in Hoff as (i' & Hi' & Hoff). eauto.
  - intros Hwhy. destruct (decide (r.1.2 = 0)) as [|Hne]; [done | exfalso].
    apply Hpts in Hne as ([x Hx] & Hlen & Hv).
    destruct Hwhy as [Hnone | [(i & Hi & Hoff) | Hnot]]; [congruence | | congruence].
    apply claimedOf_found in Hlen. rewrite Forall_forall in Hlen.
    destruct (Hlen i Hi) as [c [Hc <-]%findCard_Some].
    apply Hoff. by apply list_elem_of_fmap_2.
  - intros Hzero.
    destruct (claimSet_cases _ _ _ _ _ _ _ Hrun)
      as [(_ & Hs & Hw & _) | (_ & _ & Hpos & _)]; [| lia].
    rewrite Hrun, Hzero, Hs, Hw. done.
Qed.

(** X16. No transition of the engine leaves the phase ended, and only
    [endGame] enters it: every other transition keeps the phase. *)
Theorem ended_is_final `{!Oracle} (okClaim : list CardId -> Prop)
    (x y : GameState.t * World.t) :
  step okClaim x y ->
  (GameState.phase x.1 = ended -> GameState.phase y.1 = ended)
  /\ (GameState.phase y.1 = GameState.phase x.1
      \/ exists reason, y.1 = Game.endGame x.1 reason).
Proof.
  intros Hstep.
  assert (GameState.phase y.1 = GameState.phase x.1
          \/ exists reason, y.1 = Game.endGame x.1 reason) as Hkeep.
  { destruct Hstep as [s w p c | s w p ids s' pts w' _ Hrun | s w p | | |];
      cbn [fst snd]; try (by left).
    - left. unfold Game.toggleCardSelection.
      destruct (Game.findPlayer _ _) as [[i pl]|]; [| done].
      by destruct (negb _).
    - left.
      destruct (claimSet_cases _ _ _ _ _ _ _ Hrun)
        as [(_ & -> & _) | (_ & _ & _ & i & pl & d & nc & nd & _ & _ & _ & ->)];
        done.
    - left. unfold Game.clearSelection.
      by destruct (Game.findPlayer _ _) as [[i pl]|].
    - right. eauto. }
  split; [| exact Hkeep].
  intros Hended. destruct Hkeep as [-> | [reason ->]]; done.
Qed.

Lemma ended_is_final_witness :
  GameState.phase
    (Game.toggleCardSelection (Game.endGame Demo.knownState deck_empty)
       "player1" "card1")
  = ended.
Proof.
  refine (proj1 (@ended_is_final Demo.oracle anyClaim
                   (Game.endGame Demo.knownState deck_empty, Demo.w0)
                   (Game.toggleCardSelection
                      (Game.endGame Demo.knownState deck_empty) "player1" "card1",
                    Demo.w0) _) _).
  - apply step_toggle.
  - reflexivity.
Defined.

(** * The game manager *)

Section ManagerRest.
Context `{!Oracle}.

Lemma instance_eta (g : GameInstance.t) :
  GameInstance.mk (GameInstance.state g) (GameInstance.pendingSet g)
    (GameInstance.loopInterval g) = g.
Proof. by destruct g. Qed.

Lemma stopGameLoop_other games code code' :
  code' <> code ->
  GameManager.stopGameLoop games code !! code' = games !! code'.
Proof.
  intros Hne. unfold GameManager.stopGameLoop.
  destruct (games !! code) as [g|]; [| done].
  destruct (GameInstance.loopInterval g); [| done].
  by rewrite lookup_insert_ne.
Qed.

Lemma stopGameLoop_same games code g :
  games !! code = Some g ->
  GameManager.stopGameLoop games code !! code
  = Some (GameInstance.mk (GameInstance.state g) (GameInstance.pendingSet g) None).
Proof.
  intros Hg. unfold GameManager.stopGameLoop. rewrite Hg.
  destruct (GameInstance.loopInterval g) eqn:Hloop.
  - by rewrite lookup_insert_eq.
  - rewrite Hg. f_equal. destruct g. cbn in *. by subst.
Qed.

Lemma clearPending_other games code code' :
  code' <> code ->
  GameManager.clearPending games code !! code' = games !! code'.
Proof.
  intros Hne. unfold GameManager.clearPending.
  destruct (games !! code) as [g|]; [| done].
  by rewrite lookup_insert_ne.
Qed.

Lemma manager_claim_other games code code' p ids w :
  code' <> code ->
  (GameManager.claimSet games code p ids w).1.2 !! code' = games !! code'.
Proof.
  intros Hne. unfold GameManager.claimSet, bind, ret.
  destruct (games !! code) as [g|]; [| done].
  destruct (Game.claimSet (GameInstance.state g) p ids w) as [[s' pts] w'].
  destruct (pts =? 0); [done |].
  destruct (Game.checkGameEnd s'); cbn [fst snd].
  - by rewrite stopGameLoop_other, lookup_insert_ne.
  - by rewrite lookup_insert_ne.
Qed.

Lemma manager_confirm_other games code code' p w :
  code' <> code ->
  (GameManager.confirmSet games code p w).1.2 !! code' = games !! code'.
Proof.
  intros Hne. unfold GameManager.confirmSet, bind, ret.
  destruct (games !! code) as [g|]; [| done].
  destruct (GameInstance.pendingSet g) as [pd|]; [| done].
  destruct (negb _); [done |].
  pose proof (manager_claim_other games code code' p (PendingSet.cardIds pd) w Hne)
    as Hclaim.
  destruct (GameManager.claimSet games code p (PendingSet.cardIds pd) w)
    as [[res games1] w1].
  cbn [fst snd] in Hclaim.
  destruct res; cbn [fst snd]; [| done].
  by rewrite clearPending_other.
Qed.

(** With no pending set in the room, or one held by somebody else,
    [confirmSet] is refused and nothing changes. *)
Lemma confirm_refused games code g q w :
  games !! code = Some g ->
  (forall pd, GameInstance.pendingSet g = Some pd -> PendingSet.playerId pd <> q) ->
  GameManager.confirmSet games code q w
  = ((Err NO_PENDING_SET "No pending set to confirm", games), w).
Proof.
  intros Hg Hheld. unfold GameManager.confirmSet. rewrite Hg.
  destruct (GameInstance.pendingSet g) as [pd|]; [| done].
  rewrite bool_decide_eq_false_2; [done |]. by apply Hheld.
Qed.

Lemma stored_wellFormed w s pending loop :
  wellFormed w s -> wellFormed w (GameInstance.state (GameInstance.mk s pending loop)).
Proof. done. Qed.

Hypothesis idOf_inj : Inj (=) (=) idOf.

(** The cards a claim deals are not cards of the table it was made on. *)
Lemma dealt_cards_are_new s ids w deck1 w' newCards newDeck n :
  wellFormed w s ->
  refill s ids w = (deck1, w') ->
  Deck.dealCards deck1 n = (newCards, newDeck) ->
  Forall (fun c => CardInstance.id c ∉ CardInstance.id <$> GameState.activeCards s)
    newCards.
Proof.
  intros [Hnd Hall] Hrefill Hdeal.
  apply dealCards_spec in Hdeal as [Hdeck1 _].
  unfold circulating in Hnd, Hall. rewrite fmap_app in Hnd.
  apply NoDup_app in Hnd as (_ & Hdisj & _).
  apply Forall_app in Hall as [_ Hactive]. rewrite Forall_forall in Hactive.
  assert (forall c, c ∈ GameState.deck s ->
                    CardInstance.id c ∉ CardInstance.id <$> GameState.activeCards s)
    as Hdeck.
  { intros c Hc. apply Hdisj. by apply list_elem_of_fmap_2. }
  apply Forall_forall. intros c Hc.
  assert (c ∈ deck1) as Hc1.
  { rewrite Hdeck1. apply elem_of_app. right. by apply elem_of_reverse. }
  unfold refill in Hrefill.
  destruct (Settings.infiniteDeck (GameState.settings s)).
  - apply returnCardsToDeck_spec in Hrefill as [Hperm _].
    rewrite Hperm in Hc1. apply elem_of_app in Hc1 as [Hc1 | Hc1];
      [by apply Hdeck |].
    intros (c' & Hid & Hc')%list_elem_of_fmap.
    apply (list_elem_of_fmap_2 CardInstance.id) in Hc1.
    rewrite (minted_ids _ (fun _ card => CardInstance.value card)) in Hc1.
    apply (fresh_ids_new idOf_inj) in Hc1. apply Hc1.
    rewrite Hid. by apply Hactive.
  - injection Hrefill as <- _. by apply Hdeck.
Qed.

(** What the manager reports as new cards after a claim of the engine. *)
Lemma reported_new_cards s p ids w s' pts w' :
  wellFormed w s ->
  Game.claimSet s p ids w = ((s', pts), w') ->
  pts <> 0 ->
  exists newCards,
    filter (fun c => CardInstance.id c ∉ CardInstance.id <$> GameState.activeCards s)
      (GameState.activeCards s') = newCards
    /\ GameState.activeCards s' = remainingOf s ids ++ newCards
    /\ Forall (fun c => CardInstance.id c
                        ∉ CardInstance.id <$> GameState.activeCards s) newCards.
Proof.
  intros Hwf Hrun Hpts.
  destruct (claimSet_cases _ _ _ _ _ _ _ Hrun)
    as [(-> & _) | (_ & _ & _ & i & pl & deck1 & newCards & newDeck
                    & _ & Hrefill & Hdeal & ->)]; [done |].
  pose proof (dealt_cards_are_new _ _ _ _ _ _ _ _ Hwf Hrefill Hdeal) as Hnew.
  exists newCards. cbn [GameState.activeCards]. split; [| done].
  rewrite filter_app, filter_none, (filter_all _ newCards); [done | done |].
  apply Forall_forall. intros c [_ Hc]%list_elem_of_filter Hout.
  apply Hout. by apply list_elem_of_fmap_2.
Qed.

End ManagerRest.

(** X17. The games of different lobbies do not interfere: whatever a method
    of the game manager is asked to do in one room, the game of every other
    room stays as it was. *)
Theorem rooms_do_not_interfere `{!Oracle} (games : gmap string GameInstance.t)
    (code code' : string) (p : PlayerId) (c : CardId) (ids : list CardId)
    (initialState : GameState.t) (w : World.t) :
  code' <> code ->
  GameManager.createGame games code initialState !! code' = games !! code'
  /\ (GameManager.toggleCard games code p c).2 !! code' = games !! code'
  /\ (GameManager.setPendingSet games code p ids w).1 !! code' = games !! code'
  /\ (GameManager.claimSet games code p ids w).1.2 !! code' = games !! code'
  /\ (GameManager.confirmSet games code p w).1.2 !! code' = games !! code'
  /\ (GameManager.clearSelection games code p).2 !! code' = games !! code'
  /\ GameManagerRest.endGame games code !! code' = games !! code'.
Proof.
  intros Hne. repeat split.
  - unfold GameManager.createGame. by rewrite lookup_insert_ne.
  - unfold GameManager.toggleCard.
    destruct (games !! code) as [g|]; [| done].
    destruct (negb _); [done |].
    destruct (Game.findPlayer _ _) as [[i pl]|]; cbn [snd];
      by rewrite lookup_insert_ne.
  - unfold GameManager.setPendingSet, bind, ret, Game.dateNow.
    destruct (games !! code) as [g|]; [| done].
    destruct (GameInstance.pendingSet g); [done |].
    cbn [fst]. by rewrite lookup_insert_ne.
  - by apply manager_claim_other.
  - by apply manager_confirm_other.
  - unfold GameManager.clearSelection.
    destruct (games !! code) as [g|]; [| done].
    cbn [snd]. by rewrite lookup_insert_ne.
  - unfold GameManagerRest.endGame.
    rewrite lookup_delete_ne by done. by apply stopGameLoop_other.
Qed.

Lemma rooms_do_not_interfere_witness :
  (@GameManager.claimSet Demo.oracle
     (<["other" := GameInstance.mk Demo.knownState None None]> Demo.confirmableGames)
     "test-confirm" "player1" ["card1"; "card2"; "card3"] Demo.w0).1.2 !! "other"
  = Some (GameInstance.mk Demo.knownState None None).
Proof.
  refine (eq_trans
            (proj1 (proj2 (proj2 (proj2
               (@rooms_do_not_interfere Demo.oracle
                  (<["other" := GameInstance.mk Demo.knownState None None]>
                     Demo.confirmableGames)
                  "test-confirm" "other" "player1" "card1"
                  ["card1"; "card2"; "card3"]%string Demo.knownState Demo.w0 _)))))
            _).
  - discriminate.
  - apply lookup_insert_eq.
Defined.

(** X18. The pending slot of a game goes to the first player that asks
    for it: [setPendingSet] on a free slot records the player, the ids and
    the time and changes nothing else; on a taken slot it changes nothing;
    after it, a further [setPendingSet] changes nothing, and [confirmSet]
    by any player but the holder is refused with NO_PENDING_SET and changes
    nothing. *)
Theorem pending_set_goes_to_the_first `{!Oracle}
    (games : gmap string GameInstance.t) (code : string) (game : GameInstance.t)
    (p : PlayerId) (ids : list CardId) (w : World.t) :
  games !! code = Some game ->
  let r := GameManager.setPendingSet games code p ids w in
  let held := default (PendingSet.mk p ids (World.now w))
                (GameInstance.pendingSet game) in
  r.2 = w
  /\ r.1 = <[code := GameInstance.mk (GameInstance.state game) (Some held)
                       (GameInstance.loopInterval game)]> games
  /\ (forall q ids' w', GameManager.setPendingSet r.1 code q ids' w' = (r.1, w'))
  /\ (forall q w', q <> PendingSet.playerId held ->
        GameManager.confirmSet r.1 code q w'
        = ((Err NO_PENDING_SET "No pending set to confirm", r.1), w')).
Proof.
  intros Hgame r held.
  assert (r = (<[code := GameInstance.mk (GameInstance.state game) (Some held)
                            (GameInstance.loopInterval game)]> games, w)) as Hr.
  { subst r held. unfold GameManager.setPendingSet, bind, ret, Game.dateNow.
    rewrite Hgame. destruct (GameInstance.pendingSet game) as [pd|] eqn:Hpd; [| done].
    rewrite insert_id; [done |].
    rewrite Hgame. destruct game. cbn in *. by subst. }
  rewrite Hr. cbn [fst snd]. split; [done |]. split; [done |]. split.
  - intros q ids' w'. unfold GameManager.setPendingSet.
    by rewrite lookup_insert_eq.
  - intros q w' Hq. eapply confirm_refused; [apply lookup_insert_eq |].
    cbn [GameInstance.pendingSet]. intros pd [= <-]. done.
Qed.

Lemma pending_set_goes_to_the_first_witness :
  (GameManager.setPendingSet Demo.confirmableGames "test-confirm"
     "player2" ["card1"; "card2"; "card3"] Demo.w0).1
  = <["test-confirm" := GameInstance.mk Demo.knownState (Some Demo.validPending) None]>
      Demo.confirmableGames.
Proof.
  refine (proj1 (proj2
            (@pending_set_goes_to_the_first Demo.oracle Demo.confirmableGames
               "test-confirm" (GameInstance.mk Demo.knownState (Some Demo.validPending) None)
               "player2" ["card1"; "card2"; "card3"]%string Demo.w0 _))).
  apply lookup_singleton_eq.
Defined.

(** X19. The manager's [clearSelection] clears the player's selection in
    the game and frees the pending slot exactly when the player holds it:
    after the holder cleared, every [confirmSet] is refused with
    NO_PENDING_SET; a pending set of another player stays. *)
Theorem clearSelection_frees_the_slot `{!Oracle}
    (games : gmap string GameInstance.t) (code : string) (game : GameInstance.t)
    (p : PlayerId) :
  games !! code = Some game ->
  let r := GameManager.clearSelection games code p in
  let pending' := match GameInstance.pendingSet game with
                  | Some pd => if decide (PendingSet.playerId pd = p)
                               then None else Some pd
                  | None => None
                  end in
  r.1 = Ok tt
  /\ r.2 = <[code := GameInstance.mk (Game.clearSelection (GameInstance.state game) p)
                       pending' (GameInstance.loopInterval game)]> games
  /\ (forall w, GameManager.confirmSet r.2 code p w
                = ((Err NO_PENDING_SET "No pending set to confirm", r.2), w))
  /\ (pending' = None ->
      forall q w, GameManager.confirmSet r.2 code q w
                  = ((Err NO_PENDING_SET "No pending set to confirm", r.2), w)).
Proof.
  intros Hgame r pending'.
  assert (r = (Ok tt,
               <[code := GameInstance.mk
                           (Game.clearSelection (GameInstance.state game) p)
                           pending' (GameInstance.loopInterval game)]> games)) as Hr.
  { subst r pending'. unfold GameManager.clearSelection. rewrite Hgame.
    destruct (GameInstance.pendingSet game) as [pd|]; [| done].
    by destruct (decide (PendingSet.playerId pd = p)) as [Heq|Hne];
      [rewrite (bool_decide_eq_true_2 _ Heq)
      | rewrite (bool_decide_eq_false_2 _ Hne)]. }
  rewrite Hr. cbn [fst snd]. split; [done |]. split; [done |]. split.
  - intros w. eapply confirm_refused; [apply lookup_insert_eq |].
    cbn [GameInstance.pendingSet]. subst pending'. intros pd Hpd.
    destruct (GameInstance.pendingSet game) as [pd'|]; [| done].
    destruct (decide (PendingSet.playerId pd' = p)); [done |]. congruence.
  - intros Hnone q w. eapply confirm_refused; [apply lookup_insert_eq |].
    cbn [GameInstance.pendingSet]. rewrite Hnone. done.
Qed.

Lemma clearSelection_frees_the_slot_witness :
  (@GameManager.confirmSet Demo.oracle
     (GameManager.clearSelection Demo.confirmableGames "test-confirm" "player1").2
     "test-confirm" "player1" Demo.w0).1.1
  = Err NO_PENDING_SET "No pending set to confirm".
Proof.
  refine (eq_trans
            (f_equal (fun x => x.1.1)
               (proj1 (proj2 (proj2
                  (@clearSelection_frees_the_slot Demo.oracle Demo.confirmableGames
                     "test-confirm"
                     (GameInstance.mk Demo.knownState (Some Demo.validPending) None)
                     "player1" _))) Demo.w0))
            _).
  - apply lookup_singleton_eq.
  - reflexivity.
Defined.

(** X20. What an accepted [claimSet] of the manager reports, on a
    well-formed game: [newCards] are exactly the cards dealt to replace the
    claimed ones, none of them a card of the old table, and the new table
    is the old one without the claimed cards, followed by them; [gameEnded]
    says that [checkGameEnd] gave a reason on the new state, and then the
    stored game has ended with that reason and its loop is stopped;
    otherwise the stored game is the engine's new state. *)
Theorem claim_reports_the_new_cards `{!Oracle}
    (games : gmap string GameInstance.t) (code : string) (game : GameInstance.t)
    (p : PlayerId) (ids : list CardId) (w : World.t)
    (ok : ClaimOk.t) (games' : gmap string GameInstance.t) (w' : World.t) :
  Inj (=) (=) idOf ->
  wellFormed w (GameInstance.state game) ->
  games !! code = Some game ->
  GameManager.claimSet games code p ids w = ((Ok ok, games'), w') ->
  let s' := (Game.claimSet (GameInstance.state game) p ids w).1.1 in
  exists game',
    games' !! code = Some game'
    /\ GameState.activeCards (GameInstance.state game')
       = remainingOf (GameInstance.state game) ids ++ ClaimOk.newCards ok
    /\ Forall (fun c => CardInstance.id c
                        ∉ CardInstance.id <$> GameState.activeCards
                                                (GameInstance.state game))
         (ClaimOk.newCards ok)
    /\ ClaimOk.claimedCardIds ok = ids
    /\ 0 < ClaimOk.pointsAwarded ok
    /\ match Game.checkGameEnd s' with
       | Some reason =>
           ClaimOk.gameEnded ok = true
           /\ GameInstance.state game' = Game.endGame s' reason
           /\ GameInstance.loopInterval game' = None
       | None =>
           ClaimOk.gameEnded ok = false /\ GameInstance.state game' = s'
       end.
Proof.
  intros Hinj Hwf Hgame Hrun s'. subst s'.
  unfold GameManager.claimSet, bind, ret in Hrun. rewrite Hgame in Hrun.
  destruct (Game.claimSet (GameInstance.state game) p ids w)
    as [[s' pts] w1] eqn:Hclaim.
  cbn [fst snd].
  destruct (pts =? 0) eqn:Hpts; [discriminate |].
  apply Z.eqb_neq in Hpts.
  destruct (reported_new_cards Hinj _ _ _ _ _ _ _ Hwf Hclaim Hpts)
    as (newCards & Hfilter & Htable & Hnew).
  assert (0 < pts) as Hpos.
  { destruct (claimSet_cases _ _ _ _ _ _ _ Hclaim) as [(? & _) | (_ & _ & ? & _)];
      [done | lia]. }
  rewrite Hfilter in Hrun.
  destruct (Game.checkGameEnd s') as [reason|].
  - injection Hrun as <- <- <-.
    eexists. split; [apply stopGameLoop_same, lookup_insert_eq |].
    cbn [GameInstance.state GameInstance.pendingSet GameInstance.loopInterval
         ClaimOk.newCards ClaimOk.claimedCardIds ClaimOk.pointsAwarded
         ClaimOk.gameEnded Game.endGame GameState.activeCards].
    done.
  - injection Hrun as <- <- <-.
    eexists. split; [apply lookup_insert_eq |].
    cbn [GameInstance.state GameInstance.pendingSet GameInstance.loopInterval
         ClaimOk.newCards ClaimOk.claimedCardIds ClaimOk.pointsAwarded
         ClaimOk.gameEnded]. done.
Qed.

Lemma claim_reports_the_new_cards_witness :
  let game := GameInstance.mk Demo.finiteGame.1 None None in
  exists ok games' w' game',
    @GameManager.claimSet Demo.oracle {[ "room"%string := game ]} "room" "A"
      Demo.claim3 Demo.finiteGame.2 = ((Ok ok, games'), w')
    /\ games' !! "room"%string = Some game'
    /\ GameState.activeCards (GameInstance.state game')
       = remainingOf (GameInstance.state game) Demo.claim3 ++ ClaimOk.newCards ok.
Proof.
  intros game.
  destruct (@GameManager.claimSet Demo.oracle {[ "room"%string := game ]} "room" "A"
              Demo.claim3 Demo.finiteGame.2) as [[r games'] w'] eqn:Hrun.
  assert (isError r = false) as Hok.
  { replace r with (@GameManager.claimSet Demo.oracle {[ "room"%string := game ]}
                      "room" "A" Demo.claim3 Demo.finiteGame.2).1.1
      by by rewrite Hrun.
    vm_compute. reflexivity. }
  destruct r as [ok | error message]; [| discriminate].
  assert (@wellFormed Demo.oracle Demo.finiteGame.2 (GameInstance.state game))
    as Hwf.
  { unfold game. apply stored_wellFormed.
    apply (@reachable_wellFormed Demo.oracle demo_ids_distinct anyClaim
             Demo.finiteGame).
    apply start_reachable. }
  destruct (@claim_reports_the_new_cards Demo.oracle {[ "room"%string := game ]}
              "room" game "A" Demo.claim3 Demo.finiteGame.2 ok games' w'
              demo_ids_distinct Hwf (lookup_singleton_eq _ _) Hrun)
    as (game' & Hgame' & Htable & _).
  exists ok, games', w', game'. split; [reflexivity |]. split; [exact Hgame' |].
  exact Htable.
Defined.

Section ManagerToggle.

(** [toggleCardSelection] changes at most the selection of the player:
    either nothing, or the entry of the player in the list. *)
Lemma toggle_shape s p c i pl :
  Game.findPlayer (GameState.players s) p = Some (i, pl) ->
  exists sel,
    Game.toggleCardSelection s p c
    = Game.withPlayers s (<[i := Game.withSelection pl sel]> (GameState.players s))
    /\ Game.findPlayer (GameState.players (Game.toggleCardSelection s p c)) p
       = Some (i, Game.withSelection pl sel).
Proof.
  intros Hfind. pose proof Hfind as (Hi & Hid & _)%list_find_Some.
  assert (exists sel,
            Game.toggleCardSelection s p c
            = Game.withPlayers s
                (<[i := Game.withSelection pl sel]> (GameState.players s)))
    as [sel Htoggle].
  { unfold Game.toggleCardSelection. rewrite Hfind. destruct (negb _).
    - exists (Player.selectedCardIds pl).
      by rewrite withSelection_same, list_insert_id, withPlayers_same.
    - eexists. reflexivity. }
  exists sel. split; [exact Htoggle |]. rewrite Htoggle.
  cbn [Game.withPlayers GameState.players]. unfold Game.findPlayer.
  rewrite (list_find_insert_other _ _ _ pl); [| exact Hi | done].
  fold (Game.findPlayer (GameState.players s) p). rewrite Hfind.
  cbn [fmap option_fmap option_map fst snd]. by rewrite decide_True.
Qed.

Lemma toggle_table s p c :
  GameState.activeCards (Game.toggleCardSelection s p c) = GameState.activeCards s.
Proof.
  unfold Game.toggleCardSelection.
  destruct (Game.findPlayer _ _) as [[i pl]|]; [| done].
  by destruct (negb _).
Qed.

End ManagerToggle.

(** X21. [toggleCard] of the manager is refused with GAME_NOT_STARTED when
    the room has no game or its game is not in phase 'playing', and with
    INVALID_REQUEST when the player is not in the game; a refusal leaves
    every game as it was.  Otherwise the manager stores the engine's toggle
    and leaves the pending slot alone, reports the player's new selection,
    and [validSetFormed] says whether the values of the selected cards of
    the table form a valid set. *)
Theorem toggleCard_outcomes (games : gmap string GameInstance.t) (code : string)
    (p : PlayerId) (c : CardId) :
  let r := GameManager.toggleCard games code p c in
  match games !! code with
  | None => r = (Err GAME_NOT_STARTED "Game not found", games)
  | Some g =>
      if decide (GameState.phase (GameInstance.state g) = playing)
      then
        let s' := Game.toggleCardSelection (GameInstance.state g) p c in
        match Game.findPlayer (GameState.players (GameInstance.state g)) p with
        | None => r = (Err INVALID_REQUEST "Player not found", games)
        | Some _ =>
            exists t,
              r = (Ok t,
                   <[code := GameInstance.mk s' (GameInstance.pendingSet g)
                               (GameInstance.loopInterval g)]> games)
              /\ ToggleOk.selectedCardIds t = selectionOf s' p
              /\ ToggleOk.validSetFormed t
                 = Validation.isValidSet
                     (CardInstance.value <$>
                        claimedOf (GameInstance.state g) (selectionOf s' p))
        end
      else r = (Err GAME_NOT_STARTED "Game is not active", games)
  end.
Proof.
  intros r. subst r. unfold GameManager.toggleCard.
  destruct (games !! code) as [g|] eqn:Hg; [| done].
  destruct (decide (GameState.phase (GameInstance.state g) = playing)) as [Hph|Hph].
  - rewrite (bool_decide_eq_true_2 _ Hph). cbn [negb].
    destruct (Game.findPlayer (GameState.players (GameInstance.state g)) p)
      as [[i pl]|] eqn:Hfind.
    + destruct (toggle_shape _ p c i pl Hfind) as (sel & _ & Hafter).
      cbv zeta. unfold selectionOf. rewrite Hafter. eexists.
      split; [reflexivity |]. split; [reflexivity |].
      cbn [ToggleOk.validSetFormed].
      unfold Game.isPlayerSelectionValid, Game.getSelectedCardValues.
      rewrite Hafter, toggle_table. reflexivity.
    + assert (Game.toggleCardSelection (GameInstance.state g) p c
              = GameInstance.state g) as ->.
      { unfold Game.toggleCardSelection. by rewrite Hfind. }
      rewrite Hfind, instance_eta. by rewrite insert_id.
  - by rewrite (bool_decide_eq_false_2 _ Hph).
Qed.

(** * The lobby manager *)

Section LobbyFacts.
Variable config : Config.t.

Lemma registryOk_insert lobbies code lobby :
  registryOk config lobbies ->
  LobbyState.code lobby = code ->
  lobbyOk config lobby ->
  registryOk config (<[code := lobby]> lobbies).
Proof.
  intros Hreg Hcode Hok code' lobby'.
  destruct (decide (code' = code)) as [->|Hne].
  - rewrite lookup_insert_eq. intros [= <-]. done.
  - rewrite lookup_insert_ne by done. apply Hreg.
Qed.

Lemma registryOk_delete lobbies code :
  registryOk config lobbies -> registryOk config (delete code lobbies).
Proof.
  intros Hreg code' lobby' [_ Hl]%lookup_delete_Some. by apply Hreg.
Qed.

Lemma renumber_ids ps :
  Player.id <$> LobbyManagerRest.renumber ps = Player.id <$> ps.
Proof. apply fmap_imap_same. reflexivity. Qed.

Lemma renumber_lookup ps i p :
  LobbyManagerRest.renumber ps !! i = Some p ->
  Player.playerNumber p = Z.of_nat i + 1
  /\ Player.color p = LobbyManager.colorAt i.
Proof.
  unfold LobbyManagerRest.renumber. rewrite list_lookup_imap.
  destruct (ps !! i) as [q|]; [| done]. by intros [= <-].
Qed.

Lemma renumber_head ps :
  Player.id <$> head (LobbyManagerRest.renumber ps) = Player.id <$> head ps.
Proof. by destruct ps. Qed.

(** Removing the one entry with the key of [x] from a list whose keys do
    not repeat. *)
Lemma delete_is_filter {A B} `{!EqDecision B} (f : A -> B) (l : list A) i x :
  NoDup (f <$> l) -> l !! i = Some x ->
  delete i l = filter (fun y => f y <> f x) l.
Proof.
  revert i. induction l as [|a l IH]; intros i Hnd Hi; [done |].
  rewrite fmap_cons in Hnd. apply NoDup_cons in Hnd as [Ha Hnd].
  destruct i as [|i]; cbn in Hi.
  - injection Hi as ->. cbn [delete list_delete].
    rewrite filter_cons_False by (intros Hne; by apply Hne).
    symmetry. apply filter_all, Forall_forall. intros y Hy Heq.
    apply Ha. rewrite <- Heq. by apply list_elem_of_fmap_2.
  - cbn [delete list_delete].
    rewrite filter_cons_True.
    + f_equal. by apply IH.
    + intros Heq. apply Ha. rewrite Heq. apply list_elem_of_fmap_2.
      by eapply list_elem_of_lookup_2.
Qed.

Lemma createLobby_ok `{!Oracle} fuel lobbies hostId hostName w lobby lobbies' w' :
  1 <= Config.maxPlayersPerLobby config ->
  LobbyManagerRest.createLobby config fuel lobbies hostId hostName w
  = (Some (lobby, lobbies'), w') ->
  registryOk config lobbies -> registryOk config lobbies'.
Proof.
  intros Hmax Hrun Hreg. unfold LobbyManagerRest.createLobby, bind, ret in Hrun.
  destruct (LobbyManagerRest.createLobby_loop config fuel lobbies w)
    as [[code|] w1]; [| discriminate].
  injection Hrun as <- <- <-.
  apply registryOk_insert; [done | done |].
  split; [apply NoDup_singleton |]. split; [done |]. split; [| split].
  - intros [|i] p; [| done]. by intros [= <-].
  - cbn [LobbyState.players length]. lia.
  - cbn [LobbyState.chatMessages length]. lia.
Qed.

Lemma joinLobby_ok lobbies code playerId playerName :
  registryOk config lobbies ->
  registryOk config
    (LobbyManager.joinLobby config lobbies code playerId playerName).2.
Proof.
  intros Hreg. unfold LobbyManager.joinLobby.
  destruct (lobbies !! code) as [lobby|] eqn:Hlobby; [| done].
  destruct (Hreg _ _ Hlobby) as (Hcode & Hnd & Hhost & Hnum & Hcap & Hchat).
  destruct (_ >=? _) eqn:Hfull; [done |].
  destruct (list_find _ _) as [[i existing]|] eqn:Hfind; [done |].
  cbn [snd]. apply registryOk_insert; [done | done |].
  rewrite Z.geb_leb in Hfull. apply Z.leb_gt in Hfull.
  split; [| split; [| split; [| split]]]; cbn [LobbyState.players
    LobbyState.hostId LobbyState.chatMessages].
  - rewrite fmap_app. apply NoDup_app. split; [done |]. split.
    + intros x Hx [->|[]%elem_of_nil]%elem_of_cons.
      apply list_elem_of_fmap in Hx as (q & Hq & Hin).
      apply list_find_None in Hfind. rewrite Forall_forall in Hfind.
      by apply (Hfind q).
    + apply NoDup_singleton.
  - destruct (LobbyState.players lobby); [done | exact Hhost].
  - intros i p Hi. apply lookup_snoc_Some in Hi as [[Hlt Hi] | [-> <-]].
    + by apply Hnum.
    + cbn [Player.playerNumber Player.color]. split; [lia |].
      f_equal. lia.
  - rewrite length_app. cbn [length]. lia.
  - done.
Qed.

Lemma leaveLobby_ok lobbies code playerId :
  registryOk config lobbies ->
  registryOk config (LobbyManagerRest.leaveLobby lobbies code playerId).2.
Proof.
  intros Hreg. unfold LobbyManagerRest.leaveLobby.
  destruct (lobbies !! code) as [lobby|] eqn:Hlobby; [| done].
  destruct (Hreg _ _ Hlobby) as (Hcode & Hnd & Hhost & Hnum & Hcap & Hchat).
  destruct (list_find _ _) as [[i pl]|] eqn:Hfind; [| done].
  apply list_find_Some in Hfind as (Hi & Hid & _).
  destruct (_ =? _)%nat eqn:Hempty; [by apply registryOk_delete |].
  apply Nat.eqb_neq in Hempty.
  assert (NoDup (Player.id <$> LobbyManagerRest.renumber
                                 (delete i (LobbyState.players lobby)))) as Hnd'.
  { rewrite renumber_ids. eapply sublist_NoDup; [exact Hnd |].
    apply fmap_sublist, sublist_delete. }
  assert (Z.of_nat (length (LobbyManagerRest.renumber
                              (delete i (LobbyState.players lobby))))
          <= Config.maxPlayersPerLobby config) as Hcap'.
  { unfold LobbyManagerRest.renumber. rewrite length_imap, length_delete by done.
    lia. }
  destruct (bool_decide (playerId = LobbyState.hostId lobby)) eqn:Hishost;
    cbn [snd]; (apply registryOk_insert; [done | done |]).
  - split; [done |]. split; [| split; [| done]];
      cbn [LobbyState.players LobbyState.hostId].
    + destruct (delete i (LobbyState.players lobby)); done.
    + intros j p. apply renumber_lookup.
  - apply bool_decide_eq_false in Hishost.
    split; [done |]. split; [| split; [| done]];
      cbn [LobbyManagerRest.withLobbyPlayers LobbyState.players LobbyState.hostId].
    + rewrite renumber_head, <- Hhost.
      destruct i as [|i]; [| by destruct (LobbyState.players lobby)].
      exfalso. apply Hishost. rewrite head_lookup, Hi in Hhost.
      cbn in Hhost. congruence.
    + intros j p. apply renumber_lookup.
Qed.

Lemma toggleReady_ok lobbies code playerId :
  registryOk config lobbies ->
  registryOk config (LobbyManagerRest.toggleReady lobbies code playerId).2.
Proof.
  intros Hreg. unfold LobbyManagerRest.toggleReady.
  destruct (lobbies !! code) as [lobby|] eqn:Hlobby; [| done].
  destruct (Hreg _ _ Hlobby) as (Hcode & Hnd & Hhost & Hnum & Hcap & Hchat).
  destruct (list_find _ _) as [[i pl]|] eqn:Hfind; [| done].
  apply list_find_Some in Hfind as (Hi & Hid & _).
  cbn [snd]. apply registryOk_insert; [done | done |].
  split; [| split; [| split; [| split]]];
    cbn [LobbyManagerRest.withLobbyPlayers LobbyState.players LobbyState.hostId
         LobbyState.chatMessages].
  - rewrite list_fmap_insert. cbn [Player.id].
    rewrite list_insert_id; [done |]. by rewrite list_lookup_fmap, Hi.
  - rewrite <- Hhost. destruct i as [|i];
      destruct (LobbyState.players lobby); cbn in *; congruence.
  - intros j p Hj. apply list_lookup_insert_Some in Hj
      as [(-> & <- & _) | (Hne & Hj)]; [| by apply Hnum].
    cbn [Player.playerNumber Player.color]. by apply Hnum.
  - by rewrite length_insert.
  - done.
Qed.

Lemma addChatMessage_ok lobbies code message :
  registryOk config lobbies ->
  registryOk config (LobbyManagerRest.addChatMessage lobbies code message).
Proof.
  intros Hreg. unfold LobbyManagerRest.addChatMessage.
  destruct (lobbies !! code) as [lobby|] eqn:Hlobby; [| done].
  destruct (Hreg _ _ Hlobby) as (Hcode & Hnd & Hhost & Hnum & Hcap & Hchat).
  apply registryOk_insert; [done | done |].
  split; [done |]. split; [done |]. split; [done |]. split; [done |].
  cbn [LobbyState.chatMessages].
  destruct (_ <? _)%nat eqn:Hmany.
  - rewrite length_drop. lia.
  - apply Nat.ltb_ge in Hmany. done.
Qed.

Lemma call_ok `{!Oracle} c lobbies w :
  1 <= Config.maxPlayersPerLobby config ->
  registryOk config lobbies -> registryOk config (call config c lobbies w).1.
Proof.
  intros Hmax Hreg. destruct c; cbn [call]; unfold bind, ret; cbn [fst].
  - destruct (LobbyManagerRest.createLobby config fuel lobbies hostId hostName w)
      as [[[lobby lobbies']|] w'] eqn:Hrun; cbn [fst]; [| done].
    by eapply createLobby_ok.
  - by apply joinLobby_ok.
  - by apply leaveLobby_ok.
  - unfold LobbyManagerRest.updateSettings.
    destruct (lobbies !! code) as [lobby|] eqn:Hlobby; [| done].
    destruct (_ && _); [done |]. cbn [snd].
    destruct (Hreg _ _ Hlobby) as [Hcode Hok].
    by apply registryOk_insert.
  - unfold LobbyManagerRest.toggleSettingsLock.
    destruct (lobbies !! code) as [lobby|] eqn:Hlobby; [| done].
    destruct (negb _); [done |]. cbn [snd].
    destruct (Hreg _ _ Hlobby) as [Hcode Hok].
    by apply registryOk_insert.
  - by apply toggleReady_ok.
  - by apply addChatMessage_ok.
  - by apply registryOk_delete.
Qed.

Lemma calls_ok `{!Oracle} cs lobbies w :
  1 <= Config.maxPlayersPerLobby config ->
  registryOk config lobbies -> registryOk config (calls config cs lobbies w).1.
Proof.
  intros Hmax. revert lobbies w.
  induction cs as [|c cs IH]; intros lobbies w Hreg; [done |].
  cbn [calls]. unfold bind.
  pose proof (call_ok c lobbies w Hmax Hreg) as Hstep.
  destruct (call config c lobbies w) as [lobbies' w']. by apply IH.
Qed.

End LobbyFacts.

(** X22. Whatever sequence of calls the lobby manager serves, starting with
    no lobby, every lobby it holds is filed under its own code, its players
    have distinct ids, its host is the first player, the players are
    numbered 1, 2, ... and coloured by position, they are at most
    [maxPlayersPerLobby], and at most 100 chat messages are kept. *)
Theorem lobby_registry_stays_in_order `{!Oracle} (config : Config.t)
    (cs : list LobbyCall) (w : World.t) :
  1 <= Config.maxPlayersPerLobby config ->
  registryOk config (calls config cs ∅ w).1.
Proof.
  intros Hmax. apply calls_ok; [exact Hmax |].
  intros code lobby Hlobby. by apply lookup_empty_Some in Hlobby.
Qed.

Lemma lobby_registry_stays_in_order_witness :
  registryOk Config.defaults
    (@calls Demo.oracle Config.defaults
       [callCreate 1 "h" "Host"; callJoin "AAAAAA" "g" "Guest";
        callLeave "AAAAAA" "h"] ∅ Demo.w0).1.
Proof.
  apply (@lobby_registry_stays_in_order Demo.oracle Config.defaults
           [callCreate 1 "h" "Host"; callJoin "AAAAAA" "g" "Guest";
            callLeave "AAAAAA" "h"] Demo.w0).
  vm_compute. discriminate.
Defined.

(** X23. [leaveLobby] on a lobby in order: a player that is not a member
    is refused with INVALID_REQUEST and nothing changes; the last player
    leaving deletes the lobby; otherwise the lobby keeps the other players
    in their order, each with its id, name, cards, selection, score and
    flags, and with the number [i + 1] and the colour [PLAYER_COLORS[i % 8]]
    of its new position [i]; when the host left, the first of them is the
    new host and is reported; code, settings, lock and chat stay. *)
Theorem leaveLobby_outcomes (config : Config.t)
    (lobbies : gmap string LobbyState.t) (code : string) (lobby : LobbyState.t)
    (p : PlayerId) :
  lobbies !! code = Some lobby ->
  lobbyOk config lobby ->
  let r := LobbyManagerRest.leaveLobby lobbies code p in
  let rest := filter (fun q => Player.id q <> p) (LobbyState.players lobby) in
  (p ∉ Player.id <$> LobbyState.players lobby ->
   r = (Err INVALID_REQUEST "Player not in lobby", lobbies))
  /\ (p ∈ Player.id <$> LobbyState.players lobby -> rest = [] ->
      r = (Ok (LeaveOk.mk true None), delete code lobbies))
  /\ (forall first others,
        p ∈ Player.id <$> LobbyState.players lobby ->
        rest = first :: others ->
        let hostLeft := bool_decide (p = LobbyState.hostId lobby) in
        exists players',
          r = (Ok (LeaveOk.mk false
                     (if hostLeft then Some (Player.id first) else None)),
               <[code := LobbyState.mk (LobbyState.code lobby)
                           (if hostLeft then Player.id first
                            else LobbyState.hostId lobby)
                           players'
                           (LobbyState.settings lobby)
                           (LobbyState.settingsUnlocked lobby)
                           (LobbyState.chatMessages lobby)]> lobbies)
          /\ length players' = length rest
          /\ forall i q,
               rest !! i = Some q ->
               exists q',
                 players' !! i = Some q'
                 /\ Player.playerNumber q' = Z.of_nat i + 1
                 /\ LobbyManager.PLAYER_COLORS !! (i mod 8)%nat
                    = Some (Player.color q')
                 /\ Player.id q' = Player.id q
                 /\ Player.name q' = Player.name q
                 /\ Player.claimedCards q' = Player.claimedCards q
                 /\ Player.selectedCardIds q' = Player.selectedCardIds q
                 /\ Player.score q' = Player.score q
                 /\ Player.isConnected q' = Player.isConnected q
                 /\ Player.isReady q' = Player.isReady q).
Proof.
  intros Hlobby (Hnd & Hhost & _) r rest. subst r.
  unfold LobbyManagerRest.leaveLobby. rewrite Hlobby.
  assert (p ∈ Player.id <$> LobbyState.players lobby ->
          exists i pl,
            list_find (fun q => Player.id q = p) (LobbyState.players lobby)
            = Some (i, pl)
            /\ delete i (LobbyState.players lobby) = rest) as Hmember.
  { intros (pl0 & Hp & Hin)%list_elem_of_fmap.
    destruct (list_find_elem_of (fun q => Player.id q = p) _ pl0 Hin (eq_sym Hp))
      as [[i pl] Hfind].
    exists i, pl. split; [done |].
    apply list_find_Some in Hfind as (Hi & Hid & _).
    by rewrite (delete_is_filter Player.id _ i pl Hnd Hi), Hid. }
  split; [| split].
  - intros Hout.
    destruct (list_find _ _) as [[i pl]|] eqn:Hfind; [| done].
    apply list_find_Some in Hfind as (Hi & Hid & _).
    exfalso. apply Hout. rewrite <- Hid. apply list_elem_of_fmap_2.
    by eapply list_elem_of_lookup_2.
  - intros Hin Hrest. destruct (Hmember Hin) as (i & pl & Hfind & Hdel).
    by rewrite Hfind, Hdel, Hrest.
  - intros first others Hin Hrest.
    destruct (Hmember Hin) as (i & pl & Hfind & Hdel).
    rewrite Hfind, Hdel, Hrest. cbn [length Nat.eqb].
    exists (LobbyManagerRest.renumber (first :: others)). split; [| split].
    + destruct (bool_decide (p = LobbyState.hostId lobby)); done.
    + unfold LobbyManagerRest.renumber. by rewrite length_imap.
    + intros j q Hq. unfold LobbyManagerRest.renumber.
      rewrite list_lookup_imap, Hq. eexists. split; [reflexivity |].
      cbn [Player.playerNumber Player.color Player.id Player.name
           Player.claimedCards Player.selectedCardIds Player.score
           Player.isConnected Player.isReady].
      split; [done |]. split; [| done].
      unfold LobbyManager.colorAt.
      change (length LobbyManager.PLAYER_COLORS) with 8%nat.
      destruct (LobbyManager.PLAYER_COLORS !! (j mod 8)%nat) as [colour|] eqn:Hc;
        [done |].
      apply lookup_ge_None in Hc.
      change (length LobbyManager.PLAYER_COLORS) with 8%nat in Hc.
      pose proof (Nat.mod_upper_bound j 8). lia.
Qed.

Section LobbyDemo.

Lemma fullLobby_in_order : lobbyOk Config.defaults Demo.fullLobby.
Proof.
  split; [| split; [| split; [| split]]].
  - refine (bool_decide_unpack _ _). vm_compute. exact I.
  - reflexivity.
  - intros i p Hi.
    assert (i < 8)%nat as Hlt
      by (apply lookup_lt_Some in Hi; exact Hi).
    do 8 (destruct i as [|i]; [injection Hi as <-; split; reflexivity |]).
    exfalso. lia.
  - vm_compute. discriminate.
  - cbn. lia.
Qed.

End LobbyDemo.

Lemma leaveLobby_outcomes_witness :
  exists lobbies',
    LobbyManagerRest.leaveLobby Demo.lobbies "ABCDEF" "p1"
    = (Ok (LeaveOk.mk false (Some "p2"%string)), lobbies').
Proof.
  assert ("p1"%string ∈ Player.id <$> LobbyState.players Demo.fullLobby) as Hin.
  { refine (bool_decide_unpack _ _). vm_compute. exact I. }
  assert (exists first others,
            filter (fun q => Player.id q <> "p1"%string)
              (LobbyState.players Demo.fullLobby) = first :: others
            /\ Player.id first = "p2"%string) as (first & others & Hrest & Hfirst).
  { eexists _, _. split; [vm_compute; reflexivity | reflexivity]. }
  destruct (proj2 (proj2 (leaveLobby_outcomes Config.defaults Demo.lobbies "ABCDEF"
                            Demo.fullLobby "p1" (lookup_singleton_eq _ _)
                            fullLobby_in_order)) first others Hin Hrest)
    as (players' & Hrun & _).
  rewrite Hrun, Hfirst. eexists. reflexivity.
Defined.

Section LobbySettings.

Lemma lobby_eta (lobby : LobbyState.t) :
  LobbyState.mk (LobbyState.code lobby) (LobbyState.hostId lobby)
    (LobbyState.players lobby) (LobbyState.settings lobby)
    (LobbyState.settingsUnlocked lobby) (LobbyState.chatMessages lobby) = lobby.
Proof. by destruct lobby. Qed.

Lemma mergeSettings_twice settings patch :
  LobbyManagerRest.mergeSettings
    (LobbyManagerRest.mergeSettings settings patch) patch
  = LobbyManagerRest.mergeSettings settings patch.
Proof.
  unfold LobbyManagerRest.mergeSettings. destruct patch as [a b c d e f g].
  cbn. by destruct a, b, c, d, e, f, g.
Qed.

End LobbySettings.

(** X24. Who may change the settings of a lobby.  [updateSettings] is
    refused with SETTINGS_LOCKED, and changes nothing, when the settings
    are locked and the caller is not the host; otherwise it stores and
    returns the lobby with new settings and nothing else changed: every
    field the patch gives takes the value of the patch, every field the
    patch leaves out keeps its value; sending the same patch again changes
    nothing more.  [toggleSettingsLock] is for the host alone (NOT_HOST for
    the others, nothing changed): it flips the lock and nothing else, so
    that after the host unlocked, every caller's [updateSettings] goes
    through, and toggling twice gives back the registry as it was. *)
Theorem settings_need_the_host_or_the_unlock
    (lobbies : gmap string LobbyState.t) (code : string) (lobby : LobbyState.t)
    (p : PlayerId) (patch : PartialSettings.t) :
  lobbies !! code = Some lobby ->
  let old := LobbyState.settings lobby in
  let flipped := LobbyState.mk (LobbyState.code lobby) (LobbyState.hostId lobby)
                   (LobbyState.players lobby) (LobbyState.settings lobby)
                   (negb (LobbyState.settingsUnlocked lobby))
                   (LobbyState.chatMessages lobby) in
  (p <> LobbyState.hostId lobby -> LobbyState.settingsUnlocked lobby = false ->
   LobbyManagerRest.updateSettings lobbies code p patch
   = (Err SETTINGS_LOCKED "Only host can change settings", lobbies))
  /\ (p = LobbyState.hostId lobby \/ LobbyState.settingsUnlocked lobby = true ->
      exists new,
        let merged := LobbyState.mk (LobbyState.code lobby)
                        (LobbyState.hostId lobby) (LobbyState.players lobby) new
                        (LobbyState.settingsUnlocked lobby)
                        (LobbyState.chatMessages lobby) in
        LobbyManagerRest.updateSettings lobbies code p patch
        = (Ok merged, <[code := merged]> lobbies)
        /\ Settings.colorsEnabled new
           = default (Settings.colorsEnabled old)
               (PartialSettings.colorsEnabled patch)
        /\ Settings.binaryMode new
           = default (Settings.binaryMode old) (PartialSettings.binaryMode patch)
        /\ Settings.turnTimer new
           = default (Settings.turnTimer old) (PartialSettings.turnTimer patch)
        /\ Settings.gameTimer new
           = default (Settings.gameTimer old) (PartialSettings.gameTimer patch)
        /\ Settings.setFoundBehavior new
           = default (Settings.setFoundBehavior old)
               (PartialSettings.setFoundBehavior patch)
        /\ Settings.infiniteDeck new
           = default (Settings.infiniteDeck old)
               (PartialSettings.infiniteDeck patch)
        /\ Settings.scoringMode new
           = match PartialSettings.scoringMode patch with
             | Some mode => Some mode
             | None => Settings.scoringMode old
             end
        /\ LobbyManagerRest.updateSettings (<[code := merged]> lobbies) code
             (LobbyState.hostId lobby) patch
           = (Ok merged, <[code := merged]> lobbies))
  /\ LobbyManagerRest.toggleSettingsLock lobbies code p
     = (if decide (p = LobbyState.hostId lobby)
        then (Ok flipped, <[code := flipped]> lobbies)
        else (Err NOT_HOST "Only host can toggle settings lock", lobbies))
  /\ (LobbyState.settingsUnlocked lobby = false ->
      isError (LobbyManagerRest.updateSettings (<[code := flipped]> lobbies)
                 code p patch).1 = false)
  /\ (LobbyManagerRest.toggleSettingsLock (<[code := flipped]> lobbies) code
        (LobbyState.hostId lobby)).2 = lobbies.
Proof.
  intros Hlobby old flipped. subst old flipped.
  split; [| split; [| split; [| split]]].
  - intros Hno Hlocked. unfold LobbyManagerRest.updateSettings.
    rewrite Hlobby, Hlocked. by rewrite (bool_decide_eq_false_2 _ Hno).
  - intros Hmay.
    exists (LobbyManagerRest.mergeSettings (LobbyState.settings lobby) patch).
    cbv zeta. split; [| split; [| split; [| split; [| split; [| split;
      [| split; [| split]]]]]]]; try reflexivity.
    + unfold LobbyManagerRest.updateSettings. rewrite Hlobby.
      destruct Hmay as [Hhost | Hopen].
      * rewrite (bool_decide_eq_true_2 _ Hhost). by rewrite andb_false_r.
      * by rewrite Hopen.
    + unfold LobbyManagerRest.updateSettings. rewrite lookup_insert_eq.
      cbn [LobbyState.settingsUnlocked LobbyState.hostId LobbyState.code
           LobbyState.players LobbyState.settings LobbyState.chatMessages].
      rewrite bool_decide_eq_true_2 by done. rewrite andb_false_r.
      rewrite mergeSettings_twice. by rewrite insert_insert_eq.
  - unfold LobbyManagerRest.toggleSettingsLock. rewrite Hlobby.
    destruct (decide (p = LobbyState.hostId lobby)) as [Hhost | Hno].
    + by rewrite (bool_decide_eq_true_2 _ Hhost).
    + by rewrite (bool_decide_eq_false_2 _ Hno).
  - intros Hlocked. unfold LobbyManagerRest.updateSettings.
    rewrite lookup_insert_eq. cbn [LobbyState.settingsUnlocked].
    by rewrite Hlocked.
  - unfold LobbyManagerRest.toggleSettingsLock. rewrite lookup_insert_eq.
    cbn [LobbyState.settingsUnlocked LobbyState.hostId LobbyState.code
         LobbyState.players LobbyState.settings LobbyState.chatMessages].
    rewrite bool_decide_eq_true_2 by done. cbn [negb snd].
    rewrite negb_involutive, lobby_eta, insert_insert_eq. by apply insert_id.
Qed.

Lemma settings_need_the_host_or_the_unlock_witness :
  exists new lobbies',
    LobbyManagerRest.updateSettings Demo.lobbies "ABCDEF" "p1"
      (PartialSettings.mk None None None None None (Some true) (Some sets))
    = (Ok (LobbyState.mk "ABCDEF" "p1" (LobbyState.players Demo.fullLobby) new
             false []), lobbies')
    /\ Settings.infiniteDeck new = true
    /\ Settings.scoringMode new = Some sets
    /\ Settings.colorsEnabled new = true.
Proof.
  destruct (proj1 (proj2
              (settings_need_the_host_or_the_unlock Demo.lobbies "ABCDEF"
                 Demo.fullLobby "p1"
                 (PartialSettings.mk None None None None None (Some true)
                    (Some sets))
                 (lookup_singleton_eq _ _))) (or_introl eq_refl))
    as (new & Hrun & Hcolors & _ & _ & _ & _ & Hdeck & Hmode & _).
  exists new. eexists. split; [exact Hrun |].
  split; [exact Hdeck |]. split; [exact Hmode | exact Hcolors].
Defined.

(** X25. Readiness does not gate the start.  [canStartGame] answers
    { canStart: true } exactly to the host of the lobby, NOT_HOST to
    everybody else, and [toggleReady] by anyone leaves that answer as it
    was.  [toggleReady] flips the ready flag of the first player with the
    given id and nothing else, is refused with INVALID_REQUEST for a
    non-member without changing anything, and applied twice gives back the
    registry as it was. *)
Theorem ready_flags_do_not_gate_the_start
    (lobbies : gmap string LobbyState.t) (code : string) (lobby : LobbyState.t)
    (p q : PlayerId) :
  lobbies !! code = Some lobby ->
  let r := LobbyManagerRest.toggleReady lobbies code q in
  LobbyManagerRest.canStartGame lobbies code p
  = (if decide (p = LobbyState.hostId lobby) then Ok tt
     else Err NOT_HOST "Only host can start the game")
  /\ LobbyManagerRest.canStartGame r.2 code p
     = LobbyManagerRest.canStartGame lobbies code p
  /\ (LobbyManagerRest.toggleReady r.2 code q).2 = lobbies
  /\ match list_find (fun pl => Player.id pl = q) (LobbyState.players lobby) with
     | None => r = (Err INVALID_REQUEST "Player not in lobby", lobbies)
     | Some (i, pl) =>
         exists lobby',
           r = (Ok lobby', <[code := lobby']> lobbies)
           /\ LobbyState.players lobby'
              = <[i := Player.mk (Player.id pl) (Player.name pl)
                         (Player.playerNumber pl) (Player.color pl)
                         (Player.claimedCards pl) (Player.selectedCardIds pl)
                         (Player.score pl) (Player.isConnected pl)
                         (negb (Player.isReady pl))]> (LobbyState.players lobby)
           /\ LobbyState.hostId lobby' = LobbyState.hostId lobby
           /\ LobbyState.settings lobby' = LobbyState.settings lobby
           /\ LobbyState.settingsUnlocked lobby' = LobbyState.settingsUnlocked lobby
           /\ LobbyState.chatMessages lobby' = LobbyState.chatMessages lobby
     end.
Proof.
  intros Hlobby r.
  assert (LobbyManagerRest.canStartGame lobbies code p
          = (if decide (p = LobbyState.hostId lobby) then Ok tt
             else Err NOT_HOST "Only host can start the game")) as Hstart.
  { unfold LobbyManagerRest.canStartGame. rewrite Hlobby.
    destruct (decide (p = LobbyState.hostId lobby)) as [Hhost | Hno].
    - by rewrite (bool_decide_eq_true_2 _ Hhost).
    - by rewrite (bool_decide_eq_false_2 _ Hno). }
  split; [exact Hstart |].
  assert (LobbyManagerRest.toggleReady lobbies code q
          = match list_find (fun pl => Player.id pl = q)
                    (LobbyState.players lobby) with
            | None => (Err INVALID_REQUEST "Player not in lobby", lobbies)
            | Some (i, pl) =>
                let lobby' :=
                  LobbyManagerRest.withLobbyPlayers lobby
                    (<[i := Player.mk (Player.id pl) (Player.name pl)
                              (Player.playerNumber pl) (Player.color pl)
                              (Player.claimedCards pl) (Player.selectedCardIds pl)
                              (Player.score pl) (Player.isConnected pl)
                              (negb (Player.isReady pl))]>
                       (LobbyState.players lobby)) in
                (Ok lobby', <[code := lobby']> lobbies)
            end) as Hr.
  { unfold LobbyManagerRest.toggleReady. by rewrite Hlobby. }
  subst r. rewrite Hr. clear Hr.
  destruct (list_find (fun pl => Player.id pl = q) (LobbyState.players lobby))
    as [[i pl]|] eqn:Hfind; cbv zeta; cbn [snd].
  - pose proof Hfind as (Hi & Hid & _)%list_find_Some.
    split; [| split].
    + unfold LobbyManagerRest.canStartGame.
      by rewrite lookup_insert_eq, Hlobby.
    + unfold LobbyManagerRest.toggleReady. rewrite lookup_insert_eq.
      cbn [LobbyManagerRest.withLobbyPlayers LobbyState.players].
      rewrite (list_find_insert_other _ _ _ pl); [| exact Hi | done].
      rewrite Hfind. cbn [fmap option_fmap option_map fst snd].
      rewrite decide_True by done. cbn [snd].
      cbn [LobbyManagerRest.withLobbyPlayers LobbyState.players LobbyState.code
           LobbyState.hostId LobbyState.settings LobbyState.settingsUnlocked
           LobbyState.chatMessages Player.id Player.name Player.playerNumber
           Player.color Player.claimedCards Player.selectedCardIds Player.score
           Player.isConnected Player.isReady].
      rewrite list_insert_insert_eq, negb_involutive, insert_insert_eq.
      apply insert_id. rewrite Hlobby. f_equal.
      unfold LobbyManagerRest.withLobbyPlayers.
      cbn [LobbyState.code LobbyState.hostId LobbyState.settings
           LobbyState.settingsUnlocked LobbyState.chatMessages].
      replace (Player.mk _ _ _ _ _ _ _ _ _) with pl by by destruct pl.
      rewrite list_insert_id by done. by rewrite lobby_eta.
    + eexists. split; [reflexivity |]. done.
  - split; [done |]. split; [| done].
    unfold LobbyManagerRest.toggleReady. by rewrite Hlobby, Hfind.
Qed.

Lemma ready_flags_do_not_gate_the_start_witness :
  LobbyManagerRest.canStartGame
    (LobbyManagerRest.toggleReady Demo.lobbies "ABCDEF" "p3").2 "ABCDEF" "p1"
  = Ok tt.
Proof.
  destruct (ready_flags_do_not_gate_the_start Demo.lobbies "ABCDEF"
              Demo.fullLobby "p1" "p3" (lookup_singleton_eq _ _))
    as (Hstart & Hsame & _).
  exact (eq_trans Hsame Hstart).
Defined.

Section LobbyCodes.
Context `{!Oracle}.

Lemma chars_length (a : string) :
  String.length a = length (String.list_ascii_of_string a).
Proof. induction a as [|c a IH]; [done |]. simpl. by rewrite IH. Qed.

Lemma get_chars (s : string) (i : nat) :
  String.get i s = String.list_ascii_of_string s !! i.
Proof.
  revert i. induction s as [|c s IH]; intros [|i]; try done.
  cbn. apply IH.
Qed.

Lemma append_assoc (a b c : string) : (a +:+ b) +:+ c = a +:+ (b +:+ c).
Proof.
  induction a as [|x a IH]; [done |].
  change (String x ((a +:+ b) +:+ c) = String x (a +:+ (b +:+ c))).
  by rewrite IH.
Qed.

Lemma append_empty (a : string) : a +:+ EmptyString = a.
Proof.
  induction a as [|x a IH]; [done |].
  change (String x (a +:+ EmptyString) = String x a). by rewrite IH.
Qed.

Lemma codeDrawn_succ n d :
  codeDrawn (S n) d
  = Ids.charAt Ids.LOBBY_CODE_CHARS
      (rndOf d mod String.length Ids.LOBBY_CODE_CHARS)
    +:+ codeDrawn n (S d).
Proof.
  unfold codeDrawn, Ids.charAt. rewrite get_chars.
  change (String.length Ids.LOBBY_CODE_CHARS) with 31%nat.
  change (seq 0 (S n)) with (0%nat :: seq 1 n).
  rewrite <- fmap_S_seq, omap_cons, Nat.add_0_r.
  fold Ids.LOBBY_CODE_CHARS.
  replace (omap _ (S <$> seq 0 n))
    with (omap (fun j => String.list_ascii_of_string Ids.LOBBY_CODE_CHARS
                           !! (rndOf (S d + j) mod 31)%nat) (seq 0 n)).
  - by destruct (String.list_ascii_of_string Ids.LOBBY_CODE_CHARS
                   !! (rndOf d mod 31)%nat).
  - generalize (seq 0 n). intros l. induction l as [|j l IH]; [done |].
    rewrite fmap_cons, !omap_cons, IH.
    by replace (d + S j)%nat with (S d + j)%nat by lia.
Qed.

Lemma codeDrawn_length n d : String.length (codeDrawn n d) = n.
Proof.
  revert d. induction n as [|n IH]; intros d; [done |].
  rewrite codeDrawn_succ. unfold Ids.charAt. rewrite get_chars.
  change (String.length Ids.LOBBY_CODE_CHARS) with 31%nat.
  destruct (String.list_ascii_of_string Ids.LOBBY_CODE_CHARS
              !! (rndOf d mod 31)%nat) as [c|] eqn:Hc.
  - change (S (String.length (codeDrawn n (S d))) = S n). by rewrite IH.
  - apply lookup_ge_None in Hc.
    change (length (String.list_ascii_of_string Ids.LOBBY_CODE_CHARS))
      with 31%nat in Hc.
    pose proof (Nat.mod_upper_bound (rndOf d) 31). lia.
Qed.

(** The loop appends the code that its draws spell. *)
Lemma generateLobbyCode_loop_spec n code w :
  Ids.generateLobbyCode_loop n code w
  = (code +:+ codeDrawn n (World.drawn w),
     World.mk (World.minted w) (World.drawn w + n) (World.now w)).
Proof.
  revert code w. induction n as [|n IH]; intros code w.
  - cbn [Ids.generateLobbyCode_loop ret].
    change (codeDrawn 0 (World.drawn w)) with EmptyString.
    rewrite append_empty, Nat.add_0_r. by destruct w.
  - cbn [Ids.generateLobbyCode_loop]. unfold bind, Deck.randomBelow.
    rewrite IH. cbn [World.minted World.drawn World.now].
    rewrite codeDrawn_succ, append_assoc. do 2 f_equal. lia.
Qed.

Lemma generateLobbyCode_spec len w :
  Ids.generateLobbyCode len w
  = (codeDrawn (Z.to_nat len) (World.drawn w),
     World.mk (World.minted w) (World.drawn w + Z.to_nat len) (World.now w)).
Proof. unfold Ids.generateLobbyCode. by rewrite generateLobbyCode_loop_spec. Qed.

(** The search stops at the first round whose code is free. *)
Lemma createLobby_loop_found config fuel lobbies w k :
  let len := Z.to_nat (Config.lobbyCodeLength config) in
  (forall j, (j < k)%nat ->
             is_Some (lobbies !! codeDrawn len (World.drawn w + j * len))) ->
  lobbies !! codeDrawn len (World.drawn w + k * len) = None ->
  (k < fuel)%nat ->
  LobbyManagerRest.createLobby_loop config fuel lobbies w
  = (Some (codeDrawn len (World.drawn w + k * len)),
     World.mk (World.minted w) (World.drawn w + (k + 1) * len) (World.now w)).
Proof.
  intros len. revert fuel w.
  induction k as [|k IH]; intros fuel w Htaken Hfree Hfuel;
    (destruct fuel as [|fuel]; [lia |]);
    cbn [LobbyManagerRest.createLobby_loop]; unfold bind;
    rewrite generateLobbyCode_spec; fold len.
  - rewrite Nat.mul_0_l, Nat.add_0_r in Hfree. rewrite Hfree.
    rewrite bool_decide_eq_false_2 by by intros [? ?].
    unfold ret. rewrite Nat.mul_0_l, Nat.add_0_r. do 3 f_equal. lia.
  - pose proof (Htaken 0%nat ltac:(lia)) as Hfirst.
    rewrite Nat.mul_0_l, Nat.add_0_r in Hfirst.
    rewrite (bool_decide_eq_true_2 _ Hfirst).
    rewrite (IH fuel); cbn [World.minted World.drawn World.now].
    + replace (World.drawn w + len + k * len)%nat
        with (World.drawn w + S k * len)%nat by lia.
      by replace (World.drawn w + len + (k + 1) * len)%nat
        with (World.drawn w + (S k + 1) * len)%nat by lia.
    + intros j Hj. specialize (Htaken (S j) ltac:(lia)).
      by replace (World.drawn w + len + j * len)%nat
        with (World.drawn w + S j * len)%nat by lia.
    + by replace (World.drawn w + len + k * len)%nat
        with (World.drawn w + S k * len)%nat by lia.
    + lia.
Qed.

(** The search goes through all its rounds when every code is taken. *)
Lemma createLobby_loop_exhausted config fuel lobbies w :
  let len := Z.to_nat (Config.lobbyCodeLength config) in
  (forall j, (j < fuel)%nat ->
             is_Some (lobbies !! codeDrawn len (World.drawn w + j * len))) ->
  LobbyManagerRest.createLobby_loop config fuel lobbies w
  = (None,
     World.mk (World.minted w) (World.drawn w + fuel * len) (World.now w)).
Proof.
  intros len. revert w. induction fuel as [|fuel IH]; intros w Htaken.
  - cbn. unfold ret. rewrite Nat.add_0_r. by destruct w.
  - cbn [LobbyManagerRest.createLobby_loop]. unfold bind.
    rewrite generateLobbyCode_spec. fold len.
    pose proof (Htaken 0%nat ltac:(lia)) as Hfirst.
    rewrite Nat.mul_0_l, Nat.add_0_r in Hfirst.
    rewrite (bool_decide_eq_true_2 _ Hfirst).
    rewrite IH; cbn [World.minted World.drawn World.now].
    + by replace (World.drawn w + len + fuel * len)%nat
        with (World.drawn w + S fuel * len)%nat by lia.
    + intros j Hj. specialize (Htaken (S j) ltac:(lia)).
      by replace (World.drawn w + len + j * len)%nat
        with (World.drawn w + S j * len)%nat by lia.
Qed.

End LobbyCodes.

(** X26. [createLobby] draws lobby codes, each of [lobbyCodeLength]
    characters of the code alphabet chosen by the next random draws, until
    a code is free.  When the codes of the first [k] rounds are taken and
    the code of round [k] is free, it files under that code, whatever the
    number of rounds allowed beyond [k], a lobby with the host as its only
    player (number 1, blue, connected, not ready), the default multiplayer
    settings, locked, and no chat message, and returns it; the lobbies
    that existed stay; it has used the random draws of [k + 1] rounds.  As
    long as every code drawn is taken, the search goes on. *)
Theorem createLobby_files_a_fresh_lobby `{!Oracle} (config : Config.t)
    (fuel : nat) (lobbies : gmap string LobbyState.t) (hostId hostName : string)
    (w : World.t) (k : nat) :
  let len := Z.to_nat (Config.lobbyCodeLength config) in
  let round j := codeDrawn len (World.drawn w + j * len) in
  let lobby :=
    LobbyState.mk (round k) hostId
      [Player.mk hostId hostName 1 "#3B82F6" [] [] 0 true false]
      DEFAULT_MULTIPLAYER_SETTINGS false [] in
  (forall j, (j < k)%nat -> is_Some (lobbies !! round j)) ->
  ((k < fuel)%nat -> lobbies !! round k = None ->
   LobbyManagerRest.createLobby config fuel lobbies hostId hostName w
   = (Some (lobby, <[round k := lobby]> lobbies),
      World.mk (World.minted w) (World.drawn w + (k + 1) * len) (World.now w)))
  /\ (k = fuel ->
      LobbyManagerRest.createLobby config fuel lobbies hostId hostName w
      = (None,
         World.mk (World.minted w) (World.drawn w + fuel * len) (World.now w)))
  /\ String.length (round k) = len.
Proof.
  intros len round lobby Htaken. split; [| split].
  - intros Hfuel Hfree. unfold LobbyManagerRest.createLobby, bind.
    by rewrite (createLobby_loop_found config fuel lobbies w k Htaken Hfree Hfuel).
  - intros ->. unfold LobbyManagerRest.createLobby, bind.
    by rewrite (createLobby_loop_exhausted config fuel lobbies w Htaken).
  - apply codeDrawn_length.
Qed.

Lemma createLobby_files_a_fresh_lobby_witness :
  LobbyState.code <$>
    (fst <$> (@LobbyManagerRest.createLobby Counting.oracle Config.defaults 5
                Demo.lobbies "h" "Host" Demo.w0).1)
  = Some "GHJKMN"%string.
Proof.
  assert (@codeDrawn Counting.oracle 6 (0 + 0 * 6) = "ABCDEF"%string) as Hzero
    by (vm_compute; reflexivity).
  assert (@codeDrawn Counting.oracle 6 (0 + 1 * 6) = "GHJKMN"%string) as Hone
    by (vm_compute; reflexivity).
  rewrite (proj1 (@createLobby_files_a_fresh_lobby Counting.oracle
                    Config.defaults 5 Demo.lobbies "h" "Host" Demo.w0 1
                    ltac:(intros j Hj; replace j with 0%nat by lia;
                          change (is_Some (Demo.lobbies
                                    !! @codeDrawn Counting.oracle 6 (0 + 0 * 6)));
                          rewrite Hzero; by eexists))
            ltac:(lia)
            ltac:(change (Demo.lobbies
                            !! @codeDrawn Counting.oracle 6 (0 + 1 * 6) = None);
                  rewrite Hone; reflexivity)).
  cbn [fst fmap option_fmap option_map LobbyState.code].
  exact (f_equal Some Hone).
Defined.

(** * Finding sets *)

Section FindSets.

(** The indices a mask selects among [i, i + 1, ...]. *)
Lemma extract_spec cards i mask subset indices :
  0 <= mask < 2 ^ 31 -> 0 <= i -> i + Z.of_nat (length cards) <= 31 ->
  ValidationRest.extract cards i mask subset indices
  = (subset ++ pickBits cards (Z.shiftr mask i),
     indices ++ pickBits (seqZ i (Z.of_nat (length cards))) (Z.shiftr mask i)).
Proof.
  intros Hm. revert i subset indices.
  induction cards as [|c cards IH]; intros i subset indices Hi Hlen.
  - cbn. by rewrite !app_nil_r.
  - rewrite length_cons, Nat2Z.inj_succ in Hlen.
    rewrite length_cons, Nat2Z.inj_succ, seqZ_cons by lia.
    rewrite Z.pred_succ. cbn [ValidationRest.extract].
    rewrite !pickBits_cons.
    rewrite and_shl_test by lia.
    rewrite Z.shiftr_spec, Z.add_0_l by lia.
    rewrite Z.shiftr_shiftr by lia.
    replace (Z.succ i) with (i + 1) by lia.
    destruct (Z.testbit mask i); cbn [negb].
    + rewrite IH by lia. by rewrite <- !app_assoc.
    + rewrite IH by lia. done.
Qed.

Lemma pickBits_fmap (f : Z -> Z) l m :
  pickBits (f <$> l) m = f <$> pickBits l m.
Proof.
  revert m. induction l as [|x l IH]; intros m; [done |].
  rewrite fmap_cons, !pickBits_cons, fmap_app, IH.
  by destruct (Z.testbit m 0).
Qed.

Lemma cardsAt_shift c cards l :
  Forall (fun i => 0 <= i) l ->
  cardsAt (c :: cards) (Z.add 1 <$> l) = cardsAt cards l.
Proof.
  unfold cardsAt. induction 1 as [|i l Hi _ IH]; [done |].
  rewrite fmap_cons, !omap_cons, IH.
  destruct (Z.leb_spec 0 (1 + i)) as [_|]; [| lia].
  destruct (Z.leb_spec 0 i) as [_|]; [| lia].
  replace (Z.to_nat (1 + i)) with (S (Z.to_nat i)) by lia. done.
Qed.

Lemma cardsAt_app cards l1 l2 :
  cardsAt cards (l1 ++ l2) = cardsAt cards l1 ++ cardsAt cards l2.
Proof. unfold cardsAt. apply omap_app. Qed.

(** The cards at the indices a mask selects are the cards it selects. *)
Lemma cardsAt_pickBits cards m :
  cardsAt cards (pickBits (seqZ 0 (Z.of_nat (length cards))) m)
  = pickBits cards m.
Proof.
  revert m. induction cards as [|c cards IH]; intros m; [done |].
  rewrite length_cons, Nat2Z.inj_succ, seqZ_cons by lia.
  rewrite Z.pred_succ, !pickBits_cons.
  change (Z.succ 0) with (1 + 0). rewrite <- fmap_add_seqZ, pickBits_fmap.
  rewrite cardsAt_app, cardsAt_shift, IH.
  - by destruct (Z.testbit m 0).
  - eapply Forall_sub; [| apply pickBits_sublist].
    apply Forall_seqZ. intros; lia.
Qed.

(** Different masks select different cards of a list without repeats. *)
Lemma pickBits_inj l m1 m2 :
  NoDup l ->
  0 <= m1 < 2 ^ Z.of_nat (length l) -> 0 <= m2 < 2 ^ Z.of_nat (length l) ->
  pickBits l m1 = pickBits l m2 -> m1 = m2.
Proof.
  intros Hnd. revert m1 m2.
  induction Hnd as [|x l Hx Hnd IH]; intros m1 m2 Hm1 Hm2 Heq.
  - cbn in Hm1, Hm2. lia.
  - rewrite length_cons, Nat2Z.inj_succ in Hm1, Hm2.
    rewrite !pickBits_cons in Heq.
    assert (forall m, x ∉ pickBits l m) as Hout.
    { intros m Hin. apply Hx. eapply elem_of_sublist; [exact Hin |].
      apply pickBits_sublist. }
    pose proof (mask_split m1) as Hs1. pose proof (mask_split m2) as Hs2.
    assert (0 <= Z.shiftr m1 1 < 2 ^ Z.of_nat (length l)) as Hr1
      by (apply shiftr_one_bounded; lia).
    assert (0 <= Z.shiftr m2 1 < 2 ^ Z.of_nat (length l)) as Hr2
      by (apply shiftr_one_bounded; lia).
    destruct (Z.testbit m1 0), (Z.testbit m2 0); cbn [app] in Heq.
    + injection Heq as Heq. rewrite (IH _ _ Hr1 Hr2 Heq) in Hs1. lia.
    + exfalso. apply (Hout (Z.shiftr m2 1)). rewrite <- Heq. by left.
    + exfalso. apply (Hout (Z.shiftr m1 1)). rewrite Heq. by left.
    + rewrite (IH _ _ Hr1 Hr2 Heq) in Hs1. lia.
Qed.

Lemma findAllSets_loop_spec fuel cards start validSets :
  Forall small cards -> (length cards <= 30)%nat ->
  0 <= start -> start + Z.of_nat fuel <= 2 ^ Z.of_nat (length cards) ->
  ValidationRest.findAllSets_loop fuel cards start validSets
  = validSets
    ++ (pickBits (seqZ 0 (Z.of_nat (length cards)))
          <$> filter (goodMask cards) (seqZ start (Z.of_nat fuel))).
Proof.
  intros Hc Hn. revert start validSets.
  assert (2 ^ Z.of_nat (length cards) <= 2 ^ 30) as Hpow
    by (apply Z.pow_le_mono_r; lia).
  induction fuel as [|fuel IH]; intros start validSets Hstart Hfuel.
  - cbn. by rewrite app_nil_r.
  - cbn [ValidationRest.findAllSets_loop].
    rewrite shl_one by lia.
    destruct (Z.ltb_spec start (2 ^ Z.of_nat (length cards))) as [_|]; [| lia].
    rewrite (countBits_spec (length cards)) by lia.
    rewrite <- (pickBits_length cards).
    rewrite Nat2Z.inj_succ, (seqZ_cons start) by lia. rewrite Z.pred_succ.
    replace (Z.succ start) with (start + 1) by lia.
    unfold Validation.MIN_SET_SIZE.
    destruct (Z.ltb_spec (Z.of_nat (length (pickBits cards start))) (Z.of_nat 3))
      as [Hfew|Hmany].
    + rewrite filter_cons_False by (intros [? _]; lia).
      apply IH; lia.
    + rewrite extract_spec by lia. rewrite Z.shiftr_0_r. cbn [app].
      assert (Forall small (pickBits cards start)) as Hsmall
        by (eapply Forall_sub; [exact Hc | apply pickBits_sublist]).
      pose proof (isValidSet_spec _ Hsmall) as Hvalid.
      destruct (Validation.isValidSet (pickBits cards start)).
      * rewrite filter_cons_True by (by apply Hvalid).
        rewrite IH by lia. rewrite fmap_cons. by rewrite <- app_assoc.
      * rewrite filter_cons_False.
        -- apply IH; lia.
        -- intros Hgood. by apply Hvalid in Hgood.
Qed.

Lemma findAllSets_masks cards :
  Forall small cards -> (length cards <= 30)%nat ->
  ValidationRest.findAllSets cards
  = pickBits (seqZ 0 (Z.of_nat (length cards)))
      <$> filter (goodMask cards)
            (seqZ 7 (2 ^ Z.of_nat (length cards) - 7)).
Proof.
  intros Hc Hn. unfold ValidationRest.findAllSets.
  rewrite shl_one by lia.
  destruct (Z.le_gt_cases 7 (2 ^ Z.of_nat (length cards))) as [Hbig|Hlittle].
  - rewrite findAllSets_loop_spec by (done || lia).
    cbn [app]. by rewrite Z2Nat.id by lia.
  - replace (Z.to_nat (2 ^ Z.of_nat (length cards) - 7)) with O by lia.
    by rewrite (seqZ_nil 7) by lia.
Qed.

Lemma elem_of_findAllSets cards indices :
  Forall small cards -> (length cards <= 30)%nat ->
  indices ∈ ValidationRest.findAllSets cards
  <-> exists m, 0 <= m < 2 ^ Z.of_nat (length cards)
                /\ goodMask cards m
                /\ indices = pickBits (seqZ 0 (Z.of_nat (length cards))) m.
Proof.
  intros Hc Hn. rewrite findAllSets_masks by done.
  rewrite list_elem_of_fmap. split.
  - intros (m & -> & [Hgood Hin%elem_of_seqZ]%list_elem_of_filter).
    exists m. split; [lia | done].
  - intros (m & Hm & Hgood & ->). exists m. split; [done |].
    apply list_elem_of_filter. split; [done |]. apply elem_of_seqZ.
    destruct Hgood as [Hlen _]. rewrite pickBits_length in Hlen.
    pose proof (three_bits_ge_7 _ m ltac:(lia) Hlen). lia.
Qed.

End FindSets.

(** X27. [findAllSets], for at most 30 cards with values below 2^31:
    an index list is returned exactly when it is a strictly increasing list
    of at least three indices of the cards (a sub-list of 0, ..., n-1) and
    the cards at these indices XOR to 0; no index list is returned twice;
    and the result is non-empty exactly when [hasValidSet] says yes. *)
Theorem findAllSets_lists_every_set (cards : list Card) :
  Forall small cards -> (length cards <= 30)%nat ->
  (forall indices,
     indices ∈ ValidationRest.findAllSets cards
     <-> sublist indices (seqZ 0 (Z.of_nat (length cards)))
         /\ (3 <= length indices)%nat
         /\ xorAll (cardsAt cards indices) = 0)
  /\ NoDup (ValidationRest.findAllSets cards)
  /\ (Validation.hasValidSet cards = true
      <-> ValidationRest.findAllSets cards <> []).
Proof.
  intros Hc Hn.
  assert (forall m, length (pickBits (seqZ 0 (Z.of_nat (length cards))) m)
                    = length (pickBits cards m)) as Hsame.
  { intros m. by rewrite !pickBits_length, length_seqZ, Nat2Z.id. }
  split; [| split].
  - intros indices. rewrite elem_of_findAllSets by done. split.
    + intros (m & Hm & [Hlen Hxor] & ->).
      split; [apply pickBits_sublist |]. split; [by rewrite Hsame |].
      by rewrite cardsAt_pickBits.
    + intros (Hsub & Hlen & Hxor).
      destruct (sublist_pickBits _ _ Hsub) as (m & Hm & <-).
      rewrite length_seqZ, Nat2Z.id in Hm.
      exists m. split; [done |]. split; [| done].
      rewrite cardsAt_pickBits in Hxor. rewrite Hsame in Hlen. done.
  - rewrite findAllSets_masks by done.
    apply NoDup_fmap_2_strong; [| apply NoDup_filter, NoDup_seqZ].
    intros m1 m2 [_ Hm1%elem_of_seqZ]%list_elem_of_filter
      [_ Hm2%elem_of_seqZ]%list_elem_of_filter Heq.
    eapply pickBits_inj; [apply NoDup_seqZ | | | exact Heq];
      rewrite length_seqZ, Nat2Z.id; lia.
  - rewrite hasValidSet_masks by done. split.
    + intros (m & Hm & Hlen & Hxor) Hnone.
      assert (pickBits (seqZ 0 (Z.of_nat (length cards))) m
              ∈ ValidationRest.findAllSets cards) as Hin.
      { apply elem_of_findAllSets; [done | done |]. exists m. done. }
      rewrite Hnone in Hin. by apply elem_of_nil in Hin.
    + intros Hsome.
      destruct (ValidationRest.findAllSets cards) as [|indices rest] eqn:Hall;
        [done |].
      assert (indices ∈ ValidationRest.findAllSets cards) as Hin
        by (rewrite Hall; by left).
      apply elem_of_findAllSets in Hin as (m & Hm & [Hlen Hxor] & _); [| done..].
      eauto.
Qed.

Lemma findAllSets_lists_every_set_witness :
  [0; 1; 2] ∈ ValidationRest.findAllSets [17; 5; 20; 42].
Proof.
  apply (proj1 (findAllSets_lists_every_set [17; 5; 20; 42]
                  ltac:(repeat constructor; unfold small; lia)
                  ltac:(cbn; lia))).
  split; [| split].
  - change (seqZ 0 (Z.of_nat (length [17; 5; 20; 42]))) with [0; 1; 2; 3].
    repeat constructor.
  - cbn. lia.
  - reflexivity.
Defined.

Section FindContaining.

Lemma lor_bounded k a b :
  0 <= k -> 0 <= a < 2 ^ k -> 0 <= b < 2 ^ k -> 0 <= Z.lor a b < 2 ^ k.
Proof.
  intros Hk Ha Hb.
  rewrite !Z.bounded_iff_bits_nonneg' in * by (try apply Z.lor_nonneg; lia).
  intros l Hl. rewrite Z.lor_spec, Ha, Hb; done.
Qed.

Lemma or_small a b :
  0 <= a < 2 ^ 31 -> 0 <= b < 2 ^ 31 -> JSRest.or a b = Z.lor a b.
Proof.
  intros Ha Hb. unfold JSRest.or.
  pose proof (lor_bounded 31 a b ltac:(lia) Ha Hb).
  rewrite (toInt32_small a), (toInt32_small b) by lia.
  apply toInt32_small. lia.
Qed.

(** The required mask has exactly the bits of the required indices. *)
Lemma requiredMask_fold (n : nat) R acc :
  (n <= 30)%nat -> Forall (fun i => 0 <= i < Z.of_nat n) R ->
  0 <= acc < 2 ^ Z.of_nat n ->
  let r := foldl (fun m idx => JSRest.or m (JS.shl 1 idx)) acc R in
  0 <= r < 2 ^ Z.of_nat n
  /\ forall k, 0 <= k ->
       Z.testbit r k = true <-> Z.testbit acc k = true \/ k ∈ R.
Proof.
  intros Hn HR. revert acc.
  assert (2 ^ Z.of_nat n <= 2 ^ 30) as Hpow by (apply Z.pow_le_mono_r; lia).
  induction HR as [|idx R Hidx _ IH]; intros acc Hacc r; subst r.
  - cbn [foldl]. split; [done |]. intros k _. split; [by left |].
    by intros [? | ?%elem_of_nil].
  - cbn [foldl]. rewrite shl_one by lia.
    assert (0 < 2 ^ idx < 2 ^ Z.of_nat n) as Hbit.
    { split; [apply Z.pow_pos_nonneg; lia | apply Z.pow_lt_mono_r; lia]. }
    rewrite or_small by lia.
    destruct (IH (Z.lor acc (2 ^ idx))) as [Hr Hbits].
    { apply lor_bounded; lia. }
    split; [exact Hr |]. intros k Hk. rewrite Hbits by done.
    rewrite Z.lor_spec, Z.pow2_bits_eqb by lia.
    rewrite orb_true_iff, Z.eqb_eq, elem_of_cons.
    split; [intros [[? | ->] | ?] | intros [? | [-> | ?]]]; auto.
Qed.

Lemma requiredMask_spec (n : nat) R :
  (n <= 30)%nat -> Forall (fun i => 0 <= i < Z.of_nat n) R ->
  0 <= ValidationRest.requiredMaskOf R < 2 ^ Z.of_nat n
  /\ forall k, 0 <= k ->
       Z.testbit (ValidationRest.requiredMaskOf R) k = true <-> k ∈ R.
Proof.
  intros Hn HR.
  destruct (requiredMask_fold n R 0 Hn HR) as [Hr Hbits].
  { split; [done | apply Z.pow_pos_nonneg; lia]. }
  split; [exact Hr |]. intros k Hk.
  unfold ValidationRest.requiredMaskOf. rewrite Hbits by done.
  rewrite Z.bits_0. split; [by intros [? | ?] | by right].
Qed.

(** The indices a mask selects are those of its set bits. *)
Lemma elem_of_pickBits_seqZ (n : nat) i m k :
  k ∈ pickBits (seqZ i (Z.of_nat n)) m
  <-> i <= k < i + Z.of_nat n /\ Z.testbit m (k - i) = true.
Proof.
  revert i m. induction n as [|n IH]; intros i m.
  - cbn. split; [by intros ?%elem_of_nil | lia].
  - rewrite Nat2Z.inj_succ, seqZ_cons by lia. rewrite Z.pred_succ.
    rewrite pickBits_cons, elem_of_app, IH.
    split.
    + intros [Hhead | [Hk Hbit]].
      * destruct (Z.testbit m 0) eqn:Hb0; [| by apply elem_of_nil in Hhead].
        apply list_elem_of_singleton in Hhead as ->.
        rewrite Z.sub_diag. split; [lia | done].
      * rewrite Z.shiftr_spec in Hbit by lia.
        replace (k - Z.succ i + 1) with (k - i) in Hbit by lia.
        split; [lia | done].
    + intros [Hk Hbit]. destruct (decide (k = i)) as [->|Hne].
      * left. rewrite Z.sub_diag in Hbit. rewrite Hbit. by left.
      * right. split; [lia |]. rewrite Z.shiftr_spec by lia.
        by replace (k - Z.succ i + 1) with (k - i) by lia.
Qed.

(** A mask contains the required mask when it has the required bits. *)
Lemma contains_required (n : nat) R m :
  (n <= 30)%nat -> Forall (fun i => 0 <= i < Z.of_nat n) R ->
  Z.land m (ValidationRest.requiredMaskOf R) = ValidationRest.requiredMaskOf R
  <-> R ⊆ pickBits (seqZ 0 (Z.of_nat n)) m.
Proof.
  intros Hn HR. destruct (requiredMask_spec n R Hn HR) as [Hr Hbits].
  rewrite Forall_forall in HR. split.
  - intros Hland k Hk. apply elem_of_pickBits_seqZ.
    pose proof (HR k Hk) as Hrange. split; [lia |].
    rewrite Z.sub_0_r.
    apply Hbits in Hk; [| lia]. rewrite <- Hland, Z.land_spec in Hk.
    by apply andb_true_iff in Hk as [? _].
  - intros Hsub. apply Z.bits_inj'. intros k Hk.
    rewrite Z.land_spec.
    destruct (Z.testbit (ValidationRest.requiredMaskOf R) k) eqn:Hbit;
      [| by rewrite andb_false_r].
    apply Hbits in Hbit; [| done].
    apply Hsub, elem_of_pickBits_seqZ in Hbit as [_ Hbit].
    rewrite Z.sub_0_r in Hbit. by rewrite Hbit.
Qed.

Lemma contains_ge m r : 0 <= m -> Z.land m r = r -> 0 <= r <= m.
Proof.
  intros Hm Hland. apply Z.ldiff_le; [done |].
  apply Z.bits_inj'. intros k Hk.
  rewrite Z.ldiff_spec, Z.bits_0, <- Hland, Z.land_spec.
  by destruct (Z.testbit m k), (Z.testbit r k).
Qed.

Lemma xorIndices_spec cards i mask acc indices :
  Forall small cards -> 0 <= mask < 2 ^ 31 ->
  0 <= i -> i + Z.of_nat (length cards) <= 31 -> small acc ->
  ValidationRest.xorIndices cards i mask acc indices
  = (Z.lxor acc (xorAll (pickBits cards (Z.shiftr mask i))),
     indices ++ pickBits (seqZ i (Z.of_nat (length cards))) (Z.shiftr mask i)).
Proof.
  intros Hc Hm. revert i acc indices.
  induction Hc as [|c cards Hc Hcs IH]; intros i acc indices Hi Hlen Hacc.
  - cbn. by rewrite Z.lxor_0_r, app_nil_r.
  - rewrite length_cons, Nat2Z.inj_succ in Hlen.
    rewrite length_cons, Nat2Z.inj_succ, seqZ_cons by lia.
    rewrite Z.pred_succ. cbn [ValidationRest.xorIndices].
    rewrite !pickBits_cons.
    rewrite and_shl_test by lia.
    rewrite Z.shiftr_spec, Z.add_0_l by lia.
    rewrite Z.shiftr_shiftr by lia.
    replace (Z.succ i) with (i + 1) by lia.
    rewrite xorAll_app.
    destruct (Z.testbit mask i); cbn [negb].
    + rewrite IH; [| lia | lia |].
      * rewrite xor_small by done. cbn [xorAll foldr].
        by rewrite Z.lxor_0_r, Z.lxor_assoc, <- app_assoc.
      * rewrite xor_small by done. apply lxor_bounded; [lia | done..].
    + rewrite IH by (done || lia). cbn [xorAll foldr app].
      by rewrite Z.lxor_0_l.
Qed.

Variable cards : list Card.
Variable requiredMask : Z.
Hypothesis cards_small : Forall small cards.
Hypothesis cards_few : (length cards <= 30)%nat.
Hypothesis mask_range : 0 <= requiredMask < 2 ^ Z.of_nat (length cards).

(** The mask loop returns the first mask from [start] on that is valid
    for the size. *)
Lemma findSetContaining_masks_spec fuel size start :
  0 <= start -> start + Z.of_nat fuel <= 2 ^ Z.of_nat (length cards) ->
  match ValidationRest.findSetContaining_masks fuel cards requiredMask size
          start with
  | Some indices =>
      exists m, start <= m < start + Z.of_nat fuel
                /\ validAt cards requiredMask size m
                /\ indices = pickBits (seqZ 0 (Z.of_nat (length cards))) m
  | None =>
      forall m, start <= m < start + Z.of_nat fuel ->
                ~ validAt cards requiredMask size m
  end.
Proof.
  assert (2 ^ Z.of_nat (length cards) <= 2 ^ 30) as Hpow
    by (apply Z.pow_le_mono_r; lia).
  revert start. induction fuel as [|fuel IH]; intros start Hstart Hfuel.
  - cbn. intros m Hm. lia.
  - cbn [ValidationRest.findSetContaining_masks].
    rewrite shl_one by lia.
    destruct (Z.ltb_spec start (2 ^ Z.of_nat (length cards))) as [_|]; [| lia].
    rewrite and_small by lia.
    rewrite (countBits_spec (length cards)) by lia.
    rewrite <- (pickBits_length cards).
    rewrite xorIndices_spec by (done || lia || (unfold small; lia)).
    rewrite Z.shiftr_0_r, Z.lxor_0_l. cbn [app].
    specialize (IH (start + 1) ltac:(lia) ltac:(lia)).
    assert (forall P : Prop,
              ~ validAt cards requiredMask size start ->
              match ValidationRest.findSetContaining_masks fuel cards
                      requiredMask size (start + 1) with
              | Some indices =>
                  exists m, start <= m < start + Z.of_nat (S fuel)
                            /\ validAt cards requiredMask size m
                            /\ indices
                               = pickBits (seqZ 0 (Z.of_nat (length cards))) m
              | None =>
                  forall m, start <= m < start + Z.of_nat (S fuel) ->
                            ~ validAt cards requiredMask size m
              end) as Hnext.
    { intros _ Hnot.
      destruct (ValidationRest.findSetContaining_masks fuel cards requiredMask
                  size (start + 1)) as [indices|].
      - destruct IH as (m & Hm & Hvalid & ->). exists m.
        split; [lia | done].
      - intros m Hm. destruct (decide (m = start)) as [->|Hne]; [done |].
        apply IH. lia. }
    destruct (Z.eqb_spec (Z.land start requiredMask) requiredMask)
      as [Hland|Hland]; cbn [negb];
      [| apply (Hnext True); by intros [? _]].
    destruct (Z.eqb_spec (Z.of_nat (length (pickBits cards start))) size)
      as [Hsize|Hsize]; cbn [negb];
      [| apply (Hnext True); by intros (_ & ? & _)].
    destruct (Z.eqb_spec (xorAll (pickBits cards start)) 0) as [Hxor|Hxor];
      [| apply (Hnext True); by intros (_ & _ & ?)].
    exists start. split; [lia |]. done.
Qed.

(** The size loop returns a valid mask of the first size that has one. *)
Lemma findSetContaining_sizes_spec fuel size :
  match ValidationRest.findSetContaining_sizes fuel cards requiredMask size with
  | Some indices =>
      exists size' m,
        size <= size' <= Z.of_nat (length cards)
        /\ requiredMask <= m < 2 ^ Z.of_nat (length cards)
        /\ validAt cards requiredMask size' m
        /\ indices = pickBits (seqZ 0 (Z.of_nat (length cards))) m
        /\ forall s m', size <= s < size' ->
                        requiredMask <= m' < 2 ^ Z.of_nat (length cards) ->
                        ~ validAt cards requiredMask s m'
  | None =>
      forall s m', size <= s < size + Z.of_nat fuel ->
                   s <= Z.of_nat (length cards) ->
                   requiredMask <= m' < 2 ^ Z.of_nat (length cards) ->
                   ~ validAt cards requiredMask s m'
  end.
Proof.
  assert (2 ^ Z.of_nat (length cards) <= 2 ^ 30) as Hpow
    by (apply Z.pow_le_mono_r; lia).
  revert size. induction fuel as [|fuel IH]; intros size.
  - cbn. intros s m' Hs. lia.
  - cbn [ValidationRest.findSetContaining_sizes].
    destruct (Z.leb_spec size (Z.of_nat (length cards))) as [Hsize|Hsize];
      [| intros s m' Hs Hn; lia].
    rewrite shl_one by lia.
    pose proof (findSetContaining_masks_spec
                  (Z.to_nat (2 ^ Z.of_nat (length cards) - requiredMask))
                  size requiredMask ltac:(lia) ltac:(lia)) as Hmasks.
    rewrite Z2Nat.id in Hmasks by lia.
    destruct (ValidationRest.findSetContaining_masks _ cards requiredMask size
                requiredMask) as [indices|].
    + destruct Hmasks as (m & Hm & Hvalid & ->).
      exists size, m. split; [lia |]. split; [lia |]. split; [done |].
      split; [done |]. intros s m' Hs. lia.
    + specialize (IH (size + 1)).
      destruct (ValidationRest.findSetContaining_sizes fuel cards requiredMask
                  (size + 1)) as [indices|].
      * destruct IH as (size' & m & Hs' & Hm & Hvalid & -> & Hfirst).
        exists size', m. split; [lia |]. split; [done |]. split; [done |].
        split; [done |]. intros s m' Hs Hm'.
        destruct (decide (s = size)) as [->|Hne].
        -- apply Hmasks. lia.
        -- apply Hfirst; [lia | done].
      * intros s m' Hs Hn Hm'.
        destruct (decide (s = size)) as [->|Hne].
        -- apply Hmasks. lia.
        -- apply IH; [lia | done | done].
Qed.

End FindContaining.

(** X28. [findSetContaining], for at most 30 cards with values below 2^31
    and distinct required indices of cards: an answer is a valid set of
    the cards, given by its indices in increasing order, that contains
    every required index, and no valid set that contains them has fewer
    cards; the answer is null only when no valid set contains them. *)
Theorem findSetContaining_smallest (cards : list Card)
    (requiredIndices : list Z) :
  Forall small cards -> (length cards <= 30)%nat ->
  Forall (fun i => 0 <= i < Z.of_nat (length cards)) requiredIndices ->
  NoDup requiredIndices ->
  match ValidationRest.findSetContaining cards requiredIndices with
  | Some indices =>
      setContaining cards requiredIndices indices
      /\ forall other, setContaining cards requiredIndices other ->
                       (length indices <= length other)%nat
  | None => forall other, ~ setContaining cards requiredIndices other
  end.
Proof.
  intros Hc Hn HR Hnd. unfold ValidationRest.findSetContaining.
  destruct (requiredMask_spec (length cards) requiredIndices Hn HR) as [Hr Hbits].
  set (requiredMask := ValidationRest.requiredMaskOf requiredIndices) in *.
  set (size := Z.max (Z.of_nat Validation.MIN_SET_SIZE)
                 (Z.of_nat (length requiredIndices))).
  assert (forall m, length (pickBits (seqZ 0 (Z.of_nat (length cards))) m)
                    = length (pickBits cards m)) as Hsame.
  { intros m. by rewrite !pickBits_length, length_seqZ, Nat2Z.id. }
  assert (forall other,
            setContaining cards requiredIndices other ->
            exists m', requiredMask <= m' < 2 ^ Z.of_nat (length cards)
                       /\ validAt cards requiredMask (Z.of_nat (length other)) m'
                       /\ size <= Z.of_nat (length other)
                                <= Z.of_nat (length cards)) as Hother.
  { intros other (Hsub & Hreq & Hlen & Hxor).
    destruct (sublist_pickBits _ _ Hsub) as (m' & Hm' & Hpick).
    rewrite length_seqZ, Nat2Z.id in Hm'.
    assert (Z.land m' requiredMask = requiredMask) as Hland.
    { apply (contains_required (length cards)); [done | done |].
      by rewrite Hpick. }
    exists m'. split; [| split].
    - pose proof (contains_ge m' requiredMask ltac:(lia) Hland). lia.
    - split; [done |]. split.
      + by rewrite <- Hsame, Hpick.
      + by rewrite <- cardsAt_pickBits, Hpick.
    - apply sublist_length in Hsub. rewrite length_seqZ, Nat2Z.id in Hsub.
      assert (length requiredIndices <= length other)%nat
        by (apply submseteq_length, NoDup_submseteq; done).
      subst size. unfold Validation.MIN_SET_SIZE. lia. }
  pose proof (findSetContaining_sizes_spec cards requiredMask Hc Hn Hr
                (S (length cards)) size) as Hspec.
  destruct (ValidationRest.findSetContaining_sizes (S (length cards)) cards
              requiredMask size) as [indices|].
  - destruct Hspec as (size' & m & Hs' & Hm & (Hland & Hsize & Hxor) & -> & Hfirst).
    split.
    + split; [apply pickBits_sublist |]. split; [| split].
      * by apply (contains_required (length cards)).
      * rewrite Hsame. subst size. unfold Validation.MIN_SET_SIZE in Hs'. lia.
      * by rewrite cardsAt_pickBits.
    + intros other (m' & Hm' & Hvalid & Hbounds)%Hother.
      rewrite Hsame.
      destruct (Nat.le_gt_cases (length (pickBits cards m)) (length other))
        as [|Hless]; [done | exfalso].
      apply (Hfirst (Z.of_nat (length other)) m'); [lia | done | done].
  - intros other (m' & Hm' & Hvalid & Hbounds)%Hother.
    apply (Hspec (Z.of_nat (length other)) m'); [lia | lia | done | done].
Qed.

Lemma findSetContaining_smallest_witness :
  match ValidationRest.findSetContaining [17; 5; 20; 42] [0] with
  | Some indices =>
      setContaining [17; 5; 20; 42] [0] indices
      /\ forall other, setContaining [17; 5; 20; 42] [0] other ->
                       (length indices <= length other)%nat
  | None => forall other, ~ setContaining [17; 5; 20; 42] [0] other
  end.
Proof.
  apply (findSetContaining_smallest [17; 5; 20; 42] [0]).
  - repeat constructor; unfold small; lia.
  - cbn. lia.
  - repeat constructor; cbn; lia.
  - apply NoDup_singleton.
Defined.

(** * Showing a card *)

Section CardDisplay.

Lemma display_of_six_bits : Forall displayOk (seqZ 0 64).
Proof. refine (bool_decide_unpack _ _). vm_compute. exact I. Qed.

Lemma dotsDigits_inj a b : dotsDigits a = dotsDigits b -> a = b.
Proof.
  revert b. induction a as [|x a IH]; intros [|y b] Heq; try done.
  - by destruct y.
  - by destruct x.
  - assert (x = y /\ dotsDigits a = dotsDigits b) as [-> Hrest].
    { destruct x, y; simpl in Heq; by inversion Heq. }
    f_equal. by apply IH.
Qed.

End CardDisplay.

(** X29. Showing a card.  For every 6-bit value, so for every card:
    [getCardDots] gives six dots, dot [i] being bit [i] of the value; the
    value is recovered from the dots, so different cards show different
    dots; [getCardBinary] gives six binary digits, which are the dots read
    from the highest to the lowest, and different cards have different
    digits. *)
Theorem card_dots_and_digits (v v' : Z) :
  0 <= v < 64 -> 0 <= v' < 64 ->
  DeckRest.getCardDots v = Z.testbit v <$> seqZ 0 6
  /\ dotsValue (DeckRest.getCardDots v) = v
  /\ (DeckRest.getCardDots v = DeckRest.getCardDots v' -> v = v')
  /\ DeckRest.getCardBinary v = dotsDigits (reverse (DeckRest.getCardDots v))
  /\ String.length (DeckRest.getCardBinary v) = 6%nat
  /\ (DeckRest.getCardBinary v = DeckRest.getCardBinary v' -> v = v').
Proof.
  intros Hv Hv'.
  pose proof display_of_six_bits as Hall. rewrite Forall_forall in Hall.
  destruct (Hall v) as (Hdots & Hvalue & Hdigits & Hlen);
    [apply elem_of_seqZ; lia |].
  destruct (Hall v') as (_ & Hvalue' & Hdigits' & _);
    [apply elem_of_seqZ; lia |].
  assert (DeckRest.getCardDots v = DeckRest.getCardDots v' -> v = v') as Hinj.
  { intros Heq. rewrite <- Hvalue, <- Hvalue'. by rewrite Heq. }
  split; [done |]. split; [done |]. split; [done |]. split; [done |].
  split; [done |].
  intros Heq. apply Hinj. rewrite Hdigits, Hdigits' in Heq.
  apply dotsDigits_inj in Heq. by apply (inj reverse).
Qed.

Lemma card_dots_and_digits_witness :
  DeckRest.getCardDots 42 = Z.testbit 42 <$> seqZ 0 6
  /\ DeckRest.getCardBinary 42 = dotsDigits (reverse (DeckRest.getCardDots 42)).
Proof.
  destruct (card_dots_and_digits 42 17 ltac:(lia) ltac:(lia))
    as (Hdots & _ & _ & Hdigits & _).
  exact (conj Hdots Hdigits).
Defined.

(** * The handler of 'game:toggleCard' *)

Section ToggleHandler.
Context `{!Oracle}.

Lemma toggle_settings s p c :
  GameState.settings (Game.toggleCardSelection s p c) = GameState.settings s.
Proof.
  unfold Game.toggleCardSelection.
  destruct (Game.findPlayer _ _) as [[i pl]|]; [| done].
  by destruct (negb _).
Qed.

Lemma toggle_score s p c q :
  scoreOf (Game.toggleCardSelection s p c) q = scoreOf s q.
Proof.
  destruct (Game.findPlayer (GameState.players s) p) as [[i pl]|] eqn:Hfind.
  - destruct (toggle_shape s p c i pl Hfind) as (sel & -> & _).
    pose proof Hfind as (Hi & Hid & _)%list_find_Some.
    unfold scoreOf. cbn [Game.withPlayers GameState.players].
    unfold Game.findPlayer.
    rewrite (list_find_insert_other _ _ _ pl); [| exact Hi | done].
    destruct (list_find _ (GameState.players s)) as [[j z]|] eqn:Hq; [| done].
    cbn [fmap option_fmap option_map fst snd].
    destruct (decide (j = i)) as [->|]; [| done].
    apply list_find_Some in Hq as (Hj & _).
    assert (z = pl) as -> by congruence. done.
  - unfold Game.toggleCardSelection. by rewrite Hfind.
Qed.

(** The manager accepts the toggle of a player of a game that is played. *)
Lemma manager_toggle_accepted games code g p c :
  games !! code = Some g ->
  GameState.phase (GameInstance.state g) = playing ->
  is_Some (Game.findPlayer (GameState.players (GameInstance.state g)) p) ->
  let s1 := Game.toggleCardSelection (GameInstance.state g) p c in
  GameManager.toggleCard games code p c
  = (Ok (ToggleOk.mk (selectionOf s1 p) (Game.isPlayerSelectionValid s1 p)),
     <[code := GameInstance.mk s1 (GameInstance.pendingSet g)
                 (GameInstance.loopInterval g)]> games).
Proof.
  intros Hg Hphase [[i pl] Hfind] s1. subst s1.
  unfold GameManager.toggleCard. rewrite Hg.
  rewrite (bool_decide_eq_true_2 _ Hphase). cbn [negb].
  destruct (toggle_shape _ p c i pl Hfind) as (sel & _ & Hafter).
  unfold selectionOf. by rewrite Hafter.
Qed.

(** A selection that [isPlayerSelectionValid] accepts, in a state whose
    selections are on the table, is claimed by [claimSet]. *)
Lemma valid_selection_claim s p w :
  selectionsOnTable s ->
  Game.isPlayerSelectionValid s p = true ->
  exists s' pts w',
    Game.claimSet s p (selectionOf s p) w = ((s', pts), w')
    /\ 0 < pts
    /\ selectionOf s' p = []
    /\ scoreOf s' p = scoreOf s p + pts.
Proof.
  intros Hall Hvalid. unfold selectionsOnTable in Hall.
  rewrite Forall_forall in Hall.
  unfold Game.isPlayerSelectionValid in Hvalid.
  destruct (Game.findPlayer (GameState.players s) p) as [[i pl]|] eqn:Hfind.
  - rewrite (selected_values s p i pl Hfind) in Hvalid.
    assert (selectionOf s p = Player.selectedCardIds pl) as Hsel
      by (unfold selectionOf; by rewrite Hfind).
    assert (pl ∈ GameState.players s) as Hpl.
    { apply list_find_Some in Hfind as (Hi & _). by eapply list_elem_of_lookup_2. }
    destruct (Hall pl Hpl) as [_ Hon].
    assert (claimValid s p (Player.selectedCardIds pl)) as Hclaim.
    { split; [by rewrite Hfind |]. split; [| done].
      apply claimedOf_all_on_table, Forall_forall. exact Hon. }
    destruct (claimSet_success s p _ w i pl Hclaim Hfind)
      as (deck1 & w1 & newCards & newDeck & _ & _ & Hrun).
    rewrite Hsel, Hrun. eexists _, _, _. split; [reflexivity |].
    split; [by apply pointsFor_pos |].
    unfold selectionOf, scoreOf. cbn [GameState.players].
    rewrite findPlayer_afterClaim, Hfind.
    cbn [fmap option_fmap option_map fst snd].
    by rewrite decide_True.
  - unfold Game.getSelectedCardValues in Hvalid. rewrite Hfind in Hvalid.
    discriminate.
Qed.

End ToggleHandler.

(** X30. What the handler of 'game:toggleCard' does, on a socket that is in
    a room, for a player of a game that is played and whose selections are
    on the table.  It tells the
    room the player's new selection.  When the selection is not a valid set
    that is all, and the game stored is the toggled one.  When it is a
    valid set and the game claims sets immediately, the claim always goes
    through: 'game:setClaimed' follows with the selection and positive
    points, and in the stored game the player's selection is empty and the
    score has grown by the points.  When sets must be confirmed,
    'game:setPending' follows for this player, also when another player
    holds the pending slot; the slot stays with its holder and goes to
    this player only when it was free. *)
Theorem toggle_handler_protocol `{!Oracle} (games : gmap string GameInstance.t)
    (code : string) (g : GameInstance.t) (p : PlayerId) (c : CardId)
    (w : World.t) :
  code <> EmptyString ->
  games !! code = Some g ->
  GameState.phase (GameInstance.state g) = playing ->
  is_Some (Game.findPlayer (GameState.players (GameInstance.state g)) p) ->
  selectionsOnTable (GameInstance.state g) ->
  let s1 := Game.toggleCardSelection (GameInstance.state g) p c in
  let sel := selectionOf s1 p in
  let announce := toRoom code (ServerEvent.selectionChanged p sel) in
  let r := GameHandlers.onToggleCard games (Some code) p c w in
  if Game.isPlayerSelectionValid s1 p
  then
    match Settings.setFoundBehavior (GameState.settings (GameInstance.state g)) with
    | immediate =>
        exists pts rest game',
          r.1.1 = announce :: toRoom code (ServerEvent.setClaimed p sel pts) :: rest
          /\ 0 < pts
          /\ r.1.2 !! code = Some game'
          /\ selectionOf (GameInstance.state game') p = []
          /\ scoreOf (GameInstance.state game') p
             = scoreOf (GameInstance.state g) p + pts
    | click =>
        r = (([announce; toRoom code (ServerEvent.setPending p sel)],
              <[code := GameInstance.mk s1
                          (Some (default (PendingSet.mk p sel (World.now w))
                                   (GameInstance.pendingSet g)))
                          (GameInstance.loopInterval g)]> games), w)
    end
  else
    r = (([announce],
          <[code := GameInstance.mk s1 (GameInstance.pendingSet g)
                      (GameInstance.loopInterval g)]> games), w).
Proof.
  intros Hcode Hg Hphase Hplayer Hall s1 sel announce r.
  subst r. unfold GameHandlers.onToggleCard, GameHandlers.present.
  rewrite (bool_decide_eq_false_2 _ Hcode).
  rewrite (manager_toggle_accepted games code g p c Hg Hphase Hplayer).
  fold s1. fold sel.
  cbn [ToggleOk.selectedCardIds ToggleOk.validSetFormed].
  destruct (Game.isPlayerSelectionValid s1 p) eqn:Hvalid; [| done].
  unfold GameHandlers.handleValidSet, GameManager.getGameState, bind, ret.
  rewrite lookup_insert_eq.
  cbn [fmap option_fmap option_map GameInstance.state].
  assert (GameState.settings s1 = GameState.settings (GameInstance.state g))
    as Hsettings by apply toggle_settings.
  rewrite Hsettings.
  destruct (Settings.setFoundBehavior (GameState.settings (GameInstance.state g))).
  - assert (selectionsOnTable s1) as Hall1 by by apply toggle_selectionsOnTable.
    destruct (valid_selection_claim s1 p w Hall1 Hvalid)
      as (s' & pts & w' & Hrun & Hpos & Hsel' & Hscore).
    fold sel in Hrun.
    destruct (manager_claim_accepted
                (<[code := GameInstance.mk s1 (GameInstance.pendingSet g)
                             (GameInstance.loopInterval g)]> games)
                code (GameInstance.mk s1 (GameInstance.pendingSet g)
                        (GameInstance.loopInterval g))
                p sel w s' pts w' (lookup_insert_eq _ _ _) Hrun ltac:(lia))
      as (ok & games' & game' & Hclaim & Hpts & _ & Hgame' & _ & Hplayers & _).
    rewrite Hclaim. cbn [fst snd].
    unfold GameHandlers.claimEvents. rewrite Hpts. cbn [app].
    eexists pts, _, game'. split; [reflexivity |]. split; [done |].
    split; [done |].
    unfold selectionOf, scoreOf in *. rewrite Hplayers.
    split; [exact Hsel' |]. rewrite Hscore.
    fold (scoreOf s1 p). unfold s1. rewrite toggle_score. done.
  - unfold GameManager.setPendingSet, bind, ret, Game.dateNow.
    rewrite lookup_insert_eq.
    cbn [GameInstance.pendingSet GameInstance.state GameInstance.loopInterval].
    destruct (GameInstance.pendingSet g) as [pd|]; cbn [fst snd default].
    + done.
    + by rewrite insert_insert_eq.
Qed.

Lemma toggle_handler_protocol_witness :
  (@GameHandlers.onToggleCard Demo.oracle
     {[ "room"%string := GameInstance.mk Demo.knownState None None ]}
     (Some "room"%string) "player1" "card1" Demo.w0).1.1
  = [toRoom "room" (ServerEvent.selectionChanged "player1" ["card1"%string])].
Proof.
  exact (f_equal (fun x => x.1.1)
           (@toggle_handler_protocol Demo.oracle
              {[ "room"%string := GameInstance.mk Demo.knownState None None ]}
              "room" (GameInstance.mk Demo.knownState None None)
              "player1" "card1" Demo.w0
              ltac:(discriminate) (lookup_singleton_eq _ _) eq_refl
              (ex_intro _ _ eq_refl)
              (new_players_select_nothing Demo.knownState
                 ltac:(repeat constructor)))).
Defined.
